(** * Collective-instance placement, action summaries and option-list output

    A shallow embedding of the scheduler code shared by clone instances and
    bundle replica containers (instance assignment, instance state summary,
    creation of the instances' actions, interleaved ordering, summary action
    flags) and of the text and XML formatters of option lists, with the
    properties their specification states and further properties read off
    the code. *)

From Stdlib Require Import ZArith Ascii String List Bool Lia.
From stdpp Require Import base option list strings gmap fin_maps.

Local Open Scope Z_scope.

(** ** Flag groups

    [pcmk_is_set], [pcmk_all_flags_set] and [pcmk_any_flags_set] test bits of
    an unsigned flag group. *)

Definition pcmk_all_flags_set (flag_group flags_to_check : Z) : bool :=
  Z.land flag_group flags_to_check =? flags_to_check.

Definition pcmk_is_set (flag_group flags_to_check : Z) : bool :=
  pcmk_all_flags_set flag_group flags_to_check.

Definition pcmk_any_flags_set (flag_group flags_to_check : Z) : bool :=
  negb (Z.land flag_group flags_to_check =? 0).

(** The double-quote character, built from its code. *)
Definition dquote : string := String (ascii_of_nat 34) EmptyString.

(** Appending strings. *)
Lemma string_length_append (a : string) : forall b : string,
  String.length (a +:+ b) = (String.length a + String.length b)%nat.
Proof.
  induction a as [|c a IH]; intros b; [reflexivity|].
  simpl. rewrite IH. reflexivity.
Qed.

Lemma string_append_nil_r (a : string) : a +:+ "" = a.
Proof.
  induction a as [|c a IH]; [reflexivity|].
  change (String c (a +:+ "") = String c a). f_equal. exact IH.
Qed.

Lemma string_append_assoc (a : string) : forall b c : string,
  (a +:+ b) +:+ c = a +:+ (b +:+ c).
Proof.
  induction a as [|x a IH]; intros b c; [reflexivity|].
  change (String x ((a +:+ b) +:+ c) = String x (a +:+ (b +:+ c))).
  f_equal. apply IH.
Qed.

(** ** Option-list text output *)

Module OptionList.

(** One entry of a [pcmk__cluster_option_t] array.  A [const char *] member
    that may be [NULL] is an [option string]. *)
Record pcmk__cluster_option_t := mk_option {
  name : string;
  type : option string;
  values : option string;
  default_value : option string;
  flags : Z;
  description_short : option string;
  description_long : option string
}.

(** The calls a formatter makes on its output object, in order. *)
Inductive out_call :=
| call_info (text : string)
| call_spacer
| call_begin_list (plural_noun : option string)
| call_list_item (id : option string) (text : string)
| call_end_list.

(** The text output object: its fancy toggle and the calls received. *)
Record pcmk__output_t := mk_output {
  fancy : bool;
  calls : list out_call
}.

Definition emit (out : pcmk__output_t) (c : out_call) : pcmk__output_t :=
  mk_output (fancy out) (calls out ++ [c]).

Definition pcmk__output_text_get_fancy (out : pcmk__output_t) : bool :=
  fancy out.

Definition pcmk__output_text_set_fancy (out : pcmk__output_t) (enabled : bool)
  : pcmk__output_t :=
  mk_output enabled (calls out).

(** [strtok] over a whole string: the maximal runs of characters that are not
    delimiters, in order; [cur] is the token being read. *)
Fixpoint strtok (delim : list ascii) (s : string) (cur : string)
  : list string :=
  match s with
  | EmptyString => if String.eqb cur "" then [] else [cur]
  | String c rest =>
      if existsb (Ascii.eqb c) delim then
        if String.eqb cur "" then strtok delim rest ""
        else cur :: strtok delim rest ""
      else strtok delim rest (cur +:+ String c EmptyString)
  end.

Section TextOutput.

(** The bits of [enum pcmk__opt_flags] and the message translation [_()] are
    declared outside these sources. *)
Variable pcmk__opt_advanced : Z.
Variable pcmk__opt_deprecated : Z.
Variable pcmk__opt_generated : Z.
Variable gettext : string -> string.

(** The loop of [add_possible_values_default] over the tokens of a select
    option's values. *)
Fixpoint possible_values_loop (default_value : option string)
    (tokens : list string) (buf : string) (found_default : bool) : string :=
  match tokens with
  | [] => buf
  | value :: rest =>
      let buf := if (0 <? Z.of_nat (String.length buf))
                 then buf +:+ ", " else buf in
      let buf := buf +:+ dquote +:+ value +:+ dquote in
      match default_value with
      | Some d =>
          if negb found_default && String.eqb value d
          then possible_values_loop default_value rest
                 (buf +:+ gettext " (default)") true
          else possible_values_loop default_value rest buf found_default
      | None => possible_values_loop default_value rest buf found_default
      end
  end.

Definition add_possible_values_default (out : pcmk__output_t)
    (opt : pcmk__cluster_option_t) : option pcmk__output_t :=
  match type opt with
  | None => None (* CRM_ASSERT(option->type != NULL) *)
  | Some ty =>
      let id := if pcmk_is_set (flags opt) pcmk__opt_generated
                then gettext "Possible values (generated by Pacemaker)"
                else gettext "Possible values" in
      let buf :=
        match values opt, String.eqb ty "select" with
        | Some vals, true =>
            possible_values_loop (default_value opt)
              (strtok ["," ; " "]%char vals "") ""
              (match default_value opt with
               | None => true
               | Some _ => false
               end)
        | _, _ =>
            match default_value opt with
            | Some d =>
                ty +:+ gettext (" (default: " +:+ dquote) +:+ d
                   +:+ dquote +:+ ")"
            | None => ty +:+ gettext " (no default)"
            end
        end in
      Some (emit out (call_list_item (Some id) buf))
  end.

Definition add_option_metadata_default (out : pcmk__output_t)
    (opt : pcmk__cluster_option_t) : option pcmk__output_t :=
  match
    match description_short opt, description_long opt with
    | None, None => None (* CRM_ASSERT((desc_short != NULL) || ...) *)
    | None, Some l => Some (l, None)
    | Some s, l => Some (s, l)
    end
  with
  | None => None
  | Some (desc_short, desc_long) =>
      let out := emit out (call_list_item (Some (name opt))
                                          (gettext desc_short)) in
      let out := emit out (call_begin_list None) in
      let out := match desc_long with
                 | Some l => emit out (call_list_item None (gettext l))
                 | None => out
                 end in
      match add_possible_values_default out opt with
      | None => None
      | Some out => Some (emit out call_end_list)
      end
  end.

(** The first loop of [option_list_default]: options that pass the filter are
    shown at once, or stored (prepended) when deprecated or advanced. *)
Fixpoint option_list_scan (filter : Z) (show_deprecated show_advanced : bool)
    (option_list : list pcmk__cluster_option_t) (out : pcmk__output_t)
    (deprecated advanced : list pcmk__cluster_option_t)
  : option (pcmk__output_t * list pcmk__cluster_option_t
            * list pcmk__cluster_option_t) :=
  match option_list with
  | [] => Some (out, deprecated, advanced)
  | opt :: rest =>
      if pcmk_all_flags_set (flags opt) filter then
        if pcmk_is_set (flags opt) pcmk__opt_deprecated then
          option_list_scan filter show_deprecated show_advanced rest out
            (if show_deprecated then opt :: deprecated else deprecated)
            advanced
        else if pcmk_is_set (flags opt) pcmk__opt_advanced then
          option_list_scan filter show_deprecated show_advanced rest out
            deprecated
            (if show_advanced then opt :: advanced else advanced)
        else
          match add_option_metadata_default (emit out call_spacer) opt with
          | None => None
          | Some out =>
              option_list_scan filter show_deprecated show_advanced rest out
                deprecated advanced
          end
      else
        option_list_scan filter show_deprecated show_advanced rest out
          deprecated advanced
  end.

(** The loop over a stored group. *)
Fixpoint option_list_group (out : pcmk__output_t)
    (group : list pcmk__cluster_option_t) : option pcmk__output_t :=
  match group with
  | [] => Some out
  | opt :: rest =>
      match add_option_metadata_default (emit out call_spacer) opt with
      | None => None
      | Some out => option_list_group out rest
      end
  end.

Definition advanced_title : string := "ADVANCED OPTIONS".
Definition deprecated_title : string :=
  "DEPRECATED OPTIONS (will be removed in a future release)".

(** [option_list_default]: [None] stands for a failed [CRM_ASSERT].  The
    option array ends at the entry whose name is [NULL]; [option_list] holds
    the entries before it. *)
Definition option_list_default (out : pcmk__output_t)
    (desc_short desc_long : option string) (filter : Z)
    (option_list : list pcmk__cluster_option_t) (all : bool)
  : option pcmk__output_t :=
  let show_deprecated := all || pcmk_is_set filter pcmk__opt_deprecated in
  let show_advanced := all || pcmk_is_set filter pcmk__opt_advanced in
  match desc_short, desc_long with
  | Some desc_short, Some desc_long =>
      let old_fancy := pcmk__output_text_get_fancy out in
      let out := pcmk__output_text_set_fancy out true in
      let out := emit out (call_info (gettext desc_short)) in
      let out := emit out call_spacer in
      let out := emit out (call_info (gettext desc_long)) in
      let out := emit out (call_begin_list None) in
      match option_list_scan filter show_deprecated show_advanced option_list
              out [] [] with
      | None => None
      | Some (out, deprecated, advanced) =>
          match
            match advanced with
            | [] => Some out
            | _ :: _ =>
                let advanced := rev advanced in
                let out := emit out call_spacer in
                let out :=
                  emit out (call_begin_list (Some (gettext advanced_title))) in
                match option_list_group out advanced with
                | None => None
                | Some out => Some (emit out call_end_list)
                end
            end
          with
          | None => None
          | Some out =>
              match
                match deprecated with
                | [] => Some out
                | _ :: _ =>
                    let deprecated := rev deprecated in
                    let out := emit out call_spacer in
                    let out :=
                      emit out
                        (call_begin_list (Some (gettext deprecated_title))) in
                    match option_list_group out deprecated with
                    | None => None
                    | Some out => Some (emit out call_end_list)
                    end
                end
              with
              | None => None
              | Some out =>
                  let out := emit out call_end_list in
                  Some (pcmk__output_text_set_fancy out old_fancy)
              end
          end
      end
  | _, _ => None (* CRM_ASSERT((desc_short != NULL) && (desc_long != NULL)) *)
  end.

(** *** The option list as the specification words it

    Options that pass the filter and are neither deprecated nor advanced come
    first, in order; the advanced and the deprecated ones follow in two
    groups, each in input order, a group being kept only if the caller asked
    for all options or the filter names the group's flag. *)

Definition passes_filter (filter : Z) (opt : pcmk__cluster_option_t) : bool :=
  pcmk_all_flags_set (flags opt) filter.

Definition is_deprecated (opt : pcmk__cluster_option_t) : bool :=
  pcmk_is_set (flags opt) pcmk__opt_deprecated.

Definition is_advanced (opt : pcmk__cluster_option_t) : bool :=
  pcmk_is_set (flags opt) pcmk__opt_advanced.

Definition main_options (filter : Z)
    (option_list : list pcmk__cluster_option_t) :=
  List.filter (fun opt => passes_filter filter opt && negb (is_deprecated opt)
                          && negb (is_advanced opt)) option_list.

Definition advanced_group (filter : Z) (all : bool)
    (option_list : list pcmk__cluster_option_t) :=
  if all || pcmk_is_set filter pcmk__opt_advanced
  then List.filter (fun opt => passes_filter filter opt
                               && negb (is_deprecated opt)
                               && is_advanced opt) option_list
  else [].

Definition deprecated_group (filter : Z) (all : bool)
    (option_list : list pcmk__cluster_option_t) :=
  if all || pcmk_is_set filter pcmk__opt_deprecated
  then List.filter (fun opt => passes_filter filter opt && is_deprecated opt)
         option_list
  else [].

(** The calls that show one option. *)
Definition option_entry (opt : pcmk__cluster_option_t)
  : option (list out_call) :=
  match add_option_metadata_default (mk_output false []) opt with
  | None => None
  | Some out => Some (calls out)
  end.

(** A run of options, each after a spacer. *)
Fixpoint option_entries (l : list pcmk__cluster_option_t)
  : option (list out_call) :=
  match l with
  | [] => Some []
  | opt :: rest =>
      match option_entry opt, option_entries rest with
      | Some e, Some es => Some (call_spacer :: e ++ es)
      | _, _ => None
      end
  end.

(** A trailing group under its header; nothing at all for an empty group. *)
Definition trailing_group (title : string)
    (group : list pcmk__cluster_option_t) : option (list out_call) :=
  match group with
  | [] => Some []
  | _ :: _ =>
      match option_entries group with
      | None => None
      | Some es =>
          Some (call_spacer :: call_begin_list (Some (gettext title)) :: es
                ++ [call_end_list])
      end
  end.

Definition option_list_text (out : pcmk__output_t)
    (desc_short desc_long : option string) (filter : Z)
    (option_list : list pcmk__cluster_option_t) (all : bool)
  : option pcmk__output_t :=
  match desc_short, desc_long with
  | Some desc_short, Some desc_long =>
      match option_entries (main_options filter option_list),
            trailing_group advanced_title
              (advanced_group filter all option_list),
            trailing_group deprecated_title
              (deprecated_group filter all option_list) with
      | Some main, Some adv, Some dep =>
          Some (mk_output (fancy out)
                  (calls out
                   ++ [call_info (gettext desc_short); call_spacer;
                       call_info (gettext desc_long); call_begin_list None]
                   ++ main ++ adv ++ dep ++ [call_end_list]))
      | _, _, _ => None
      end
  | _, _ => None
  end.

(** *** Properties of the text formatter *)

Definition append_calls (out : pcmk__output_t) (cs : list out_call)
  : pcmk__output_t :=
  mk_output (fancy out) (calls out ++ cs).

Lemma add_possible_values_default_calls out opt :
  add_possible_values_default out opt =
  match add_possible_values_default (mk_output false []) opt with
  | None => None
  | Some o => Some (append_calls out (calls o))
  end.
Proof.
  unfold add_possible_values_default.
  destruct (type opt); reflexivity.
Qed.

Lemma add_option_metadata_default_calls out opt :
  add_option_metadata_default out opt =
  match option_entry opt with
  | None => None
  | Some e => Some (append_calls out e)
  end.
Proof.
  unfold option_entry, add_option_metadata_default.
  destruct (description_short opt) as [s|], (description_long opt) as [l|];
    try reflexivity.
  all: rewrite add_possible_values_default_calls.
  all: match goal with
       | |- context [add_possible_values_default (mk_output false [])
                       ?o] =>
           rewrite (add_possible_values_default_calls
                      (emit _ _) o);
           destruct (add_possible_values_default (mk_output false []) o)
       end; try reflexivity.
  all: unfold append_calls, emit; simpl; f_equal; f_equal;
    rewrite <- ?app_assoc; reflexivity.
Qed.

Lemma option_list_group_calls group : forall out,
  option_list_group out group =
  match option_entries group with
  | None => None
  | Some es => Some (append_calls out es)
  end.
Proof.
  induction group as [|opt rest IH]; intros out; simpl.
  - unfold append_calls. rewrite app_nil_r. destruct out; reflexivity.
  - rewrite add_option_metadata_default_calls.
    destruct (option_entry opt) as [e|]; [|reflexivity].
    rewrite IH. destruct (option_entries rest) as [es|]; [|reflexivity].
    unfold append_calls, emit; simpl.
    rewrite <- !app_assoc. reflexivity.
Qed.

(** What the first loop leaves: the main entries on the output, and the two
    stores holding the kept options in reverse input order. *)
Lemma option_list_scan_spec filter show_deprecated show_advanced option_list :
  forall out deprecated advanced,
  option_list_scan filter show_deprecated show_advanced option_list out
    deprecated advanced =
  match option_entries (main_options filter option_list) with
  | None => None
  | Some main =>
      Some (append_calls out main,
            rev (if show_deprecated
                 then List.filter (fun opt => passes_filter filter opt
                                              && is_deprecated opt)
                        option_list
                 else []) ++ deprecated,
            rev (if show_advanced
                 then List.filter (fun opt => passes_filter filter opt
                                              && negb (is_deprecated opt)
                                              && is_advanced opt)
                        option_list
                 else []) ++ advanced)
  end.
Proof.
  induction option_list as [|opt rest IH]; intros out deprecated advanced.
  - simpl. unfold append_calls. rewrite app_nil_r.
    destruct show_deprecated, show_advanced, out; reflexivity.
  - simpl. unfold passes_filter, is_deprecated, is_advanced in *.
    destruct (pcmk_all_flags_set (flags opt) filter); simpl; [|apply IH].
    destruct (pcmk_is_set (flags opt) pcmk__opt_deprecated); simpl.
    { rewrite IH. destruct (option_entries _); [|reflexivity].
      destruct show_deprecated; simpl; rewrite <- ?app_assoc; reflexivity. }
    destruct (pcmk_is_set (flags opt) pcmk__opt_advanced); simpl.
    { rewrite IH. destruct (option_entries _); [|reflexivity].
      destruct show_advanced; simpl; rewrite <- ?app_assoc; reflexivity. }
    rewrite add_option_metadata_default_calls.
    destruct (option_entry opt) as [e|]; [|reflexivity].
    rewrite IH. destruct (option_entries _) as [es|]; [|reflexivity].
    unfold append_calls, emit; simpl. rewrite <- !app_assoc. reflexivity.
Qed.

Lemma trailing_group_calls title group out :
  match rev group with
  | [] => Some out
  | _ :: _ =>
      match option_list_group
              (emit (emit out call_spacer)
                    (call_begin_list (Some (gettext title))))
              (rev (rev group)) with
      | None => None
      | Some o => Some (emit o call_end_list)
      end
  end =
  match trailing_group title group with
  | None => None
  | Some cs => Some (append_calls out cs)
  end.
Proof.
  rewrite rev_involutive. unfold trailing_group.
  destruct group as [|opt rest].
  - simpl. unfold append_calls. rewrite app_nil_r. destruct out; reflexivity.
  - destruct (rev (opt :: rest)) eqn:E.
    { apply (f_equal (@rev _)) in E. rewrite rev_involutive in E.
      discriminate E. }
    rewrite option_list_group_calls.
    destruct (option_entries (opt :: rest)) as [es|]; [|reflexivity].
    unfold append_calls, emit; simpl. rewrite <- !app_assoc. reflexivity.
Qed.

(** C9. In the text output, the options that pass the filter and are flagged
    deprecated or advanced are left out of the main pass and shown after it
    in two groups headed "ADVANCED OPTIONS" and "DEPRECATED OPTIONS (will be
    removed in a future release)", each group in input order; a group is
    shown only if the caller asked for all options or the filter has the
    group's flag: the formatter produces exactly the output of
    [option_list_text]. *)
Theorem option_list_default_groups out desc_short desc_long filter
    option_list all :
  option_list_default out desc_short desc_long filter option_list all =
  option_list_text out desc_short desc_long filter option_list all.
Proof.
  unfold option_list_default, option_list_text.
  destruct desc_short as [ds|]; [|reflexivity].
  destruct desc_long as [dl|]; [|reflexivity].
  rewrite option_list_scan_spec.
  destruct (option_entries (main_options filter option_list)) as [main|];
    [|reflexivity].
  rewrite !app_nil_r.
  fold (advanced_group filter all option_list).
  fold (deprecated_group filter all option_list).
  rewrite (trailing_group_calls advanced_title).
  destruct (trailing_group advanced_title _) as [adv|]; [|reflexivity].
  rewrite (trailing_group_calls deprecated_title).
  destruct (trailing_group deprecated_title _) as [dep|]; [|reflexivity].
  unfold append_calls, emit, pcmk__output_text_set_fancy,
    pcmk__output_text_get_fancy; simpl.
  rewrite <- !app_assoc. reflexivity.
Qed.


(** *** Failure, nesting and the marked default *)

Lemma option_entry_none opt :
  option_entry opt = None <->
  type opt = None
  \/ (description_short opt = None /\ description_long opt = None).
Proof.
  unfold option_entry, add_option_metadata_default,
    add_possible_values_default.
  destruct (type opt) as [ty|], (description_short opt) as [s|],
    (description_long opt) as [l|]; simpl; split;
    try discriminate; try reflexivity; auto.
  all: intros [H|[H1 H2]]; discriminate.
Qed.

Lemma option_entries_none l :
  option_entries l = None <->
  exists opt,
    In opt l
    /\ (type opt = None
        \/ (description_short opt = None /\ description_long opt = None)).
Proof.
  induction l as [|opt rest IH]; simpl.
  - split; [discriminate|]. intros (opt & [] & _).
  - destruct (option_entry opt) as [e|] eqn:He.
    + destruct (option_entries rest) as [es|].
      * split; [discriminate|]. intros (o & [<-|Hin] & Hbad).
        -- apply option_entry_none in Hbad. congruence.
        -- assert (H : @None (list out_call) = None) by reflexivity.
           destruct IH as [_ IH].
           assert (Hn : Some es = None)
             by (apply IH; exists o; split; assumption).
           discriminate.
      * split; [|reflexivity]. intros _.
        destruct IH as [IH _]. destruct (IH eq_refl) as (o & Hin & Hbad).
        exists o. split; [right; exact Hin|exact Hbad].
    + split; [|reflexivity]. intros _. exists opt.
      split; [left; reflexivity|]. apply option_entry_none. exact He.
Qed.

Lemma trailing_group_none title group :
  trailing_group title group = None <-> option_entries group = None.
Proof.
  unfold trailing_group. destruct group as [|opt rest].
  - simpl. split; discriminate.
  - destruct (option_entries (opt :: rest)); split; congruence.
Qed.

(** The calls of [option_list_default], one part after the other. *)
Lemma option_list_default_calls out desc_short desc_long filter option_list
    all :
  option_list_default out (Some desc_short) (Some desc_long) filter
    option_list all =
  match option_entries (main_options filter option_list),
        trailing_group advanced_title
          (advanced_group filter all option_list),
        trailing_group deprecated_title
          (deprecated_group filter all option_list) with
  | Some main, Some adv, Some dep =>
      Some (mk_output (fancy out)
              (calls out
               ++ [call_info (gettext desc_short); call_spacer;
                   call_info (gettext desc_long); call_begin_list None]
               ++ main ++ adv ++ dep ++ [call_end_list]))
  | _, _, _ => None
  end.
Proof.
  unfold option_list_default.
  rewrite option_list_scan_spec.
  destruct (option_entries (main_options filter option_list)) as [main|];
    [|reflexivity].
  rewrite !app_nil_r.
  fold (advanced_group filter all option_list).
  fold (deprecated_group filter all option_list).
  rewrite (trailing_group_calls advanced_title).
  destruct (trailing_group advanced_title _) as [adv|]; [|reflexivity].
  rewrite (trailing_group_calls deprecated_title).
  destruct (trailing_group deprecated_title _) as [dep|]; [|reflexivity].
  unfold append_calls, emit, pcmk__output_text_set_fancy,
    pcmk__output_text_get_fancy; simpl.
  rewrite <- !app_assoc. reflexivity.
Qed.

(** X1. The text formatter fails exactly when a description of the list
    is missing, or an option that it shows (in the main pass or in a group
    that is not suppressed) lacks its type or both its descriptions: the
    options that are filtered out or belong to a suppressed group are never
    checked. *)
Theorem option_list_default_fails out desc_short desc_long filter option_list
    all :
  option_list_default out desc_short desc_long filter option_list all = None
  <->
  desc_short = None
  \/ desc_long = None
  \/ exists opt,
       (In opt (main_options filter option_list)
        \/ In opt (advanced_group filter all option_list)
        \/ In opt (deprecated_group filter all option_list))
       /\ (type opt = None
           \/ (description_short opt = None
               /\ description_long opt = None)).
Proof.
  destruct desc_short as [ds|].
  2: { split; [intros _; left; reflexivity|reflexivity]. }
  destruct desc_long as [dl|].
  2: { split; [intros _; right; left; reflexivity|reflexivity]. }
  rewrite option_list_default_calls.
  pose proof (option_entries_none (main_options filter option_list)) as Hm.
  pose proof (trailing_group_none advanced_title
                (advanced_group filter all option_list)) as Ha.
  pose proof (option_entries_none (advanced_group filter all option_list))
    as Ha'.
  pose proof (trailing_group_none deprecated_title
                (deprecated_group filter all option_list)) as Hd.
  pose proof (option_entries_none (deprecated_group filter all option_list))
    as Hd'.
  destruct (option_entries (main_options filter option_list)) as [main|].
  - destruct (trailing_group advanced_title _) as [adv|].
    + destruct (trailing_group deprecated_title _) as [dep|].
      * split; [discriminate|].
        intros [H|[H|(opt & [Hin|[Hin|Hin]] & Hbad)]]; try discriminate.
        -- destruct Hm as [_ Hm].
           assert (Some main = None) by (apply Hm; eauto). discriminate.
        -- destruct Ha' as [_ Ha']. destruct Ha as [_ Ha].
           assert (Some adv = None) by (apply Ha, Ha'; eauto). discriminate.
        -- destruct Hd' as [_ Hd']. destruct Hd as [_ Hd].
           assert (Some dep = None) by (apply Hd, Hd'; eauto). discriminate.
      * split; [|reflexivity]. intros _. right. right.
        destruct Hd as [Hd _]. destruct Hd' as [Hd' _].
        destruct (Hd' (Hd eq_refl)) as (opt & Hin & Hbad).
        exists opt. split; [right; right; exact Hin|exact Hbad].
    + split; [|reflexivity]. intros _. right. right.
      destruct Ha as [Ha _]. destruct Ha' as [Ha' _].
      destruct (Ha' (Ha eq_refl)) as (opt & Hin & Hbad).
      exists opt. split; [right; left; exact Hin|exact Hbad].
  - split; [|reflexivity]. intros _. right. right.
    destruct Hm as [Hm _]. destruct (Hm eq_refl) as (opt & Hin & Hbad).
    exists opt. split; [left; exact Hin|exact Hbad].
Qed.

(** The depth of list nesting after a run of calls that starts at [depth];
    [None] if a list is ended that was not begun. *)
Fixpoint list_depth (cs : list out_call) (depth : nat) : option nat :=
  match cs with
  | [] => Some depth
  | call_begin_list _ :: rest => list_depth rest (S depth)
  | call_end_list :: rest =>
      match depth with
      | O => None
      | S below => list_depth rest below
      end
  | _ :: rest => list_depth rest depth
  end.

Lemma list_depth_app cs1 : forall cs2 depth depth',
  list_depth cs1 depth = Some depth' ->
  list_depth (cs1 ++ cs2) depth = list_depth cs2 depth'.
Proof.
  induction cs1 as [|c cs1 IH]; intros cs2 depth depth' H; simpl in *.
  - injection H as <-. reflexivity.
  - destruct c; try (apply IH; exact H).
    destruct depth as [|below]; [discriminate|]. apply IH. exact H.
Qed.

Lemma option_entry_depth opt e depth :
  option_entry opt = Some e -> list_depth e depth = Some depth.
Proof.
  unfold option_entry, add_option_metadata_default,
    add_possible_values_default.
  destruct (type opt) as [ty|], (description_short opt) as [s|],
    (description_long opt) as [l|]; simpl; try discriminate.
  all: intros H; injection H as <-; reflexivity.
Qed.

Lemma option_entries_depth l : forall es depth,
  option_entries l = Some es -> list_depth es depth = Some depth.
Proof.
  induction l as [|opt rest IH]; intros es depth; simpl.
  - intros H. injection H as <-. reflexivity.
  - destruct (option_entry opt) as [e|] eqn:He; [|discriminate].
    destruct (option_entries rest) as [es'|]; [|discriminate].
    intros H. injection H as <-. simpl.
    rewrite (list_depth_app e es' depth depth (option_entry_depth _ _ _ He)).
    apply IH. reflexivity.
Qed.

Lemma trailing_group_depth title group cs depth :
  trailing_group title group = Some cs -> list_depth cs depth = Some depth.
Proof.
  unfold trailing_group. destruct group as [|opt rest].
  - intros H. injection H as <-. reflexivity.
  - destruct (option_entries (opt :: rest)) as [es|] eqn:He; [|discriminate].
    intros H. injection H as <-. simpl.
    rewrite (list_depth_app es [call_end_list] (S depth) (S depth)
               (option_entries_depth _ _ _ He)).
    reflexivity.
Qed.

(** X2. When the text formatter succeeds it only adds calls to the output
    and leaves the fancy setting as it found it; in the calls added every
    list that is begun is ended and no list is ended that was not begun. *)
Theorem option_list_default_nesting out desc_short desc_long filter
    option_list all out' :
  option_list_default out desc_short desc_long filter option_list all
  = Some out' ->
  fancy out' = fancy out
  /\ exists cs, calls out' = calls out ++ cs /\ list_depth cs 0 = Some 0%nat.
Proof.
  destruct desc_short as [ds|]; [|discriminate].
  destruct desc_long as [dl|]; [|discriminate].
  rewrite option_list_default_calls.
  destruct (option_entries (main_options filter option_list)) as [main|]
    eqn:Hm; [|discriminate].
  destruct (trailing_group advanced_title _) as [adv|] eqn:Ha;
    [|discriminate].
  destruct (trailing_group deprecated_title _) as [dep|] eqn:Hd;
    [|discriminate].
  intros H. injection H as <-. split; [reflexivity|].
  eexists. split; [reflexivity|]. simpl.
  rewrite (list_depth_app main _ 1 1 (option_entries_depth _ _ _ Hm)).
  rewrite (list_depth_app adv _ 1 1 (trailing_group_depth _ _ _ _ Ha)).
  rewrite (list_depth_app dep _ 1 1 (trailing_group_depth _ _ _ _ Hd)).
  reflexivity.
Qed.

(** A value between double quotes, and the strings of a list appended to a
    buffer, each after ", " unless the buffer is empty. *)
Definition quoted (value : string) : string := dquote +:+ value +:+ dquote.

Definition append_separated (buf : string) (items : list string) : string :=
  fold_left
    (fun buf item =>
       (if 0 <? Z.of_nat (String.length buf) then buf +:+ ", " else buf)
       +:+ item)
    items buf.

Lemma possible_values_loop_plain default_value tokens : forall buf found,
  match default_value with
  | None => True
  | Some d => found = true \/ ~ In d tokens
  end ->
  possible_values_loop default_value tokens buf found
  = append_separated buf (map quoted tokens).
Proof.
  unfold append_separated.
  induction tokens as [|value rest IH]; intros buf found H; simpl;
    [reflexivity|].
  destruct default_value as [d|]; [|apply IH; exact I].
  destruct H as [->|Hnot].
  - simpl. apply IH. left. reflexivity.
  - destruct (String.eqb value d) eqn:He.
    { apply String.eqb_eq in He. subst value. exfalso. apply Hnot. left.
      reflexivity. }
    rewrite andb_false_r. apply IH. right. intros Hin. apply Hnot. right.
    exact Hin.
Qed.

Lemma possible_values_loop_marked d before after : forall buf,
  ~ In d before ->
  possible_values_loop (Some d) (before ++ d :: after) buf false
  = append_separated buf
      (map quoted before
       ++ (quoted d +:+ gettext " (default)") :: map quoted after).
Proof.
  induction before as [|value rest IH]; intros buf Hnot.
  - cbn [app map possible_values_loop negb andb].
    rewrite String.eqb_refl. cbn [andb].
    rewrite (possible_values_loop_plain (Some d) after _ true)
      by (left; reflexivity).
    unfold append_separated. cbn [fold_left].
    rewrite string_append_assoc. reflexivity.
  - cbn [app map possible_values_loop negb andb].
    destruct (String.eqb value d) eqn:He.
    { apply String.eqb_eq in He. subst value. exfalso. apply Hnot. left.
      reflexivity. }
    rewrite IH by (intros Hin; apply Hnot; right; exact Hin).
    reflexivity.
Qed.

Lemma string_concat_append sep (a b : string) items :
  String.concat sep ((a +:+ b) :: items)
  = a +:+ String.concat sep (b :: items).
Proof.
  destruct items as [|item items]; [reflexivity|].
  cbn [String.concat]. apply string_append_assoc.
Qed.

Lemma append_separated_concat items : forall buf,
  (0 < String.length buf)%nat ->
  append_separated buf items = String.concat ", " (buf :: items).
Proof.
  unfold append_separated.
  induction items as [|item rest IH]; intros buf Hbuf; [reflexivity|].
  cbn [fold_left].
  replace (0 <? Z.of_nat (String.length buf)) with true
    by (symmetry; apply Z.ltb_lt; lia).
  rewrite IH.
  - rewrite string_concat_append.
    change (String.concat ", " (buf :: item :: rest))
      with (buf +:+ ", " +:+ String.concat ", " (item :: rest)).
    apply string_append_assoc.
  - rewrite !string_length_append. simpl. lia.
Qed.

Lemma append_separated_quoted item items :
  (0 < String.length item)%nat ->
  append_separated "" (item :: items) = String.concat ", " (item :: items).
Proof.
  intros Hitem. unfold append_separated. cbn [fold_left].
  change (0 <? Z.of_nat (String.length "")) with false. cbv iota.
  change ("" +:+ item) with item.
  apply (append_separated_concat items item Hitem).
Qed.

Lemma quoted_length value suffix :
  (0 < String.length (quoted value +:+ suffix))%nat.
Proof. unfold quoted, dquote. simpl. lia. Qed.

(** X3. For an option of type select with values, the item of possible
    values lists the values in order, each between double quotes and
    separated by ", ".  The note " (default)" follows the first value that
    equals the default, and no other; it is absent when the option has no
    default or the default is not among the values. *)
Theorem add_possible_values_default_select out opt vals :
  type opt = Some "select"%string ->
  values opt = Some vals ->
  let tokens := strtok [","; " "]%char vals "" in
  let shown text :=
    exists id,
      add_possible_values_default out opt
      = Some (emit out (call_list_item (Some id) text)) in
  (forall d before after,
     default_value opt = Some d ->
     tokens = before ++ d :: after ->
     ~ In d before ->
     shown (String.concat ", "
              (map quoted before
               ++ (quoted d +:+ gettext " (default)") :: map quoted after)))
  /\ (match default_value opt with
      | Some d => ~ In d tokens
      | None => True
      end ->
      shown (String.concat ", " (map quoted tokens))).
Proof.
  intros Hty Hvals tokens shown. subst shown.
  unfold add_possible_values_default. rewrite Hty, Hvals.
  change (String.eqb "select" "select") with true. cbv iota.
  fold tokens. split.
  - intros d before after Hd Hsplit Hnot. rewrite Hd, Hsplit.
    eexists. f_equal. f_equal. f_equal.
    rewrite possible_values_loop_marked by exact Hnot.
    destruct before as [|value rest].
    + cbn [map app]. apply append_separated_quoted, quoted_length.
    + cbn [map app]. apply append_separated_quoted.
      rewrite <- (string_append_nil_r (quoted value)).
      apply quoted_length.
  - intros Hd. eexists. f_equal. f_equal. f_equal.
    rewrite possible_values_loop_plain.
    + destruct tokens as [|value rest]; [reflexivity|].
      cbn [map]. apply append_separated_quoted.
      rewrite <- (string_append_nil_r (quoted value)).
      apply quoted_length.
    + destruct (default_value opt) as [d|]; [right; exact Hd|exact I].
Qed.

End TextOutput.

(** ** Option-list XML output *)

(** The names of the elements and attributes that the XML formatter uses;
    their spellings are defined outside these sources. *)
Inductive xml_name :=
| PCMK_XE_RESOURCE_AGENT
| PCMK_XE_VERSION
| PCMK_XE_LONGDESC
| PCMK_XE_SHORTDESC
| PCMK_XE_PARAMETERS
| PCMK_XE_PARAMETER
| PCMK_XE_DEPRECATED
| PCMK_XE_CONTENT
| PCMK_XE_OPTION
| PCMK_XA_NAME
| PCMK_XA_VERSION
| PCMK_XA_LANG
| PCMK_XA_ADVANCED
| PCMK_XA_GENERATED
| PCMK_XA_TYPE
| PCMK_XA_DEFAULT
| PCMK_XA_VALUE.

(** The calls the XML formatter makes, in order: a new parent element or a
    new node with its name/value pairs (a value may be [NULL]), a text node,
    an attribute added to the node just created, and the return to the
    enclosing parent. *)
Inductive xml_call :=
| xml_create_parent (element : xml_name)
    (pairs : list (xml_name * option string))
| xml_create_node (element : xml_name)
    (pairs : list (xml_name * option string))
| xml_create_text_node (element : xml_name) (text : string)
| xml_add (attribute : xml_name) (value : option string)
| xml_pop_parent.

(** The XML output object: its legacy toggle and the calls received. *)
Record pcmk__xml_output_t := mk_xml_output {
  legacy_xml : bool;
  xml_calls : list xml_call
}.

Definition xml_emit (out : pcmk__xml_output_t) (c : xml_call)
  : pcmk__xml_output_t :=
  mk_xml_output (legacy_xml out) (xml_calls out ++ [c]).

Definition pcmk__output_get_legacy_xml (out : pcmk__xml_output_t) : bool :=
  legacy_xml out.

Section XmlOutput.

(** Declared outside these sources: the flag bits, the message translation
    and whether it is compiled in, the language of the locale (the part of
    its name before the underscore, if any), the strings behind the value
    macros, and the function that adds a word to a word list. *)
Variable pcmk__opt_advanced : Z.
Variable pcmk__opt_deprecated : Z.
Variable pcmk__opt_generated : Z.
Variable gettext : string -> string.
Variable ENABLE_NLS : bool.
Variable locale : option string.
Variable PCMK__VALUE_EN : string.
Variable PACEMAKER_VERSION : string.
Variable PCMK_OCF_VERSION : string.
Variable PCMK_VALUE_DURATION : string.
Variable PCMK__VALUE_TIME : string.
Variable PCMK_VALUE_NONNEGATIVE_INTEGER : string.
Variable PCMK_VALUE_INTEGER : string.
Variable pcmk__add_separated_word : option string -> string -> option string.

Definition add_desc_xml (out : pcmk__xml_output_t) (for_long : bool)
    (desc : string) : pcmk__xml_output_t :=
  let tag := if for_long then PCMK_XE_LONGDESC else PCMK_XE_SHORTDESC in
  let out := xml_emit out (xml_create_text_node tag desc) in
  let out := xml_emit out (xml_add PCMK_XA_LANG (Some PCMK__VALUE_EN)) in
  if ENABLE_NLS then
    if String.eqb desc (gettext desc) then out
    else
      let out := xml_emit out (xml_create_text_node tag (gettext desc)) in
      xml_emit out (xml_add PCMK_XA_LANG locale)
  else out.

(** [add_possible_values_xml]; [None] stands for [strcmp] on a [NULL]
    type. *)
Definition add_possible_values_xml (out : pcmk__xml_output_t)
    (opt : pcmk__cluster_option_t) : option pcmk__xml_output_t :=
  match values opt with
  | Some vals =>
      match type opt with
      | None => None
      | Some ty =>
          if String.eqb ty "select" then
            Some (fold_left
                    (fun out ptr =>
                       xml_emit out
                         (xml_create_node PCMK_XE_OPTION
                            [(PCMK_XA_VALUE, Some ptr)]))
                    (strtok [","; " "]%char vals "") out)
          else Some out
      end
  | None => Some out
  end.

Definition map_legacy_option_type (type : option string) : option string :=
  match type with
  | Some t =>
      if String.eqb t PCMK_VALUE_DURATION then Some PCMK__VALUE_TIME
      else if String.eqb t PCMK_VALUE_NONNEGATIVE_INTEGER
           then Some PCMK_VALUE_INTEGER
           else type
  | None => type
  end.

(** The short description of a deprecated or advanced option in legacy
    mode: the markers and the description, as a word list.  [None] stands
    for a word list that is still [NULL] when its string is read. *)
Definition legacy_desc_short (opt : pcmk__cluster_option_t)
    (deprecated advanced : bool) : option string :=
  (* desc_long != option->description_long: it was given the short
     description, or the text with the allowed values. *)
  let desc_long_moved :=
    match description_long opt, values opt with
    | Some _, None => false
    | _, _ => true
    end in
  let desc_short :=
    if desc_long_moved then ""%string
    else match description_short opt with
         | Some s => s
         | None => ""%string
         end in
  let desc_short_legacy := None in
  let desc_short_legacy :=
    if deprecated
    then pcmk__add_separated_word desc_short_legacy "*** Deprecated ***"
    else desc_short_legacy in
  let desc_short_legacy :=
    if advanced
    then pcmk__add_separated_word desc_short_legacy
           "*** Advanced Use Only ***"
    else desc_short_legacy in
  pcmk__add_separated_word desc_short_legacy desc_short.

(** [add_option_metadata_xml]; [None] stands for a failed [CRM_ASSERT]. *)
Definition add_option_metadata_xml (out : pcmk__xml_output_t)
    (opt : pcmk__cluster_option_t) : option pcmk__xml_output_t :=
  let advanced := pcmk_is_set (flags opt) pcmk__opt_advanced in
  let deprecated := pcmk_is_set (flags opt) pcmk__opt_deprecated in
  let generated := pcmk_is_set (flags opt) pcmk__opt_generated in
  (* OCF requires "1"/"0" and does not allow "true"/"false" *)
  let advanced_s := Some (if advanced then "1" else "0")%string in
  let generated_s := Some (if generated then "1" else "0")%string in
  let legacy := pcmk__output_get_legacy_xml out in
  match type opt with
  | None => None (* The standard requires a parameter type *)
  | Some _ =>
      match
        match description_long opt, description_short opt with
        | None, None => None
        | None, Some s => Some (s, s)
        | Some l, None => Some (l, l)
        | Some l, Some s => Some (l, s)
        end
      with
      | None => None (* The standard requires the descriptions *)
      | Some (desc_long, desc_short) =>
          let type := if legacy then map_legacy_option_type (type opt)
                      else type opt in
          let desc_long :=
            match legacy, values opt with
            | true, Some vals =>
                (desc_long +:+ "  Allowed values: " +:+ vals)%string
            | _, _ => desc_long
            end in
          match
            if legacy && (deprecated || advanced)
            then legacy_desc_short opt deprecated advanced
            else Some desc_short
          with
          | None => None
          | Some desc_short =>
              let advanced_s := if legacy then None else advanced_s in
              let generated_s := if legacy then None else generated_s in
              let out :=
                xml_emit out
                  (xml_create_parent PCMK_XE_PARAMETER
                     [(PCMK_XA_NAME, Some (name opt));
                      (PCMK_XA_ADVANCED, advanced_s);
                      (PCMK_XA_GENERATED, generated_s)]) in
              let out :=
                if deprecated && negb legacy
                then xml_emit out (xml_create_node PCMK_XE_DEPRECATED [])
                else out in
              let out := add_desc_xml out true desc_long in
              let out := add_desc_xml out false desc_short in
              let out :=
                xml_emit out
                  (xml_create_parent PCMK_XE_CONTENT
                     [(PCMK_XA_TYPE, type);
                      (PCMK_XA_DEFAULT, default_value opt)]) in
              match add_possible_values_xml out opt with
              | None => None
              | Some out =>
                  let out := xml_emit out xml_pop_parent in
                  Some (xml_emit out xml_pop_parent)
              end
          end
      end
  end.

(** The loop of [option_list_xml] over the options. *)
Fixpoint option_list_xml_loop (filter : Z)
    (option_list : list pcmk__cluster_option_t) (out : pcmk__xml_output_t)
  : option pcmk__xml_output_t :=
  match option_list with
  | [] => Some out
  | opt :: rest =>
      if pcmk_all_flags_set (flags opt) filter then
        match add_option_metadata_xml out opt with
        | None => None
        | Some out => option_list_xml_loop filter rest out
        end
      else option_list_xml_loop filter rest out
  end.

(** [option_list_xml]; the argument [all] is ignored. *)
Definition option_list_xml (out : pcmk__xml_output_t)
    (name desc_short desc_long : option string) (filter : Z)
    (option_list : list pcmk__cluster_option_t)
  : option pcmk__xml_output_t :=
  match name, desc_short, desc_long with
  | Some name, Some desc_short, Some desc_long =>
      let out :=
        xml_emit out
          (xml_create_parent PCMK_XE_RESOURCE_AGENT
             [(PCMK_XA_NAME, Some name);
              (PCMK_XA_VERSION, Some PACEMAKER_VERSION)]) in
      let out :=
        xml_emit out (xml_create_text_node PCMK_XE_VERSION PCMK_OCF_VERSION)
      in
      let out := add_desc_xml out true desc_long in
      let out := add_desc_xml out false desc_short in
      let out := xml_emit out (xml_create_parent PCMK_XE_PARAMETERS []) in
      match option_list_xml_loop filter option_list out with
      | None => None
      | Some out =>
          let out := xml_emit out xml_pop_parent in
          Some (xml_emit out xml_pop_parent)
      end
  | _, _, _ => None
  end.

(** *** Properties of the XML formatter *)

Definition xml_append (out : pcmk__xml_output_t) (cs : list xml_call)
  : pcmk__xml_output_t :=
  mk_xml_output (legacy_xml out) (xml_calls out ++ cs).

(** The depth of parent nesting after a run of calls that starts at
    [depth]; [None] if a parent is left that was not created. *)
Fixpoint xml_depth (cs : list xml_call) (depth : nat) : option nat :=
  match cs with
  | [] => Some depth
  | xml_create_parent _ _ :: rest => xml_depth rest (S depth)
  | xml_pop_parent :: rest =>
      match depth with
      | O => None
      | S below => xml_depth rest below
      end
  | _ :: rest => xml_depth rest depth
  end.

(** The name given to a parameter element. *)
Definition parameter_name (c : xml_call) : option string :=
  match c with
  | xml_create_parent PCMK_XE_PARAMETER ((PCMK_XA_NAME, Some n) :: _) =>
      Some n
  | _ => None
  end.

Definition parameter_names (cs : list xml_call) : list string :=
  omap parameter_name cs.

(** Calls that create and leave no parent. *)
Definition flat (cs : list xml_call) : Prop :=
  (forall depth, xml_depth cs depth = Some depth)
  /\ parameter_names cs = [].

Lemma xml_append_nil out : xml_append out [] = out.
Proof using Type.
  unfold xml_append. rewrite app_nil_r. destruct out; reflexivity.
Qed.

Lemma xml_append_append out cs1 cs2 :
  xml_append (xml_append out cs1) cs2 = xml_append out (cs1 ++ cs2).
Proof using Type.
  unfold xml_append. simpl. rewrite app_assoc. reflexivity.
Qed.

Lemma xml_emit_append out c : xml_emit out c = xml_append out [c].
Proof using Type. reflexivity. Qed.

Lemma xml_depth_app cs1 : forall cs2 depth depth',
  xml_depth cs1 depth = Some depth' ->
  xml_depth (cs1 ++ cs2) depth = xml_depth cs2 depth'.
Proof using Type.
  induction cs1 as [|c cs1 IH]; intros cs2 depth depth' H; simpl in *.
  - injection H as <-. reflexivity.
  - destruct c; try (apply IH; exact H).
    destruct depth as [|below]; [discriminate|]. apply IH. exact H.
Qed.

Lemma flat_app cs1 cs2 : flat cs1 -> flat cs2 -> flat (cs1 ++ cs2).
Proof using Type.
  intros [Hd1 Hn1] [Hd2 Hn2]. split.
  - intros depth. rewrite (xml_depth_app cs1 cs2 depth depth (Hd1 depth)).
    apply Hd2.
  - unfold parameter_names in *. rewrite omap_app, Hn1, Hn2. reflexivity.
Qed.

Lemma add_desc_xml_calls out for_long desc :
  exists cs, add_desc_xml out for_long desc = xml_append out cs /\ flat cs.
Proof using Type.
  unfold add_desc_xml.
  destruct ENABLE_NLS; [destruct (String.eqb desc (gettext desc))|].
  all: rewrite !xml_emit_append, ?xml_append_append; eexists;
    (split; [reflexivity|]).
  all: split; [intros depth; destruct for_long; reflexivity|].
  all: destruct for_long; reflexivity.
Qed.

Lemma add_possible_values_xml_calls out opt out' :
  add_possible_values_xml out opt = Some out' ->
  exists cs, out' = xml_append out cs /\ flat cs.
Proof using Type.
  unfold add_possible_values_xml.
  assert (Hnil : exists cs, out = xml_append out cs /\ flat cs).
  { exists []. split; [symmetry; apply xml_append_nil|].
    split; [intros depth|]; reflexivity. }
  destruct (values opt) as [vals|].
  2: { intros H. injection H as <-. exact Hnil. }
  destruct (type opt) as [ty|]; [|discriminate].
  destruct (String.eqb ty "select").
  2: { intros H. injection H as <-. exact Hnil. }
  intros H. injection H as <-. clear Hnil.
  generalize (strtok [","%char; " "%char] vals ""). intros tokens.
  revert out. induction tokens as [|ptr rest IH]; intros out.
  - exists []. split; [symmetry; apply xml_append_nil|].
    split; [intros depth|]; reflexivity.
  - cbn [fold_left]. destruct (IH (xml_emit out
                                     (xml_create_node PCMK_XE_OPTION
                                        [(PCMK_XA_VALUE, Some ptr)])))
      as (cs & -> & Hflat).
    rewrite xml_emit_append, xml_append_append. eexists.
    split; [reflexivity|].
    apply (flat_app [_] cs); [|exact Hflat].
    split; [intros depth|]; reflexivity.
Qed.

(** The calls that show one option create the parameter element under the
    option's name, and leave it. *)
Lemma add_option_metadata_xml_calls out opt out' :
  add_option_metadata_xml out opt = Some out' ->
  exists cs,
    out' = xml_append out cs
    /\ (forall depth, xml_depth cs depth = Some depth)
    /\ parameter_names cs = [name opt].
Proof using Type.
  unfold add_option_metadata_xml.
  destruct (type opt) as [ty|]; [|discriminate].
  destruct (match description_long opt, description_short opt with
            | None, None => None
            | None, Some s => Some (s, s)
            | Some l, None => Some (l, l)
            | Some l, Some s => Some (l, s)
            end) as [[desc_long desc_short]|]; [|discriminate].
  destruct (if pcmk__output_get_legacy_xml out
               && (pcmk_is_set (flags opt) pcmk__opt_deprecated
                   || pcmk_is_set (flags opt) pcmk__opt_advanced)
            then _ else _) as [desc_short'|]; [|discriminate].
  set (parent := xml_create_parent PCMK_XE_PARAMETER _).
  set (content := xml_create_parent PCMK_XE_CONTENT _).
  set (desc_long' := match pcmk__output_get_legacy_xml out, values opt with
                     | true, Some vals => _
                     | _, _ => desc_long
                     end).
  assert (Hdep : exists cs,
            (if pcmk_is_set (flags opt) pcmk__opt_deprecated
                && negb (pcmk__output_get_legacy_xml out)
             then xml_emit (xml_emit out parent)
                    (xml_create_node PCMK_XE_DEPRECATED [])
             else xml_emit out parent)
            = xml_append (xml_emit out parent) cs /\ flat cs).
  { destruct (_ && _).
    - exists [xml_create_node PCMK_XE_DEPRECATED []].
      split; [reflexivity|]. split; [intros depth|]; reflexivity.
    - exists []. split; [symmetry; apply xml_append_nil|].
      split; [intros depth|]; reflexivity. }
  destruct Hdep as (cs0 & -> & Hflat0).
  destruct (add_desc_xml_calls (xml_append (xml_emit out parent) cs0) true
              desc_long') as (cs1 & -> & Hflat1).
  destruct (add_desc_xml_calls
              (xml_append (xml_append (xml_emit out parent) cs0) cs1) false
              desc_short') as (cs2 & -> & Hflat2).
  destruct (add_possible_values_xml _ opt) as [out1|] eqn:Hvalues;
    [|discriminate].
  destruct (add_possible_values_xml_calls _ _ _ Hvalues)
    as (cs3 & -> & Hflat3).
  intros H. injection H as <-.
  pose proof (flat_app _ _ Hflat0 (flat_app _ _ Hflat1 Hflat2))
    as [Hd012 Hn012].
  destruct Hflat3 as [Hd3 Hn3].
  exists (parent :: (cs0 ++ cs1 ++ cs2)
          ++ content :: cs3 ++ [xml_pop_parent; xml_pop_parent]).
  split.
  { rewrite !xml_emit_append, !xml_append_append. unfold xml_append.
    f_equal. f_equal. cbn [app]. rewrite <- ?app_assoc. reflexivity. }
  split.
  - intros depth. unfold parent. cbn [xml_depth].
    rewrite (xml_depth_app (cs0 ++ cs1 ++ cs2) _ (S depth) (S depth)
               (Hd012 _)).
    unfold content. cbn [xml_depth].
    rewrite (xml_depth_app cs3 _ (S (S depth)) (S (S depth)) (Hd3 _)).
    reflexivity.
  - unfold parameter_names in *. unfold parent.
    cbn [omap list_omap parameter_name].
    rewrite omap_app, Hn012. unfold content.
    cbn [app omap list_omap parameter_name].
    rewrite omap_app, Hn3. reflexivity.
Qed.

Lemma option_list_xml_loop_calls filter option_list : forall out out',
  option_list_xml_loop filter option_list out = Some out' ->
  exists cs,
    out' = xml_append out cs
    /\ (forall depth, xml_depth cs depth = Some depth)
    /\ parameter_names cs
       = map name (List.filter (passes_filter filter) option_list).
Proof using Type.
  induction option_list as [|opt rest IH]; intros out out';
    cbn [option_list_xml_loop List.filter map].
  - intros H. injection H as <-. exists [].
    split; [symmetry; apply xml_append_nil|].
    split; [intros depth|]; reflexivity.
  - unfold passes_filter at 1.
    destruct (pcmk_all_flags_set (flags opt) filter); [|apply IH].
    destruct (add_option_metadata_xml out opt) as [out1|] eqn:Hopt;
      [|discriminate].
    destruct (add_option_metadata_xml_calls _ _ _ Hopt)
      as (cs1 & -> & Hd1 & Hn1).
    intros H. destruct (IH _ _ H) as (cs2 & -> & Hd2 & Hn2).
    rewrite xml_append_append. eexists. split; [reflexivity|]. split.
    + intros depth.
      rewrite (xml_depth_app cs1 cs2 depth depth (Hd1 depth)). apply Hd2.
    + unfold parameter_names in *. rewrite omap_app, Hn1, Hn2. reflexivity.
Qed.

(** The calls [option_list_xml] adds, around those of its loop. *)
Lemma option_list_xml_calls out list_name desc_short desc_long filter
    option_list out' :
  option_list_xml out list_name desc_short desc_long filter option_list
  = Some out' ->
  exists head cs,
    out' = xml_append out
             (xml_create_parent PCMK_XE_RESOURCE_AGENT
                [(PCMK_XA_NAME, list_name);
                 (PCMK_XA_VERSION, Some PACEMAKER_VERSION)]
              :: head
              ++ xml_create_parent PCMK_XE_PARAMETERS []
              :: cs ++ [xml_pop_parent; xml_pop_parent])
    /\ flat head
    /\ (forall depth, xml_depth cs depth = Some depth)
    /\ parameter_names cs
       = map name (List.filter (passes_filter filter) option_list).
Proof using Type.
  unfold option_list_xml.
  destruct list_name as [n|]; [|discriminate].
  destruct desc_short as [ds|]; [|discriminate].
  destruct desc_long as [dl|]; [|discriminate].
  set (root := xml_create_parent PCMK_XE_RESOURCE_AGENT _).
  set (version := xml_create_text_node PCMK_XE_VERSION _).
  destruct (add_desc_xml_calls (xml_emit (xml_emit out root) version) true
              dl) as (cs1 & -> & Hflat1).
  destruct (add_desc_xml_calls
              (xml_append (xml_emit (xml_emit out root) version) cs1) false
              ds) as (cs2 & -> & Hflat2).
  destruct (option_list_xml_loop filter option_list _) as [out1|] eqn:Hloop;
    [|discriminate].
  destruct (option_list_xml_loop_calls _ _ _ _ Hloop)
    as (cs & -> & Hd & Hn).
  intros H. injection H as <-.
  exists (version :: cs1 ++ cs2), cs.
  split.
  - rewrite !xml_emit_append, !xml_append_append. f_equal.
    cbn [app]. rewrite <- !app_assoc. reflexivity.
  - split; [|split; assumption].
    apply (flat_app [version] (cs1 ++ cs2)).
    + split; [intros depth|]; reflexivity.
    + apply flat_app; assumption.
Qed.

(** X4. When the XML formatter succeeds it only adds calls to the output
    and leaves the legacy setting alone; in the calls added every parent
    that is created is left again and none is left that was not created. *)
Theorem option_list_xml_nesting out list_name desc_short desc_long filter
    option_list out' :
  option_list_xml out list_name desc_short desc_long filter option_list
  = Some out' ->
  legacy_xml out' = legacy_xml out
  /\ exists cs,
       xml_calls out' = xml_calls out ++ cs /\ xml_depth cs 0 = Some 0%nat.
Proof using Type.
  intros H.
  destruct (option_list_xml_calls _ _ _ _ _ _ _ H)
    as (head & cs & -> & [Hhead _] & Hd & _).
  split; [reflexivity|]. eexists. split; [reflexivity|].
  cbn [xml_depth].
  rewrite (xml_depth_app head _ 1 1 (Hhead _)). cbn [xml_depth].
  rewrite (xml_depth_app cs _ 2 2 (Hd _)). reflexivity.
Qed.

Lemma filter_groups (l : list pcmk__cluster_option_t)
    (p d a : pcmk__cluster_option_t -> bool) :
  List.filter p l
  ≡ₚ List.filter (fun o => p o && negb (d o) && negb (a o)) l
     ++ List.filter (fun o => p o && negb (d o) && a o) l
     ++ List.filter (fun o => p o && d o) l.
Proof using Type.
  induction l as [|o l IH]; [reflexivity|]. cbn [List.filter].
  destruct (p o), (d o), (a o); cbn [andb negb app]; try exact IH.
  - rewrite IH, !app_assoc. apply Permutation_middle.
  - rewrite IH, !app_assoc. apply Permutation_middle.
  - rewrite IH. apply Permutation_middle.
  - rewrite IH. reflexivity.
Qed.

(** X5. The XML formatter creates one parameter element for every option
    that has all the flags of the filter, in the order of the option list,
    whether or not the option is advanced or deprecated: these are the
    options that the text formatter shows when asked for all, which it
    shows in another order, the advanced and the deprecated ones last. *)
Theorem option_list_xml_parameters out list_name desc_short desc_long filter
    option_list out' :
  option_list_xml out list_name desc_short desc_long filter option_list
  = Some out' ->
  parameter_names (xml_calls out')
  = parameter_names (xml_calls out)
    ++ map name (List.filter (passes_filter filter) option_list)
  /\ List.filter (passes_filter filter) option_list
     ≡ₚ main_options pcmk__opt_advanced pcmk__opt_deprecated filter
          option_list
        ++ advanced_group pcmk__opt_advanced pcmk__opt_deprecated filter true
             option_list
        ++ deprecated_group pcmk__opt_deprecated filter true option_list.
Proof using Type.
  intros H.
  destruct (option_list_xml_calls _ _ _ _ _ _ _ H)
    as (head & cs & -> & [_ Hhead] & _ & Hn).
  split.
  - unfold parameter_names in *. cbn [xml_calls xml_append].
    rewrite omap_app. f_equal. cbn [omap list_omap parameter_name].
    rewrite omap_app, Hhead. cbn [app omap list_omap parameter_name].
    rewrite omap_app, Hn. cbn [omap list_omap parameter_name].
    apply app_nil_r.
  - unfold main_options, advanced_group, deprecated_group.
    cbn [orb]. apply filter_groups.
Qed.

(** X6. When the names of the four types involved are distinct, the type
    that legacy mode shows is never the duration or the nonnegative-integer
    type, and mapping it again changes nothing. *)
Theorem map_legacy_option_type_legacy type :
  PCMK__VALUE_TIME <> PCMK_VALUE_DURATION ->
  PCMK__VALUE_TIME <> PCMK_VALUE_NONNEGATIVE_INTEGER ->
  PCMK_VALUE_INTEGER <> PCMK_VALUE_DURATION ->
  PCMK_VALUE_INTEGER <> PCMK_VALUE_NONNEGATIVE_INTEGER ->
  map_legacy_option_type type <> Some PCMK_VALUE_DURATION
  /\ map_legacy_option_type type <> Some PCMK_VALUE_NONNEGATIVE_INTEGER
  /\ map_legacy_option_type (map_legacy_option_type type)
     = map_legacy_option_type type.
Proof using Type.
  intros Htd Htn Hid Hin. unfold map_legacy_option_type.
  destruct type as [t|].
  2: { repeat split; discriminate || reflexivity. }
  destruct (String.eqb t PCMK_VALUE_DURATION) eqn:Hd.
  { apply String.eqb_neq in Htd, Htn. rewrite Htd, Htn.
    apply String.eqb_neq in Htd, Htn.
    repeat split; congruence. }
  destruct (String.eqb t PCMK_VALUE_NONNEGATIVE_INTEGER) eqn:Hn.
  { apply String.eqb_neq in Hid, Hin. rewrite Hid, Hin.
    apply String.eqb_neq in Hid, Hin.
    repeat split; congruence. }
  rewrite Hd, Hn. apply String.eqb_neq in Hd, Hn.
  repeat split; congruence.
Qed.

(** The calls of a description, and the nodes of possible values. *)
Definition desc_call (c : xml_call) : Prop :=
  match c with
  | xml_create_text_node _ _ | xml_add _ _ => True
  | _ => False
  end.

Definition option_node (c : xml_call) : Prop :=
  match c with
  | xml_create_node PCMK_XE_OPTION _ => True
  | _ => False
  end.

Lemma add_desc_xml_desc_calls out for_long desc :
  exists cs,
    add_desc_xml out for_long desc = xml_append out cs
    /\ List.Forall desc_call cs.
Proof using Type.
  unfold add_desc_xml.
  destruct ENABLE_NLS; [destruct (String.eqb desc (gettext desc))|].
  all: rewrite !xml_emit_append, ?xml_append_append; eexists;
    (split; [reflexivity|]).
  all: repeat (apply List.Forall_cons; [exact I|]); apply List.Forall_nil.
Qed.

Lemma add_possible_values_xml_nodes out opt out' :
  add_possible_values_xml out opt = Some out' ->
  exists cs, out' = xml_append out cs /\ List.Forall option_node cs.
Proof using Type.
  unfold add_possible_values_xml.
  assert (Hnil : exists cs,
            out = xml_append out cs /\ List.Forall option_node cs).
  { exists []. split; [symmetry; apply xml_append_nil|apply List.Forall_nil]. }
  destruct (values opt) as [vals|].
  2: { intros H. injection H as <-. exact Hnil. }
  destruct (type opt) as [ty|]; [|discriminate].
  destruct (String.eqb ty "select").
  2: { intros H. injection H as <-. exact Hnil. }
  intros H. injection H as <-. clear Hnil.
  generalize (strtok [","%char; " "%char] vals ""). intros tokens.
  revert out. induction tokens as [|ptr rest IH]; intros out.
  - exists []. split; [symmetry; apply xml_append_nil|apply List.Forall_nil].
  - cbn [fold_left]. destruct (IH (xml_emit out
                                     (xml_create_node PCMK_XE_OPTION
                                        [(PCMK_XA_VALUE, Some ptr)])))
      as (cs & -> & Hnodes).
    rewrite xml_emit_append, xml_append_append. eexists.
    split; [reflexivity|].
    apply List.Forall_cons; [exact I|exact Hnodes].
Qed.

(** X7. The calls that show one option start with the parameter element,
    which carries the option's name and, unless the output is in legacy
    mode, "1" or "0" for the advanced and generated flags.  They create a
    deprecated node exactly when the option is deprecated and the output is
    not in legacy mode, and the only other parent they create is the content
    element, with the option's type (the legacy one in legacy mode) and its
    default. *)
Theorem add_option_metadata_xml_elements out opt out' :
  add_option_metadata_xml out opt = Some out' ->
  let legacy := legacy_xml out in
  let flag bit :=
    if legacy then None
    else Some (if pcmk_is_set (flags opt) bit then "1" else "0")%string in
  let parameter :=
    xml_create_parent PCMK_XE_PARAMETER
      [(PCMK_XA_NAME, Some (name opt));
       (PCMK_XA_ADVANCED, flag pcmk__opt_advanced);
       (PCMK_XA_GENERATED, flag pcmk__opt_generated)] in
  let content :=
    xml_create_parent PCMK_XE_CONTENT
      [(PCMK_XA_TYPE,
        if legacy then map_legacy_option_type (type opt) else type opt);
       (PCMK_XA_DEFAULT, default_value opt)] in
  exists cs,
    xml_calls out' = xml_calls out ++ parameter :: cs
    /\ (In (xml_create_node PCMK_XE_DEPRECATED []) cs <->
        pcmk_is_set (flags opt) pcmk__opt_deprecated = true
        /\ legacy = false)
    /\ (forall element pairs,
          In (xml_create_parent element pairs) cs ->
          xml_create_parent element pairs = content).
Proof using Type.
  unfold add_option_metadata_xml, pcmk__output_get_legacy_xml. cbv zeta.
  destruct (type opt) as [ty|] eqn:Hty; [|discriminate].
  destruct (match description_long opt, description_short opt with
            | None, None => None
            | None, Some s => Some (s, s)
            | Some l, None => Some (l, l)
            | Some l, Some s => Some (l, s)
            end) as [[desc_long desc_short]|]; [|discriminate].
  destruct (if legacy_xml out
               && (pcmk_is_set (flags opt) pcmk__opt_deprecated
                   || pcmk_is_set (flags opt) pcmk__opt_advanced)
            then _ else _) as [desc_short'|]; [|discriminate].
  intros H.
  set (legacy := legacy_xml out) in *.
  set (parameter := xml_create_parent PCMK_XE_PARAMETER _) in *.
  set (content := xml_create_parent PCMK_XE_CONTENT _) in *.
  set (desc_long' := if legacy then _ else desc_long) in H.
  set (deprecated_node :=
         if pcmk_is_set (flags opt) pcmk__opt_deprecated && negb legacy
         then [xml_create_node PCMK_XE_DEPRECATED []] else []).
  assert (Hdep :
            (if pcmk_is_set (flags opt) pcmk__opt_deprecated && negb legacy
             then xml_emit (xml_emit out parameter)
                    (xml_create_node PCMK_XE_DEPRECATED [])
             else xml_emit out parameter)
            = xml_append (xml_emit out parameter) deprecated_node).
  { unfold deprecated_node. destruct (_ && _); [reflexivity|].
    symmetry. apply xml_append_nil. }
  rewrite Hdep in H. clear Hdep.
  destruct (add_desc_xml_desc_calls
              (xml_append (xml_emit out parameter) deprecated_node) true
              desc_long') as (cs1 & Heq1 & Hdesc1).
  rewrite Heq1 in H. clear Heq1.
  destruct (add_desc_xml_desc_calls
              (xml_append
                 (xml_append (xml_emit out parameter) deprecated_node) cs1)
              false desc_short') as (cs2 & Heq2 & Hdesc2).
  rewrite Heq2 in H. clear Heq2.
  destruct (add_possible_values_xml _ opt) as [out1|] eqn:Hvalues;
    [|discriminate].
  destruct (add_possible_values_xml_nodes _ _ _ Hvalues)
    as (cs3 & -> & Hnodes).
  injection H as <-.
  exists (deprecated_node ++ cs1 ++ cs2
          ++ content :: cs3 ++ [xml_pop_parent; xml_pop_parent]).
  split.
  { rewrite !xml_emit_append, !xml_append_append. cbn [xml_calls xml_append].
    f_equal; cbn [app]; rewrite <- ?app_assoc; reflexivity. }
  assert (Hin1 : forall c, In c cs1 -> desc_call c)
    by (apply List.Forall_forall; exact Hdesc1).
  assert (Hin2 : forall c, In c cs2 -> desc_call c)
    by (apply List.Forall_forall; exact Hdesc2).
  assert (Hin3 : forall c, In c cs3 -> option_node c)
    by (apply List.Forall_forall; exact Hnodes).
  split.
  - split.
    + intros Hin. apply in_app_or in Hin. destruct Hin as [Hin|Hin].
      * unfold deprecated_node in Hin.
        destruct (pcmk_is_set (flags opt) pcmk__opt_deprecated);
          [|destruct Hin].
        destruct legacy; [destruct Hin|].
        split; reflexivity.
      * exfalso. apply in_app_or in Hin. destruct Hin as [Hin|Hin];
          [exact (Hin1 _ Hin)|].
        apply in_app_or in Hin. destruct Hin as [Hin|Hin];
          [exact (Hin2 _ Hin)|].
        destruct Hin as [Hin|Hin]; [discriminate|].
        apply in_app_or in Hin. destruct Hin as [Hin|Hin];
          [exact (Hin3 _ Hin)|].
        destruct Hin as [Hin|[Hin|[]]]; discriminate.
    + intros [Hd Hl]. apply in_or_app. left. unfold deprecated_node.
      rewrite Hd, Hl. left. reflexivity.
  - intros element pairs Hin. apply in_app_or in Hin.
    destruct Hin as [Hin|Hin].
    { unfold deprecated_node in Hin.
      destruct (_ && _); [destruct Hin as [Hin|[]]; discriminate|].
      destruct Hin. }
    apply in_app_or in Hin. destruct Hin as [Hin|Hin];
      [destruct (Hin1 _ Hin)|].
    apply in_app_or in Hin. destruct Hin as [Hin|Hin];
      [destruct (Hin2 _ Hin)|].
    destruct Hin as [Hin|Hin]; [symmetry; exact Hin|].
    apply in_app_or in Hin. destruct Hin as [Hin|Hin];
      [destruct (Hin3 _ Hin)|].
    destruct Hin as [Hin|[Hin|[]]]; discriminate.
Qed.

(** What is asked of the word list: adding a word to a list that exists, or
    a word that is not empty to any list, gives a list that exists. *)
Hypothesis add_separated_word_some : forall buf word,
  buf <> None \/ word <> ""%string ->
  pcmk__add_separated_word buf word <> None.

Lemma legacy_desc_short_some opt deprecated advanced :
  deprecated || advanced = true ->
  legacy_desc_short opt deprecated advanced <> None.
Proof using add_separated_word_some.
  intros Hflag. unfold legacy_desc_short.
  apply add_separated_word_some. left.
  destruct deprecated, advanced; try discriminate.
  - apply add_separated_word_some. right. discriminate.
  - apply add_separated_word_some. right. discriminate.
  - apply add_separated_word_some. right. discriminate.
Qed.

Lemma add_option_metadata_xml_none out opt :
  add_option_metadata_xml out opt = None <->
  type opt = None
  \/ (description_short opt = None /\ description_long opt = None).
Proof using add_separated_word_some.
  unfold add_option_metadata_xml.
  destruct (type opt) as [ty|] eqn:Hty.
  2: { split; [intros _; left; reflexivity|reflexivity]. }
  destruct (description_long opt) as [l|], (description_short opt) as [s|].
  4: { split; [intros _; right; split; reflexivity|reflexivity]. }
  all: split; [|intros [H|[H1 H2]]; discriminate].
  all: intros H; exfalso.
  all: destruct (pcmk__output_get_legacy_xml out
                 && (pcmk_is_set (flags opt) pcmk__opt_deprecated
                     || pcmk_is_set (flags opt) pcmk__opt_advanced))
         eqn:Hlegacy.
  all: try (apply andb_true_iff in Hlegacy; destruct Hlegacy as [_ Hflag];
            pose proof (legacy_desc_short_some opt _ _ Hflag) as Hsome;
            destruct (legacy_desc_short opt _ _) as [desc_short'|];
            [|congruence]).
  all: unfold add_possible_values_xml in H; rewrite Hty in H.
  all: destruct (values opt); [destruct (String.eqb ty "select")|];
    discriminate.
Qed.

Lemma option_list_xml_loop_none filter option_list : forall out,
  option_list_xml_loop filter option_list out = None <->
  exists opt,
    In opt option_list
    /\ passes_filter filter opt = true
    /\ (type opt = None
        \/ (description_short opt = None /\ description_long opt = None)).
Proof using add_separated_word_some.
  induction option_list as [|opt rest IH]; intros out;
    cbn [option_list_xml_loop].
  - split; [discriminate|]. intros (o & [] & _).
  - destruct (pcmk_all_flags_set (flags opt) filter) eqn:Hpass.
    + destruct (add_option_metadata_xml out opt) as [out1|] eqn:Hopt.
      * rewrite IH. split.
        -- intros (o & Hin & Hbad). exists o. split; [right; exact Hin|].
           exact Hbad.
        -- intros (o & [<-|Hin] & Hp & Hbad).
           ++ apply (add_option_metadata_xml_none out) in Hbad. congruence.
           ++ exists o. split; [exact Hin|]. split; assumption.
      * split; [|reflexivity]. intros _. exists opt.
        split; [left; reflexivity|]. split; [exact Hpass|].
        apply (add_option_metadata_xml_none out). exact Hopt.
    + rewrite IH. split.
      * intros (o & Hin & Hbad). exists o. split; [right; exact Hin|].
        exact Hbad.
      * intros (o & [<-|Hin] & Hp & Hbad).
        -- unfold passes_filter in Hp. congruence.
        -- exists o. split; [exact Hin|]. split; assumption.
Qed.

(** X8. When the word list behaves, the XML formatter fails exactly when
    the name or a description of the list is missing, or an option that has
    all the flags of the filter lacks its type or both its descriptions;
    legacy mode adds no failure. *)
Theorem option_list_xml_fails out list_name desc_short desc_long filter
    option_list :
  option_list_xml out list_name desc_short desc_long filter option_list
  = None <->
  list_name = None
  \/ desc_short = None
  \/ desc_long = None
  \/ exists opt,
       In opt option_list
       /\ passes_filter filter opt = true
       /\ (type opt = None
           \/ (description_short opt = None
               /\ description_long opt = None)).
Proof using add_separated_word_some.
  unfold option_list_xml.
  destruct list_name as [n|].
  2: { split; [intros _; left; reflexivity|reflexivity]. }
  destruct desc_short as [ds|].
  2: { split; [intros _; right; left; reflexivity|reflexivity]. }
  destruct desc_long as [dl|].
  2: { split; [intros _; right; right; left; reflexivity|reflexivity]. }
  match goal with
  | |- context [option_list_xml_loop filter option_list ?o] =>
      pose proof (option_list_xml_loop_none filter option_list o) as Hloop;
      destruct (option_list_xml_loop filter option_list o) as [out1|]
  end.
  - split; [discriminate|].
    intros [H|[H|[H|H]]]; try discriminate.
    destruct Hloop as [_ Hloop]. specialize (Hloop H). discriminate.
  - split; [|reflexivity]. intros _. right. right. right.
    apply Hloop. reflexivity.
Qed.

End XmlOutput.

(** *** A sample option list *)

Definition sample_advanced : Z := 8.
Definition sample_generated : Z := 16.
Definition sample_deprecated : Z := 32.

Definition sample_plain : pcmk__cluster_option_t :=
  mk_option "opt1" (Some "select") (Some "on,off") (Some "on") 0
    (Some "First option") None.

Definition sample_adv : pcmk__cluster_option_t :=
  mk_option "opt2" (Some "string") None None 8
    (Some "Second option") (Some "For experts").

Definition sample_both : pcmk__cluster_option_t :=
  mk_option "opt3" (Some "integer") None (Some "5") 40
    (Some "Third option") None.

Definition sample_options : list pcmk__cluster_option_t :=
  [sample_both; sample_plain; sample_adv].


(** The entry of a select option marks the default among the quoted
    values. *)
Example sample_plain_entry :
  option_entry sample_generated (fun s => s) sample_plain =
  Some [call_list_item (Some "opt1") "First option";
        call_begin_list None;
        call_list_item (Some "Possible values")
          (dquote +:+ "on" +:+ dquote +:+ " (default), "
           +:+ dquote +:+ "off" +:+ dquote);
        call_end_list].
Proof. vm_compute. reflexivity. Qed.

(** With an empty filter and [all] false, both trailing groups are left
    out. *)
Example sample_groups_suppressed :
  option_list_default sample_advanced sample_deprecated sample_generated
    (fun s => s) (mk_output false []) (Some "Options") (Some "Sample")
    0 sample_options false =
  option_list_default sample_advanced sample_deprecated sample_generated
    (fun s => s) (mk_output false []) (Some "Options") (Some "Sample")
    0 [sample_plain] false.
Proof. vm_compute. reflexivity. Qed.


(** *** The sample list in text and in XML *)

Lemma option_list_default_nesting_witness :
  match
    option_list_default sample_advanced sample_deprecated sample_generated
      (fun s => s) (mk_output false []) (Some "Options") (Some "Sample") 0
      sample_options true
  with
  | Some out' =>
      fancy out' = false
      /\ exists cs, calls out' = cs /\ list_depth cs 0 = Some 0%nat
  | None => False
  end.
Proof.
  destruct (option_list_default sample_advanced sample_deprecated
              sample_generated (fun s => s) (mk_output false [])
              (Some "Options") (Some "Sample") 0 sample_options true)
    as [out'|] eqn:E.
  - exact (option_list_default_nesting sample_advanced sample_deprecated
             sample_generated (fun s => s) (mk_output false [])
             (Some "Options") (Some "Sample") 0 sample_options true out' E).
  - vm_compute in E. discriminate E.
Defined.

Lemma add_possible_values_default_select_witness :
  exists id,
    add_possible_values_default sample_generated (fun s => s)
      (mk_output false []) sample_plain
    = Some (emit (mk_output false [])
              (call_list_item (Some id)
                 (String.concat ", "
                    [quoted "on" +:+ " (default)"; quoted "off"]))).
Proof.
  destruct (add_possible_values_default_select sample_generated (fun s => s)
              (mk_output false []) sample_plain "on,off" eq_refl eq_refl)
    as [Hmarked _].
  exact (Hmarked "on"%string [] ["off"%string] eq_refl eq_refl (fun H => H)).
Defined.

(** A word list as the library keeps it: words separated by one space, an
    empty word adding nothing. *)
Definition sample_add_separated_word (list : option string) (word : string)
  : option string :=
  if String.eqb word "" then list
  else
    Some (match list with
          | None => word
          | Some buf =>
              if String.eqb buf "" then word else buf +:+ " " +:+ word
          end).

Lemma sample_add_separated_word_some buf word :
  buf <> None \/ word <> ""%string ->
  sample_add_separated_word buf word <> None.
Proof.
  unfold sample_add_separated_word. intros [H|H].
  - destruct (String.eqb word ""); [exact H|discriminate].
  - apply String.eqb_neq in H. rewrite H. discriminate.
Qed.

(** An option without a type. *)
Definition sample_untyped : pcmk__cluster_option_t :=
  mk_option "opt4" None None None 0 (Some "Fourth option") None.

Definition sample_option_list_xml (legacy : bool)
    (option_list : list pcmk__cluster_option_t) :=
  option_list_xml sample_advanced sample_deprecated sample_generated
    (fun s => s) false None "en" "2.1.8" "1.1" "duration" "time"
    "nonnegative_integer" "integer" sample_add_separated_word
    (mk_xml_output legacy []) (Some "pacemaker-based") (Some "Options")
    (Some "Sample") 0 option_list.

(** In legacy mode the deprecated and advanced option of the sample is
    shown under a short description made of the two markers and its own
    short description. *)
Example sample_legacy_parameter :
  match sample_option_list_xml true [sample_both] with
  | Some out' =>
      In (xml_create_text_node PCMK_XE_SHORTDESC
            "*** Deprecated *** *** Advanced Use Only ***")
        (xml_calls out')
      /\ In (xml_create_parent PCMK_XE_PARAMETER
               [(PCMK_XA_NAME, Some "opt3"%string); (PCMK_XA_ADVANCED, None);
                (PCMK_XA_GENERATED, None)])
           (xml_calls out')
  | None => False
  end.
Proof. vm_compute. tauto. Qed.

Lemma add_option_metadata_xml_elements_witness :
  match
    add_option_metadata_xml sample_advanced sample_deprecated
      sample_generated (fun s => s) false None "en" "duration" "time"
      "nonnegative_integer" "integer" sample_add_separated_word
      (mk_xml_output false []) sample_both
  with
  | Some out' =>
      exists cs,
        xml_calls out'
        = xml_create_parent PCMK_XE_PARAMETER
            [(PCMK_XA_NAME, Some "opt3"%string);
             (PCMK_XA_ADVANCED, Some "1"%string);
             (PCMK_XA_GENERATED, Some "0"%string)] :: cs
        /\ In (xml_create_node PCMK_XE_DEPRECATED []) cs
  | None => False
  end.
Proof.
  destruct (add_option_metadata_xml sample_advanced sample_deprecated
              sample_generated (fun s => s) false None "en" "duration" "time"
              "nonnegative_integer" "integer" sample_add_separated_word
              (mk_xml_output false []) sample_both) as [out'|] eqn:E.
  - destruct (add_option_metadata_xml_elements sample_advanced
                sample_deprecated sample_generated (fun s => s) false None
                "en" "duration" "time" "nonnegative_integer" "integer"
                sample_add_separated_word (mk_xml_output false [])
                sample_both out' E) as (cs & Hcalls & Hdeprecated & _).
    exists cs. split; [exact Hcalls|].
    apply Hdeprecated. split; reflexivity.
  - vm_compute in E. discriminate E.
Defined.

Lemma option_list_xml_nesting_witness :
  match sample_option_list_xml false sample_options with
  | Some out' =>
      legacy_xml out' = false
      /\ exists cs, xml_calls out' = cs /\ xml_depth cs 0 = Some 0%nat
  | None => False
  end.
Proof.
  destruct (sample_option_list_xml false sample_options) as [out'|] eqn:E.
  - exact (option_list_xml_nesting sample_advanced sample_deprecated
             sample_generated (fun s => s) false None "en" "2.1.8" "1.1"
             "duration" "time" "nonnegative_integer" "integer"
             sample_add_separated_word (mk_xml_output false [])
             (Some "pacemaker-based"%string) (Some "Options"%string)
             (Some "Sample"%string) 0 sample_options out' E).
  - vm_compute in E. discriminate E.
Defined.

Lemma option_list_xml_parameters_witness :
  match sample_option_list_xml true sample_options with
  | Some out' =>
      parameter_names (xml_calls out') = ["opt3"; "opt1"; "opt2"]%string
  | None => False
  end.
Proof.
  destruct (sample_option_list_xml true sample_options) as [out'|] eqn:E.
  - exact (proj1
             (option_list_xml_parameters sample_advanced sample_deprecated
                sample_generated (fun s => s) false None "en" "2.1.8" "1.1"
                "duration" "time" "nonnegative_integer" "integer"
                sample_add_separated_word (mk_xml_output true [])
                (Some "pacemaker-based"%string) (Some "Options"%string)
                (Some "Sample"%string) 0 sample_options out' E)).
  - vm_compute in E. discriminate E.
Defined.

Lemma map_legacy_option_type_legacy_witness :
  map_legacy_option_type "duration" "time" "nonnegative_integer" "integer"
    (Some "duration"%string) <> Some "duration"%string
  /\ map_legacy_option_type "duration" "time" "nonnegative_integer" "integer"
       (Some "duration"%string) <> Some "nonnegative_integer"%string
  /\ map_legacy_option_type "duration" "time" "nonnegative_integer" "integer"
       (map_legacy_option_type "duration" "time" "nonnegative_integer"
          "integer" (Some "duration"%string))
     = map_legacy_option_type "duration" "time" "nonnegative_integer"
         "integer" (Some "duration"%string).
Proof.
  apply (map_legacy_option_type_legacy "duration" "time"
           "nonnegative_integer" "integer" (Some "duration"%string));
    discriminate.
Defined.

Lemma option_list_xml_fails_witness :
  sample_option_list_xml true [sample_plain; sample_untyped] = None.
Proof.
  apply (option_list_xml_fails sample_advanced sample_deprecated
           sample_generated (fun s => s) false None "en" "2.1.8" "1.1"
           "duration" "time" "nonnegative_integer" "integer"
           sample_add_separated_word sample_add_separated_word_some
           (mk_xml_output true []) (Some "pacemaker-based"%string)
           (Some "Options"%string) (Some "Sample"%string) 0
           [sample_plain; sample_untyped]).
  right. right. right. exists sample_untyped.
  split; [right; left; reflexivity|].
  split; [reflexivity|]. left. reflexivity.
Defined.

End OptionList.

(** ** Scores *)

(** Modelled from the spec: the [INFINITY] score constant is defined outside
    these sources; the spec has scores in Z with two sentinels, the
    project's being one million. *)
Definition INFINITY : Z := 1000000.

(** Modelled from the spec: [pcmk__add_scores] is defined outside these
    sources.  "Addition saturates at +-INFINITY; -INFINITY + anything =
    -INFINITY (ban dominates)". *)
Definition pcmk__add_scores (score1 score2 : Z) : Z :=
  if score1 <=? - INFINITY then - INFINITY
  else if score2 <=? - INFINITY then - INFINITY
  else if INFINITY <=? score1 then INFINITY
  else if INFINITY <=? score2 then INFINITY
  else Z.max (- INFINITY) (Z.min INFINITY (score1 + score2)).

(** A C [unsigned int] holding [z], and the [int] a C compiler reads back
    from an [unsigned int]. *)
Definition to_uint (z : Z) : Z := z mod 2 ^ 32.
Definition to_int (z : Z) : Z :=
  let u := z mod 2 ^ 32 in if u <? 2 ^ 31 then u else u - 2 ^ 32.

(** ** Assigning the instances of a collective to nodes *)

Module Placement.

(** A resource's view of a node: [details] stands for the shared
    [node->details] (its id), [weight] and [count] are the view's own. *)
Record pe_node_t := mk_node {
  details : string;
  weight : Z;
  count : Z
}.

Record pcmk__colocation_t := mk_colocation {
  colocation_id : string;
  dependent : string;
  primary : string;
  score : Z;
  influence : bool
}.

(** The members of [pe_resource_t] that instance assignment reads or writes.
    An allowed-node table is keyed by [node->details->id]. *)
Record pe_resource_t := mk_resource {
  flags : Z;
  allowed_nodes : gmap string pe_node_t;
  running_on : list pe_node_t;
  allocated_to : option pe_node_t;
  rsc_cons : list pcmk__colocation_t;
  rsc_cons_lhs : list pcmk__colocation_t
}.

(** A location constraint, as [resource_location] records it. *)
Record pe__location_t := mk_location {
  location_id : string;
  location_rsc : string;
  location_node : option pe_node_t;
  location_score : Z
}.

(** The part of the working set that assignment of one collective touches:
    the collective (the parent of every instance), the instances by id (an
    instance pointer is its id), and the location constraints. *)
Record pe_working_set_t := mk_working_set {
  collective : pe_resource_t;
  instances : gmap string pe_resource_t;
  placement_constraints : list pe__location_t
}.

Definition set_weight (w : Z) (n : pe_node_t) : pe_node_t :=
  mk_node (details n) w (count n).

Definition set_count (c : Z) (n : pe_node_t) : pe_node_t :=
  mk_node (details n) (weight n) c.

Definition set_allowed_nodes (t : gmap string pe_node_t) (r : pe_resource_t)
  : pe_resource_t :=
  mk_resource (flags r) t (running_on r) (allocated_to r) (rsc_cons r)
    (rsc_cons_lhs r).

Definition set_collective (c : pe_resource_t) (ws : pe_working_set_t)
  : pe_working_set_t :=
  mk_working_set c (instances ws) (placement_constraints ws).

Definition set_instances (m : gmap string pe_resource_t)
    (ws : pe_working_set_t) : pe_working_set_t :=
  mk_working_set (collective ws) m (placement_constraints ws).

(** Modelled from the spec: [pcmk__top_allowed_node] is defined outside these
    sources; it gives "the outermost parent's view of a node".  Its first
    argument, the instance, only names the parent to look in: the parent of
    an instance is the collective, so the view is the entry of the
    collective's table for the node's id. *)
Definition pcmk__top_allowed_node (ws : pe_working_set_t) (node : pe_node_t)
  : option pe_node_t :=
  allowed_nodes (collective ws) !! details node.

(** Modelled from the spec: [pcmk__unassign_resource] is defined outside
    these sources; "unassign the resource" leaves it provisional ("not yet
    placed this pass") with no chosen node. *)
Definition unassign (pe_rsc_provisional : Z) (r : pe_resource_t)
  : pe_resource_t :=
  mk_resource (Z.lor (flags r) pe_rsc_provisional) (allowed_nodes r)
    (running_on r) None (rsc_cons r) (rsc_cons_lhs r).

(** Modelled from the spec: [resource_location] is defined outside these
    sources; it gives the resource "an explicit -INFINITY location record"
    under the given constraint id. *)
Definition resource_location (ws : pe_working_set_t) (rsc : string)
    (node : option pe_node_t) (score : Z) (tag : string)
  : pe_working_set_t :=
  mk_working_set (collective ws) (instances ws)
    (mk_location tag rsc node score :: placement_constraints ws).

(** Modelled from the spec: [pcmk__copy_node_table] is defined outside these
    sources; it takes the "snapshot" of a table that a rollback restores. *)
Definition pcmk__copy_node_table (nodes : gmap string pe_node_t)
  : gmap string pe_node_t := nodes.

Section Assign.

(** Declared outside these sources: the bits of [enum pe_rsc_flags], the
    availability test of a node, the current node of an active resource, and
    the methods [fns->location] and [cmds->assign] of an instance's variant
    (each reads, and [cmds->assign] rewrites, the working set). *)
Variable pe_rsc_orphan : Z.
Variable pe_rsc_provisional : Z.
Variable pe_rsc_allocating : Z.
Variable pe_rsc_failed : Z.
Variable pcmk__node_available : pe_node_t -> bool -> bool -> bool.
Variable pe__current_node : pe_resource_t -> option pe_node_t.
Variable fns_location : pe_working_set_t -> string -> bool -> option pe_node_t.
Variable cmds_assign :
  pe_working_set_t -> string -> option pe_node_t ->
  pe_working_set_t * option pe_node_t.

(** Declared outside these sources as well: adding a colocation to a
    resource's "this with" or "with this" list, and the influence test. *)
Variable pcmk__add_this_with :
  pe_resource_t -> pcmk__colocation_t -> pe_resource_t.
Variable pcmk__add_with_this :
  pe_resource_t -> pcmk__colocation_t -> pe_resource_t.
Variable pcmk__colocation_has_influence :
  pcmk__colocation_t -> pe_resource_t -> bool.

Definition can_run_instance (ws : pe_working_set_t) (instance : pe_resource_t)
    (node : pe_node_t) (max_per_node : Z) : bool :=
  if pcmk_is_set (flags instance) pe_rsc_orphan then false
  else if negb (pcmk__node_available node false false) then false
  else
    match pcmk__top_allowed_node ws node with
    | None => false
    | Some allowed_node =>
        if weight allowed_node <? 0 then false
        else if count allowed_node >=? max_per_node then false
        else true
    end.

(** Modelled from the spec: [common_update_score] is defined outside these
    sources.  It adds a score to the resource's weight for the node of the
    given id; the spec has the ban "set n's score to -INFINITY".  A table is
    keyed by [node->details->id], so the entry rewritten for
    [allowed_node->details->id] is the entry [allowed_node] being visited. *)
Definition common_update_score (allowed_node : pe_node_t) (score : Z)
  : pe_node_t :=
  set_weight (pcmk__add_scores (weight allowed_node) score) allowed_node.

Definition ban_unavailable_allowed_nodes (ws : pe_working_set_t)
    (instance : pe_resource_t) (max_per_node : Z) : pe_resource_t :=
  set_allowed_nodes
    ((fun allowed_node =>
        if can_run_instance ws instance allowed_node max_per_node
        then allowed_node
        else (* Ban instance (and all its children) from node *)
          common_update_score allowed_node (- INFINITY))
       <$> allowed_nodes instance)
    instance.

(** The end of [assign_instance]: the parent tracks how many instances have
    been assigned to each node. *)
Definition count_chosen (ws : pe_working_set_t) (chosen : option pe_node_t)
  : pe_working_set_t * bool :=
  match chosen with
  | Some chosen =>
      match pcmk__top_allowed_node ws chosen with
      | None => (ws, true) (* CRM_LOG_ASSERT only *)
      | Some allowed =>
          (set_collective
             (set_allowed_nodes
                (<[details chosen := set_count (count allowed + 1) allowed]>
                   (allowed_nodes (collective ws)))
                (collective ws))
             ws, true)
      end
  | None => (ws, false)
  end.

Definition put_instance (ws : pe_working_set_t) (id : string)
    (instance : pe_resource_t) : pe_working_set_t :=
  set_instances (<[id := instance]> (instances ws)) ws.

Definition pcmk__unassign_resource (ws : pe_working_set_t) (id : string)
  : pe_working_set_t :=
  set_instances (alter (unassign pe_rsc_provisional) id (instances ws)) ws.

(** [assign_instance]; [id] names the instance.  An id that names no
    instance stands for a [NULL] pointer, which [CRM_ASSERT] excludes. *)
Definition assign_instance (ws : pe_working_set_t) (id : string)
    (prefer : option pe_node_t) (all_coloc : bool) (max_per_node : Z)
  : pe_working_set_t * bool :=
  match instances ws !! id with
  | None => (ws, false)
  | Some instance =>
      if negb (pcmk_is_set (flags instance) pe_rsc_provisional) then
        (* Instance is already assigned *)
        (ws, match fns_location ws id false with
             | Some _ => true
             | None => false
             end)
      else if pcmk_is_set (flags instance) pe_rsc_allocating then
        (ws, false)
      else if
        match prefer with
        | None => false
        | Some prefer =>
            match allowed_nodes instance !! details prefer with
            | None => true
            | Some allowed => weight allowed <? 0
            end
        end
      then (ws, false)
      else
        let instance :=
          ban_unavailable_allowed_nodes ws instance max_per_node in
        let ws := put_instance ws id instance in
        match prefer with
        | None => (* Final assignment *)
            let '(ws, chosen) := cmds_assign ws id None in
            count_chosen ws chosen
        | Some prefer => (* Possible early assignment to preferred node *)
            let backup := pcmk__copy_node_table (allowed_nodes instance) in
            let '(ws, chosen) := cmds_assign ws id (Some prefer) in
            match chosen with
            | Some chosen_node =>
                if negb (String.eqb (details chosen_node) (details prefer))
                then
                  (* Revert nodes if preferred node won't be assigned *)
                  let ws :=
                    set_instances
                      (alter (set_allowed_nodes backup) id (instances ws))
                      ws in
                  let ws := pcmk__unassign_resource ws id in
                  count_chosen ws None
                else count_chosen ws chosen
            | None => count_chosen ws chosen
            end
        end
  end.

Definition append_parent_colocation (rsc child : pe_resource_t) (all : bool)
  : pe_resource_t :=
  let child :=
    fold_left
      (fun child cons =>
         if all || (score cons <? 0) || (score cons =? INFINITY)
         then pcmk__add_this_with child cons
         else child)
      (rsc_cons rsc) child in
  fold_left
    (fun child cons =>
       if negb (pcmk__colocation_has_influence cons child) then child
       else if all || (score cons <? 0)
            then pcmk__add_with_this child cons
            else child)
    (rsc_cons_lhs rsc) child.

(** The resource with its node counts reset, and the number of nodes that
    are available to run resources. *)
Definition reset_allowed_node_counts (rsc : pe_resource_t)
  : pe_resource_t * Z :=
  let nodes := set_count 0 <$> allowed_nodes rsc in
  (set_allowed_nodes nodes rsc,
   Z.of_nat
     (length
        (List.filter (fun node => pcmk__node_available node false false)
           (map snd (map_to_list nodes))))).

(** [preferred_node]; its first argument is used for logs only. *)
Definition preferred_node (ws : pe_working_set_t) (instance : pe_resource_t)
    (optimal_per_node : Z) : option pe_node_t :=
  (* Check whether instance is active, healthy, and not yet assigned *)
  if match running_on instance with [] => true | _ :: _ => false end
     || negb (pcmk_is_set (flags instance) pe_rsc_provisional)
     || pcmk_is_set (flags instance) pe_rsc_failed
  then None
  else
    match pe__current_node instance with
    | None => None (* a null node: the result is NULL on every path *)
    | Some node =>
        (* Check whether instance's current node can run resources *)
        if negb (pcmk__node_available node true false) then None
        else
          (* Check whether node already has optimal number of instances *)
          match pcmk__top_allowed_node ws node with
          | Some parent_node =>
              if count parent_node >=? optimal_per_node then None
              else Some node
          | None => Some node
          end
    end.

(** First loop of [pcmk__assign_instances]: assign as many instances as
    possible to their current location. *)
Fixpoint assign_to_current (all_coloc : bool)
    (optimal_per_node max_total max_per_node : Z) (iter : list string)
    (ws : pe_working_set_t) (assigned : Z) : pe_working_set_t * Z :=
  match iter with
  | [] => (ws, assigned)
  | id :: next =>
      if assigned <? max_total then
        match instances ws !! id with
        | None =>
            assign_to_current all_coloc optimal_per_node max_total
              max_per_node next ws assigned
        | Some instance =>
            let instance :=
              append_parent_colocation (collective ws) instance all_coloc in
            let ws := put_instance ws id instance in
            match preferred_node ws instance optimal_per_node with
            | Some current =>
                let '(ws, ok) :=
                  assign_instance ws id (Some current) all_coloc
                    max_per_node in
                assign_to_current all_coloc optimal_per_node max_total
                  max_per_node next ws
                  (if ok then assigned + 1 else assigned)
            | None =>
                assign_to_current all_coloc optimal_per_node max_total
                  max_per_node next ws assigned
            end
        end
      else (ws, assigned)
  end.

(** Second loop: final assignment of the instances still provisional. *)
Fixpoint assign_remaining (all_coloc : bool) (max_total max_per_node : Z)
    (iter : list string) (ws : pe_working_set_t) (assigned : Z)
  : pe_working_set_t * Z :=
  match iter with
  | [] => (ws, assigned)
  | id :: next =>
      match instances ws !! id with
      | None =>
          assign_remaining all_coloc max_total max_per_node next ws assigned
      | Some instance =>
          if negb (pcmk_is_set (flags instance) pe_rsc_provisional) then
            (* Already assigned *)
            assign_remaining all_coloc max_total max_per_node next ws assigned
          else if assigned >=? max_total then
            assign_remaining all_coloc max_total max_per_node next
              (resource_location ws id None (- INFINITY)
                 "collective_limit_reached")
              assigned
          else
            let '(ws, ok) :=
              assign_instance ws id None all_coloc max_per_node in
            assign_remaining all_coloc max_total max_per_node next ws
              (if ok then assigned + 1 else assigned)
      end
  end.

(** [pcmk__assign_instances]; the result carries the final value of the
    local [assigned].  [max_total] is an [int] and [available_nodes] an
    [unsigned int], so C compares and divides them as [unsigned int]. *)
Definition pcmk__assign_instances (ws : pe_working_set_t)
    (instances : list string) (max_total max_per_node : Z)
  : pe_working_set_t * Z :=
  let '(rsc, available_nodes) := reset_allowed_node_counts (collective ws) in
  let ws := set_collective rsc ws in
  let all_coloc := to_uint max_total <? available_nodes in
  let optimal_per_node :=
    if 0 <? available_nodes
    then to_int (to_uint max_total / available_nodes)
    else 0 in
  let optimal_per_node :=
    if optimal_per_node <? 1 then 1 else optimal_per_node in
  let '(ws, assigned) :=
    assign_to_current all_coloc optimal_per_node max_total max_per_node
      instances ws 0 in
  assign_remaining all_coloc max_total max_per_node instances ws assigned.

(** *** The preferred node of an instance *)

(** C5 (as amended). [preferred_node] returns the instance's current node
    if and only if the instance is active, still provisional and not failed,
    its current node is available under the strict check, and the node
    either has no top-allowed view or has a count below [optimal_per_node]
    in that view; otherwise it returns no node. *)
Theorem preferred_node_iff ws instance optimal_per_node node :
  preferred_node ws instance optimal_per_node = Some node <->
  running_on instance <> []
  /\ pcmk_is_set (flags instance) pe_rsc_provisional = true
  /\ pcmk_is_set (flags instance) pe_rsc_failed = false
  /\ pe__current_node instance = Some node
  /\ pcmk__node_available node true false = true
  /\ (forall parent_node,
        pcmk__top_allowed_node ws node = Some parent_node ->
        count parent_node < optimal_per_node).
Proof.
  unfold preferred_node.
  destruct (running_on instance) as [|r rs]; simpl.
  { split; [discriminate|]. intros [H _]. contradiction. }
  destruct (pcmk_is_set (flags instance) pe_rsc_provisional); simpl.
  2: { split; [discriminate|]. intros (_ & H & _). discriminate. }
  destruct (pcmk_is_set (flags instance) pe_rsc_failed); simpl.
  { split; [discriminate|]. intros (_ & _ & H & _). discriminate. }
  destruct (pe__current_node instance) as [cur|].
  2: { split; [discriminate|]. intros (_ & _ & _ & H & _). discriminate. }
  destruct (pcmk__node_available cur true false) eqn:Hav; simpl.
  2: { split; [discriminate|]. intros (_ & _ & _ & H & Ha & _).
       injection H as ->. congruence. }
  destruct (pcmk__top_allowed_node ws cur) as [p|] eqn:Htop.
  - destruct (count p >=? optimal_per_node) eqn:Hc.
    + split; [discriminate|]. intros (_ & _ & _ & H & _ & Hp).
      injection H as <-. specialize (Hp p Htop). lia.
    + split.
      * intros H. injection H as <-. repeat split; try congruence.
        intros q Hq. rewrite Htop in Hq. injection Hq as <-. lia.
      * intros (_ & _ & _ & H & _). congruence.
  - split.
    + intros H. injection H as <-. repeat split; congruence.
    + intros (_ & _ & _ & H & _). congruence.
Qed.

(** *** Parent colocations copied to an instance *)

Section ParentColocations.

(** What adding a colocation does to the two lists of a resource, and that
    the influence test does not look at them. *)
Hypothesis add_this_with_cons : forall child cons e,
  In e (rsc_cons (pcmk__add_this_with child cons)) <->
  e = cons \/ In e (rsc_cons child).
Hypothesis add_this_with_lhs : forall child cons,
  rsc_cons_lhs (pcmk__add_this_with child cons) = rsc_cons_lhs child.
Hypothesis add_with_this_lhs : forall child cons e,
  In e (rsc_cons_lhs (pcmk__add_with_this child cons)) <->
  e = cons \/ In e (rsc_cons_lhs child).
Hypothesis add_with_this_cons : forall child cons,
  rsc_cons (pcmk__add_with_this child cons) = rsc_cons child.
Hypothesis influence_add_this_with : forall e child cons,
  pcmk__colocation_has_influence e (pcmk__add_this_with child cons) =
  pcmk__colocation_has_influence e child.
Hypothesis influence_add_with_this : forall e child cons,
  pcmk__colocation_has_influence e (pcmk__add_with_this child cons) =
  pcmk__colocation_has_influence e child.

Definition this_with_step (all : bool) (child : pe_resource_t)
    (cons : pcmk__colocation_t) : pe_resource_t :=
  if all || (score cons <? 0) || (score cons =? INFINITY)
  then pcmk__add_this_with child cons
  else child.

Definition with_this_step (all : bool) (child : pe_resource_t)
    (cons : pcmk__colocation_t) : pe_resource_t :=
  if negb (pcmk__colocation_has_influence cons child) then child
  else if all || (score cons <? 0)
       then pcmk__add_with_this child cons
       else child.

Lemma this_with_loop all l : forall child,
  (forall e,
     In e (rsc_cons (fold_left (this_with_step all) l child)) <->
     In e (rsc_cons child)
     \/ (In e l /\ all || (score e <? 0) || (score e =? INFINITY) = true))
  /\ rsc_cons_lhs (fold_left (this_with_step all) l child)
     = rsc_cons_lhs child
  /\ (forall e,
        pcmk__colocation_has_influence e
          (fold_left (this_with_step all) l child)
        = pcmk__colocation_has_influence e child).
Proof using add_this_with_cons add_this_with_lhs influence_add_this_with.
  clear pe_rsc_orphan pe_rsc_provisional pe_rsc_allocating pe_rsc_failed
    pcmk__node_available pe__current_node fns_location cmds_assign.
  induction l as [|c l IH]; intros child; simpl.
  - split; [|split]; try reflexivity. intros e. tauto.
  - destruct (IH (this_with_step all child c)) as (IH1 & IH2 & IH3).
    unfold this_with_step in *.
    destruct (all || (score c <? 0) || (score c =? INFINITY)) eqn:Hc.
    + split; [|split].
      * intros e. rewrite IH1, add_this_with_cons. split.
        -- intros [[->|H]|[H1 H2]]; auto.
        -- intros [H|[[->|H1] H2]]; auto.
      * rewrite IH2. apply add_this_with_lhs.
      * intros e. rewrite IH3. apply influence_add_this_with.
    + split; [|split]; auto.
      intros e. rewrite IH1. split.
      * intros [H|[H1 H2]]; auto.
      * intros [H|[[->|H1] H2]]; auto. congruence.
Qed.

Lemma with_this_loop all l : forall child,
  (forall e,
     In e (rsc_cons_lhs (fold_left (with_this_step all) l child)) <->
     In e (rsc_cons_lhs child)
     \/ (In e l /\ pcmk__colocation_has_influence e child = true
         /\ all || (score e <? 0) = true))
  /\ rsc_cons (fold_left (with_this_step all) l child) = rsc_cons child.
Proof using add_with_this_lhs add_with_this_cons influence_add_with_this.
  clear pe_rsc_orphan pe_rsc_provisional pe_rsc_allocating pe_rsc_failed
    pcmk__node_available pe__current_node fns_location cmds_assign.
  induction l as [|c l IH]; intros child; simpl.
  - split; [|reflexivity]. intros e. tauto.
  - destruct (IH (with_this_step all child c)) as (IH1 & IH2).
    assert (Hinf : forall e,
      pcmk__colocation_has_influence e (with_this_step all child c)
      = pcmk__colocation_has_influence e child).
    { intros e. unfold with_this_step.
      destruct (negb _); [reflexivity|].
      destruct (all || _); [apply influence_add_with_this|reflexivity]. }
    split.
    + intros e. rewrite IH1, Hinf. unfold with_this_step.
      destruct (pcmk__colocation_has_influence c child) eqn:Hi; simpl.
      * destruct (all || (score c <? 0)) eqn:Hc.
        -- rewrite add_with_this_lhs. split.
           ++ intros [[->|H]|(H1 & H2 & H3)]; auto.
           ++ intros [H|([->|H1] & H2 & H3)]; auto.
        -- split.
           ++ intros [H|(H1 & H2 & H3)]; auto.
           ++ intros [H|([->|H1] & H2 & H3)]; auto. congruence.
      * split.
        -- intros [H|(H1 & H2 & H3)]; auto.
        -- intros [H|([->|H1] & H2 & H3)]; auto. congruence.
    + rewrite IH2. unfold with_this_step.
      destruct (negb _); [reflexivity|].
      destruct (all || _); [apply add_with_this_cons|reflexivity].
Qed.

(** C4 (as amended). [append_parent_colocation] copies a parent's "this
    with" colocation onto the child iff [all] is true or the score is
    negative or equals +INFINITY, and copies a parent's "with this"
    colocation onto the child iff the colocation has influence on that
    child and [all] is true or the score is negative. *)
Theorem append_parent_colocation_copies rsc child all e :
  (In e (rsc_cons (append_parent_colocation rsc child all)) <->
   In e (rsc_cons child)
   \/ (In e (rsc_cons rsc)
       /\ all || (score e <? 0) || (score e =? INFINITY) = true))
  /\ (In e (rsc_cons_lhs (append_parent_colocation rsc child all)) <->
      In e (rsc_cons_lhs child)
      \/ (In e (rsc_cons_lhs rsc)
          /\ pcmk__colocation_has_influence e child = true
          /\ all || (score e <? 0) = true)).
Proof using add_this_with_cons add_this_with_lhs add_with_this_lhs
  add_with_this_cons influence_add_this_with influence_add_with_this.
  unfold append_parent_colocation.
  fold (this_with_step all). fold (with_this_step all).
  destruct (this_with_loop all (rsc_cons rsc) child) as (T1 & T2 & T3).
  destruct (with_this_loop all (rsc_cons_lhs rsc)
              (fold_left (this_with_step all) (rsc_cons rsc) child))
    as (W1 & W2).
  split.
  - rewrite W2. apply T1.
  - rewrite W1, T2, T3. reflexivity.
Qed.

End ParentColocations.

(** *** Failed early assignment *)

Lemma pcmk__add_scores_ban w : pcmk__add_scores w (- INFINITY) = - INFINITY.
Proof.
  unfold pcmk__add_scores.
  destruct (w <=? - INFINITY); [reflexivity|].
  rewrite Z.leb_refl. reflexivity.
Qed.

Lemma pcmk_is_set_lor f p : pcmk_is_set (Z.lor f p) p = true.
Proof.
  unfold pcmk_is_set, pcmk_all_flags_set. apply Z.eqb_eq.
  apply Z.bits_inj'. intros n _.
  rewrite Z.land_spec, Z.lor_spec.
  destruct (Z.testbit f n), (Z.testbit p n); reflexivity.
Qed.

(** C6 (as amended). When [assign_instance] is called on a provisional
    instance with a preferred node and fails because the preferred node is
    absent from the instance's allowed nodes or has a negative weight there,
    it returns failure and leaves the working set as it was.  When it fails
    because the variant's assign method chose a different node, it returns
    failure, and the instance ends the call unassigned with the allowed-node
    table it had right after [ban_unavailable_allowed_nodes]: the snapshot
    restored on the rollback path is taken after the ban. *)
Theorem assign_instance_prefer_failure ws id instance prefer all_coloc
    max_per_node :
  instances ws !! id = Some instance ->
  pcmk_is_set (flags instance) pe_rsc_provisional = true ->
  pcmk_is_set (flags instance) pe_rsc_allocating = false ->
  let banned := ban_unavailable_allowed_nodes ws instance max_per_node in
  ((allowed_nodes instance !! details prefer = None
    \/ (exists allowed,
          allowed_nodes instance !! details prefer = Some allowed
          /\ weight allowed < 0)) ->
   assign_instance ws id (Some prefer) all_coloc max_per_node = (ws, false))
  /\ (forall allowed ws1 chosen,
        allowed_nodes instance !! details prefer = Some allowed ->
        0 <= weight allowed ->
        cmds_assign (put_instance ws id banned) id (Some prefer)
        = (ws1, Some chosen) ->
        details chosen <> details prefer ->
        exists ws',
          assign_instance ws id (Some prefer) all_coloc max_per_node
          = (ws', false)
          /\ collective ws' = collective ws1
          /\ instances ws' !! id
             = (fun r => unassign pe_rsc_provisional
                           (set_allowed_nodes (allowed_nodes banned) r))
               <$> instances ws1 !! id
          /\ (forall instance',
                instances ws' !! id = Some instance' ->
                allowed_nodes instance' = allowed_nodes banned
                /\ allocated_to instance' = None
                /\ pcmk_is_set (flags instance') pe_rsc_provisional = true)).
Proof.
  intros Hi Hp Ha banned. unfold assign_instance. rewrite Hi, Hp, Ha. simpl.
  split.
  - intros [Hn|(allowed & Hs & Hw)].
    + rewrite Hn. reflexivity.
    + rewrite Hs. apply Z.ltb_lt in Hw. rewrite Hw. reflexivity.
  - intros allowed ws1 chosen Hs Hw Hassign Hne. rewrite Hs.
    destruct (weight allowed <? 0) eqn:Hlt; [apply Z.ltb_lt in Hlt; lia|].
    fold banned. rewrite Hassign.
    destruct (String.eqb (details chosen) (details prefer)) eqn:He.
    { apply String.eqb_eq in He. contradiction. }
    simpl. eexists. split; [reflexivity|].
    assert (Hl : forall m : gmap string pe_resource_t,
      alter (unassign pe_rsc_provisional) id
        (alter (set_allowed_nodes (pcmk__copy_node_table
                                     (allowed_nodes banned))) id m) !! id
      = (fun r => unassign pe_rsc_provisional
                    (set_allowed_nodes (allowed_nodes banned) r))
        <$> m !! id).
    { intros m. rewrite !lookup_alter. rewrite !decide_True by reflexivity.
      destruct (m !! id); reflexivity. }
    split; [reflexivity|]. split; [apply Hl|].
    intros instance' H'. simpl in H'. rewrite Hl in H'.
    destruct (instances ws1 !! id) as [r|]; [|discriminate].
    injection H' as <-. simpl. split; [reflexivity|]. split; [reflexivity|].
    apply pcmk_is_set_lor.
Qed.

(** *** Instances per node *)

(** Every count in the collective's table is at most [max]. *)
Definition counts_bounded (ws : pe_working_set_t) (max : Z) : Prop :=
  forall k n, allowed_nodes (collective ws) !! k = Some n -> count n <= max.

Lemma reset_allowed_node_counts_bounded rsc ws max :
  0 <= max ->
  counts_bounded (set_collective (reset_allowed_node_counts rsc).1 ws) max.
Proof.
  intros Hmax k n. simpl. rewrite lookup_fmap.
  destruct (allowed_nodes rsc !! k); simpl; [|discriminate].
  intros H. injection H as <-. exact Hmax.
Qed.

Lemma count_chosen_bounded ws chosen max :
  counts_bounded ws max ->
  (forall c allowed,
     chosen = Some c -> pcmk__top_allowed_node ws c = Some allowed ->
     count allowed < max) ->
  counts_bounded (count_chosen ws chosen).1 max.
Proof.
  intros Hb Hroom. unfold count_chosen.
  destruct chosen as [c|]; [|exact Hb].
  destruct (pcmk__top_allowed_node ws c) as [allowed|] eqn:Htop; [|exact Hb].
  intros k n. simpl. rewrite lookup_insert. case_decide as Hk.
  - intros Hn. injection Hn as <-. simpl.
    specialize (Hroom c allowed eq_refl Htop). lia.
  - apply Hb.
Qed.

(** A node whose count in the collective's view has reached [max_per_node]
    cannot run the instance, and the ban gives it the score -INFINITY. *)
Lemma full_node_banned ws instance k node allowed max_per_node :
  allowed_nodes instance !! k = Some node ->
  pcmk__top_allowed_node ws node = Some allowed ->
  max_per_node <= count allowed ->
  can_run_instance ws instance node max_per_node = false
  /\ weight
       <$> allowed_nodes
             (ban_unavailable_allowed_nodes ws instance max_per_node) !! k
     = Some (- INFINITY).
Proof.
  intros Hk Htop Hfull.
  assert (Hrun : can_run_instance ws instance node max_per_node = false).
  { unfold can_run_instance. rewrite Htop.
    destruct (pcmk_is_set _ _); [reflexivity|].
    destruct (negb _); [reflexivity|].
    destruct (weight allowed <? 0); [reflexivity|].
    destruct (count allowed >=? max_per_node) eqn:Hge; [reflexivity|]. lia. }
  split; [exact Hrun|].
  cbn [ban_unavailable_allowed_nodes allowed_nodes set_allowed_nodes].
  rewrite lookup_fmap, Hk. cbn [fmap option_fmap option_map].
  rewrite Hrun. cbn [common_update_score weight set_weight].
  rewrite pcmk__add_scores_ban. reflexivity.
Qed.

Lemma count_chosen_succeeds ws chosen :
  (count_chosen ws (Some chosen)).2 = true.
Proof.
  unfold count_chosen. destruct (pcmk__top_allowed_node ws chosen);
    reflexivity.
Qed.

Section Bounds.

(** What the proofs ask of the variant's assign method: it leaves the counts
    of the collective's table alone, and a node it chooses of which the
    collective has a view is one that the instance's own table holds and
    does not ban (its score there is above -INFINITY). *)
Hypothesis assign_keeps_counts : forall ws id prefer ws' chosen k,
  cmds_assign ws id prefer = (ws', chosen) ->
  count <$> allowed_nodes (collective ws') !! k
  = count <$> allowed_nodes (collective ws) !! k.
Hypothesis assign_chooses_allowed :
  forall ws id prefer ws' chosen instance top,
  cmds_assign ws id prefer = (ws', Some chosen) ->
  instances ws !! id = Some instance ->
  pcmk__top_allowed_node ws' chosen = Some top ->
  exists k allowed,
    allowed_nodes instance !! k = Some allowed
    /\ details allowed = details chosen
    /\ - INFINITY < weight allowed.

Lemma assign_counts_bounded ws id prefer ws' chosen max :
  cmds_assign ws id prefer = (ws', chosen) ->
  counts_bounded ws max -> counts_bounded ws' max.
Proof using assign_keeps_counts.
  intros Ha Hb k n Hn.
  pose proof (assign_keeps_counts _ _ _ _ _ k Ha) as Hc.
  rewrite Hn in Hc. simpl in Hc.
  destruct (allowed_nodes (collective ws) !! k) as [n0|] eqn:H0;
    [|discriminate].
  injection Hc as ->. exact (Hb k n0 H0).
Qed.

(** A node chosen after the ban still has room in the collective's view. *)
Lemma chosen_has_room ws id instance prefer ws1 chosen allowed max_per_node :
  cmds_assign
    (put_instance ws id
       (ban_unavailable_allowed_nodes ws instance max_per_node))
    id prefer = (ws1, Some chosen) ->
  pcmk__top_allowed_node ws1 chosen = Some allowed ->
  count allowed < max_per_node.
Proof using assign_keeps_counts assign_chooses_allowed.
  intros Ha Htop.
  destruct (assign_chooses_allowed _ _ _ _ _ _ _ Ha (lookup_insert_eq _ _ _)
              Htop)
    as (k & a & Hk & Hd & Hw).
  simpl in Hk. rewrite lookup_fmap in Hk.
  destruct (allowed_nodes instance !! k) as [a0|]; [|discriminate].
  injection Hk as Hk.
  destruct (can_run_instance ws instance a0 max_per_node) eqn:Hrun.
  - subst a. unfold can_run_instance in Hrun.
    destruct (pcmk_is_set _ _); [discriminate|].
    destruct (negb _); [discriminate|].
    unfold pcmk__top_allowed_node in Hrun, Htop.
    pose proof (assign_keeps_counts _ _ _ _ _ (details chosen) Ha) as Hc.
    rewrite Htop in Hc. simpl in Hc. rewrite <- Hd in Hc.
    destruct (allowed_nodes (collective ws) !! details a0) as [t|];
      [|discriminate].
    injection Hc as Hc. rewrite Hc.
    destruct (weight t <? 0); [discriminate|].
    destruct (count t >=? max_per_node) eqn:Hge; [discriminate|]. lia.
  - subst a. simpl in Hw. rewrite pcmk__add_scores_ban in Hw. lia.
Qed.

(** The counts after the method has chosen a node and [count_chosen] has
    counted it: one more for the node chosen, the others as they were. *)
Lemma count_chosen_counts ws ws0 ws1 id prefer chosen :
  cmds_assign ws0 id prefer = (ws1, Some chosen) ->
  collective ws0 = collective ws ->
  count
    <$> allowed_nodes (collective (count_chosen ws1 (Some chosen)).1)
        !! details chosen
  = (fun c => c + 1)
    <$> (count <$> allowed_nodes (collective ws) !! details chosen)
  /\ (forall k, k <> details chosen ->
        count
          <$> allowed_nodes (collective (count_chosen ws1 (Some chosen)).1)
              !! k
        = count <$> allowed_nodes (collective ws) !! k).
Proof using assign_keeps_counts.
  intros Ha H0.
  assert (Hk : forall k,
            count <$> allowed_nodes (collective ws1) !! k
            = count <$> allowed_nodes (collective ws) !! k).
  { intros k. rewrite <- H0. exact (assign_keeps_counts _ _ _ _ _ k Ha). }
  unfold count_chosen, pcmk__top_allowed_node.
  destruct (allowed_nodes (collective ws1) !! details chosen) as [allowed|]
    eqn:Htop; cbn [fst].
  - split.
    + cbn [collective set_collective allowed_nodes set_allowed_nodes].
      rewrite lookup_insert_eq. rewrite <- Hk, Htop. reflexivity.
    + intros k Hne. cbn [collective set_collective allowed_nodes
                           set_allowed_nodes].
      rewrite lookup_insert_ne by congruence. apply Hk.
  - split; [|intros k _; apply Hk].
    rewrite <- Hk, Htop. reflexivity.
Qed.

Lemma assign_instance_counts_bounded ws id prefer all_coloc max_per_node
    max :
  max_per_node <= max ->
  counts_bounded ws max ->
  counts_bounded (assign_instance ws id prefer all_coloc max_per_node).1
    max.
Proof using assign_keeps_counts assign_chooses_allowed.
  intros Hmax Hb. unfold assign_instance.
  destruct (instances ws !! id) as [instance|]; [|exact Hb].
  destruct (negb _); [exact Hb|].
  destruct (pcmk_is_set _ _); [exact Hb|].
  destruct (match prefer with Some _ => _ | None => _ end); [exact Hb|].
  set (wsb := put_instance ws id
                (ban_unavailable_allowed_nodes ws instance max_per_node)).
  assert (Hwsb : counts_bounded wsb max) by exact Hb.
  destruct prefer as [p|].
  - destruct (cmds_assign wsb id (Some p)) as [ws1 chosen] eqn:Ha.
    pose proof (assign_counts_bounded _ _ _ _ _ _ Ha Hwsb) as H1.
    destruct chosen as [c|]; [|exact H1].
    destruct (negb _); [exact H1|].
    apply count_chosen_bounded; [exact H1|].
    intros c' allowed Hc Htop. injection Hc as <-.
    pose proof (chosen_has_room _ _ _ _ _ _ _ _ Ha Htop). lia.
  - destruct (cmds_assign wsb id None) as [ws1 chosen] eqn:Ha.
    pose proof (assign_counts_bounded _ _ _ _ _ _ Ha Hwsb) as H1.
    apply count_chosen_bounded; [exact H1|].
    intros c allowed -> Htop.
    pose proof (chosen_has_room _ _ _ _ _ _ _ _ Ha Htop). lia.
Qed.

Lemma assign_to_current_counts_bounded all_coloc optimal_per_node max_total
    max_per_node max iter : forall ws assigned,
  max_per_node <= max ->
  counts_bounded ws max ->
  counts_bounded
    (assign_to_current all_coloc optimal_per_node max_total max_per_node
       iter ws assigned).1 max.
Proof using assign_keeps_counts assign_chooses_allowed.
  induction iter as [|id next IH]; intros ws assigned Hmax Hb; simpl;
    [exact Hb|].
  destruct (assigned <? max_total); [|exact Hb].
  destruct (instances ws !! id) as [instance|]; [|apply IH; assumption].
  destruct (preferred_node _ _ _) as [current|]; [|apply IH; assumption].
  match goal with
  | |- context [assign_instance ?w ?i ?p ?a ?m] =>
      pose proof (assign_instance_counts_bounded w i p a m max Hmax Hb)
        as H1;
      destruct (assign_instance w i p a m) as [ws1 ok]
  end.
  apply IH; assumption.
Qed.

Lemma assign_remaining_counts_bounded all_coloc max_total max_per_node max
    iter : forall ws assigned,
  max_per_node <= max ->
  counts_bounded ws max ->
  counts_bounded
    (assign_remaining all_coloc max_total max_per_node iter ws assigned).1
    max.
Proof using assign_keeps_counts assign_chooses_allowed.
  induction iter as [|id next IH]; intros ws assigned Hmax Hb; simpl;
    [exact Hb|].
  destruct (instances ws !! id) as [instance|]; [|apply IH; assumption].
  destruct (negb _); [apply IH; assumption|].
  destruct (assigned >=? max_total); [apply IH; assumption|].
  match goal with
  | |- context [assign_instance ?w ?i ?p ?a ?m] =>
      pose proof (assign_instance_counts_bounded w i p a m max Hmax Hb)
        as H1;
      destruct (assign_instance w i p a m) as [ws1 ok]
  end.
  apply IH; assumption.
Qed.

(** C1 (as amended). Provided the variant's assign method leaves the counts
    of the collective's table alone and, of the nodes the collective has a
    view of, only chooses one that the instance's own table holds with a
    score above -INFINITY: after [pcmk__assign_instances], every node counts
    at most [max_per_node] instances in the collective's view (none when
    [max_per_node] is negative).  The ban comes before each assignment: a
    node whose count in the collective's view has reached [max_per_node]
    cannot run the instance and [ban_unavailable_allowed_nodes] gives it the
    score -INFINITY in the instance's table.  And each successful assignment
    counts once: when the method chooses a node for a provisional instance
    (the preferred one, if a node is preferred), [assign_instance] returns
    true, the count of the chosen node in the collective's view, if it has
    one, is its count before the call plus one, and every other count is as
    it was. *)
Theorem assign_instances_max_per_node ws iter max_total max_per_node :
  (forall k n,
     allowed_nodes
       (collective
          (pcmk__assign_instances ws iter max_total max_per_node).1)
       !! k = Some n ->
     count n <= Z.max 0 max_per_node)
  /\ (forall ws0 instance k node allowed,
        allowed_nodes instance !! k = Some node ->
        pcmk__top_allowed_node ws0 node = Some allowed ->
        max_per_node <= count allowed ->
        can_run_instance ws0 instance node max_per_node = false
        /\ weight
             <$> allowed_nodes
                   (ban_unavailable_allowed_nodes ws0 instance max_per_node)
                 !! k
           = Some (- INFINITY))
  /\ (forall ws0 id instance prefer all_coloc ws1 chosen,
        instances ws0 !! id = Some instance ->
        pcmk_is_set (flags instance) pe_rsc_provisional = true ->
        pcmk_is_set (flags instance) pe_rsc_allocating = false ->
        (forall p, prefer = Some p ->
           details chosen = details p
           /\ exists a,
                allowed_nodes instance !! details p = Some a
                /\ 0 <= weight a) ->
        cmds_assign
          (put_instance ws0 id
             (ban_unavailable_allowed_nodes ws0 instance max_per_node))
          id prefer = (ws1, Some chosen) ->
        let r := assign_instance ws0 id prefer all_coloc max_per_node in
        r.2 = true
        /\ count <$> allowed_nodes (collective r.1) !! details chosen
           = (fun c => c + 1)
             <$> (count <$> allowed_nodes (collective ws0) !! details chosen)
        /\ (forall k, k <> details chosen ->
              count <$> allowed_nodes (collective r.1) !! k
              = count <$> allowed_nodes (collective ws0) !! k)).
Proof using assign_keeps_counts assign_chooses_allowed.
  split; [|split].
  - unfold pcmk__assign_instances.
    pose proof (reset_allowed_node_counts_bounded (collective ws) ws
                  (Z.max 0 max_per_node) (Z.le_max_l 0 max_per_node)) as H0.
    destruct (reset_allowed_node_counts (collective ws))
      as [rsc available_nodes].
    simpl in H0.
    match goal with
    | |- context [assign_to_current ?a ?o ?t ?m ?i ?w ?n] =>
        pose proof (assign_to_current_counts_bounded a o t m
                      (Z.max 0 max_per_node) i w n
                      (Z.le_max_r 0 max_per_node) H0) as H1;
        destruct (assign_to_current a o t m i w n) as [ws1 assigned]
    end.
    exact (assign_remaining_counts_bounded _ _ _ _ _ _ _
             (Z.le_max_r 0 max_per_node) H1).
  - intros ws0 instance k node allowed. apply full_node_banned.
  - intros ws0 id instance prefer all_coloc ws1 chosen Hi Hp Halloc Hprefer
      Ha r.
    assert (Hr : r = count_chosen ws1 (Some chosen)).
    { subst r. unfold assign_instance. rewrite Hi, Hp, Halloc. cbn [negb].
      destruct prefer as [p|].
      - destruct (Hprefer p eq_refl) as (Hd & a & Hpa & Hw).
        rewrite Hpa. apply Z.ltb_ge in Hw. rewrite Hw. cbv zeta.
        unfold pcmk__copy_node_table. rewrite Ha.
        rewrite Hd, String.eqb_refl. reflexivity.
      - cbv zeta. rewrite Ha. reflexivity. }
    rewrite Hr. split; [apply count_chosen_succeeds|].
    exact (count_chosen_counts ws0 _ ws1 id prefer chosen Ha eq_refl).
Qed.

(** *** The counts add up to the instances assigned *)

Definition total_count (nodes : gmap string pe_node_t) : Z :=
  map_fold (fun _ node total => count node + total) 0 nodes.

Lemma total_count_delete nodes k node :
  nodes !! k = Some node ->
  total_count nodes = count node + total_count (delete k nodes).
Proof using Type.
  intros H. unfold total_count.
  apply (map_fold_delete_L (fun _ n t => count n + t)); [|exact H].
  intros. lia.
Qed.

Lemma total_count_insert nodes k node :
  nodes !! k = None ->
  total_count (<[k:=node]> nodes) = count node + total_count nodes.
Proof using Type.
  intros H. unfold total_count.
  apply (map_fold_insert_L (fun _ n t => count n + t)); [|exact H].
  intros. lia.
Qed.

Lemma total_count_ext : forall m1 m2 : gmap string pe_node_t,
  (forall k, count <$> m1 !! k = count <$> m2 !! k) ->
  total_count m1 = total_count m2.
Proof using Type.
  intros m1. induction m1 as [|i x m Hi IH] using map_ind; intros m2 H.
  - assert (Hempty : m2 = ∅).
    { apply map_empty. intros k. specialize (H k).
      rewrite lookup_empty in H. destruct (m2 !! k); [discriminate|].
      reflexivity. }
    subst m2. reflexivity.
  - pose proof (H i) as Hi2. rewrite lookup_insert_eq in Hi2.
    destruct (m2 !! i) as [y|] eqn:Hy; [|discriminate].
    injection Hi2 as Hc.
    rewrite total_count_insert by exact Hi.
    rewrite (total_count_delete m2 i y Hy), (IH (delete i m2)); [lia|].
    intros k. destruct (decide (k = i)) as [->|Hne].
    + rewrite Hi, lookup_delete_eq. reflexivity.
    + rewrite lookup_delete_ne by congruence. rewrite <- H.
      rewrite lookup_insert_ne by congruence. reflexivity.
Qed.

Lemma total_count_bump nodes k allowed :
  nodes !! k = Some allowed ->
  total_count (<[k:=set_count (count allowed + 1) allowed]> nodes)
  = total_count nodes + 1.
Proof using Type.
  intros H. rewrite <- insert_delete_eq.
  rewrite total_count_insert by apply lookup_delete_eq.
  rewrite (total_count_delete nodes k allowed H). simpl. lia.
Qed.

Lemma total_count_reset (nodes : gmap string pe_node_t) :
  total_count (set_count 0 <$> nodes) = 0.
Proof using Type.
  induction nodes as [|i x m Hi IH] using map_ind.
  - rewrite fmap_empty. reflexivity.
  - rewrite fmap_insert, total_count_insert, IH; [reflexivity|].
    rewrite lookup_fmap, Hi. reflexivity.
Qed.

Lemma count_chosen_total ws chosen :
  let r := count_chosen ws chosen in
  total_count (allowed_nodes (collective r.1))
  <= total_count (allowed_nodes (collective ws)) + (if r.2 then 1 else 0).
Proof using Type.
  unfold count_chosen, pcmk__top_allowed_node.
  destruct chosen as [c|]; cbn [fst snd]; [|lia].
  destruct (allowed_nodes (collective ws) !! details c) as [allowed|] eqn:Ht;
    cbn [fst snd]; [|lia].
  cbn [collective set_collective allowed_nodes set_allowed_nodes].
  rewrite (total_count_bump _ _ _ Ht). lia.
Qed.

Lemma assign_instance_total ws id prefer all_coloc max_per_node :
  let r := assign_instance ws id prefer all_coloc max_per_node in
  total_count (allowed_nodes (collective r.1))
  <= total_count (allowed_nodes (collective ws)) + (if r.2 then 1 else 0).
Proof using assign_keeps_counts.
  assert (Hsame : forall b : bool,
            total_count (allowed_nodes (collective ws))
            <= total_count (allowed_nodes (collective ws))
               + (if b then 1 else 0)).
  { intros b. destruct b; lia. }
  assert (Hassign : forall ws0 p ws1 c,
            cmds_assign ws0 id p = (ws1, c) ->
            total_count (allowed_nodes (collective ws1))
            = total_count (allowed_nodes (collective ws0))).
  { intros ws0 p ws1 c Ha. apply total_count_ext. intros k.
    exact (assign_keeps_counts _ _ _ _ _ k Ha). }
  intros r. subst r. unfold assign_instance.
  destruct (instances ws !! id) as [instance|]; [|apply Hsame].
  destruct (negb _); [apply Hsame|].
  destruct (pcmk_is_set _ _); [apply Hsame|].
  destruct (match prefer with Some _ => _ | None => _ end); [apply Hsame|].
  set (wsb := put_instance ws id
                (ban_unavailable_allowed_nodes ws instance max_per_node)).
  assert (Hwsb : collective wsb = collective ws) by reflexivity.
  destruct prefer as [p|].
  - destruct (cmds_assign wsb id (Some p)) as [ws1 chosen] eqn:Ha.
    pose proof (Hassign _ _ _ _ Ha) as H1. rewrite Hwsb in H1.
    destruct chosen as [c|].
    + destruct (negb (String.eqb (details c) (details p))).
      * cbn [count_chosen fst snd collective set_instances
               pcmk__unassign_resource]. lia.
      * pose proof (count_chosen_total ws1 (Some c)) as H2.
        cbv zeta in H2. lia.
    + cbn [count_chosen fst snd]. lia.
  - destruct (cmds_assign wsb id None) as [ws1 chosen] eqn:Ha.
    pose proof (Hassign _ _ _ _ Ha) as H1. rewrite Hwsb in H1.
    pose proof (count_chosen_total ws1 chosen) as H2. cbv zeta in H2. lia.
Qed.

Lemma assign_to_current_total all_coloc optimal_per_node max_total
    max_per_node iter : forall ws assigned,
  let r := assign_to_current all_coloc optimal_per_node max_total
             max_per_node iter ws assigned in
  total_count (allowed_nodes (collective r.1)) + assigned
  <= total_count (allowed_nodes (collective ws)) + r.2.
Proof using assign_keeps_counts.
  induction iter as [|id next IH]; intros ws assigned;
    cbn [assign_to_current].
  - cbn [fst snd]. lia.
  - destruct (assigned <? max_total); [|cbn [fst snd]; lia].
    destruct (instances ws !! id) as [instance|]; [|apply IH].
    set (ws0 := put_instance ws id
                  (append_parent_colocation (collective ws) instance
                     all_coloc)).
    assert (Hws0 : collective ws0 = collective ws) by reflexivity.
    destruct (preferred_node ws0 _ optimal_per_node) as [current|].
    + pose proof (assign_instance_total ws0 id (Some current) all_coloc
                    max_per_node) as H1.
      cbv zeta in H1. rewrite Hws0 in H1.
      destruct (assign_instance ws0 id (Some current) all_coloc max_per_node)
        as [ws1 ok].
      cbn [fst snd] in H1.
      specialize (IH ws1 (if ok then assigned + 1 else assigned)).
      cbv zeta in IH. destruct ok; lia.
    + specialize (IH ws0 assigned). cbv zeta in IH. rewrite Hws0 in IH.
      exact IH.
Qed.

Lemma assign_remaining_total all_coloc max_total max_per_node iter :
  forall ws assigned,
  let r := assign_remaining all_coloc max_total max_per_node iter ws
             assigned in
  total_count (allowed_nodes (collective r.1)) + assigned
  <= total_count (allowed_nodes (collective ws)) + r.2.
Proof using assign_keeps_counts.
  induction iter as [|id next IH]; intros ws assigned;
    cbn [assign_remaining].
  - cbn [fst snd]. lia.
  - destruct (instances ws !! id) as [instance|]; [|apply IH].
    destruct (negb _); [apply IH|].
    destruct (assigned >=? max_total).
    + exact (IH (resource_location ws id None (- INFINITY)
                   "collective_limit_reached") assigned).
    + pose proof (assign_instance_total ws id None all_coloc max_per_node)
        as H1.
      cbv zeta in H1.
      destruct (assign_instance ws id None all_coloc max_per_node)
        as [ws1 ok].
      cbn [fst snd] in H1.
      specialize (IH ws1 (if ok then assigned + 1 else assigned)).
      cbv zeta in IH. destruct ok; lia.
Qed.

(** X9. When the assign method leaves the counts of the collective's
    table alone, the counts of the table add up, after
    [pcmk__assign_instances], to at most the number of instances that were
    assigned. *)
Theorem assign_instances_total ws instances max_total max_per_node :
  let r := pcmk__assign_instances ws instances max_total max_per_node in
  total_count (allowed_nodes (collective r.1)) <= r.2.
Proof using assign_keeps_counts.
  intros r. subst r. unfold pcmk__assign_instances.
  unfold reset_allowed_node_counts.
  match goal with
  | |- context [assign_to_current ?a ?o ?t ?m ?i ?w 0] =>
      pose proof (assign_to_current_total a o t m i w 0) as H1;
      destruct (assign_to_current a o t m i w 0) as [ws1 assigned]
  end.
  cbv zeta in H1. cbn [fst snd] in H1.
  cbn [collective set_collective allowed_nodes set_allowed_nodes] in H1.
  rewrite total_count_reset in H1.
  match goal with
  | |- context [assign_remaining ?a ?t ?m ?i ?w ?n] =>
      pose proof (assign_remaining_total a t m i w n) as H3
  end.
  cbv zeta in H3. lia.
Qed.

(** X10. When the assign method leaves the counts of the collective's
    table alone, a call of [assign_instance] that fails leaves every count
    of the table as it was.  A call that succeeds for a provisional instance
    has had the assign method choose a node for the instance with the
    unavailable nodes banned (the preferred node, if one was given); the
    working set is the one the method left, with that node counted: its
    count in the collective's view, if it has one, is one more than before
    the call, and the other counts are as they were. *)
Theorem assign_instance_counts ws id prefer all_coloc max_per_node :
  let r := assign_instance ws id prefer all_coloc max_per_node in
  (r.2 = false ->
   forall k,
     count <$> allowed_nodes (collective r.1) !! k
     = count <$> allowed_nodes (collective ws) !! k)
  /\ (forall instance,
        r.2 = true ->
        instances ws !! id = Some instance ->
        pcmk_is_set (flags instance) pe_rsc_provisional = true ->
        exists ws1 chosen,
          cmds_assign
            (put_instance ws id
               (ban_unavailable_allowed_nodes ws instance max_per_node))
            id prefer = (ws1, Some chosen)
          /\ (forall p, prefer = Some p -> details chosen = details p)
          /\ r.1 = (count_chosen ws1 (Some chosen)).1
          /\ count <$> allowed_nodes (collective r.1) !! details chosen
             = (fun c => c + 1)
               <$> (count <$> allowed_nodes (collective ws) !! details chosen)
          /\ (forall k, k <> details chosen ->
                count <$> allowed_nodes (collective r.1) !! k
                = count <$> allowed_nodes (collective ws) !! k)).
Proof using assign_keeps_counts.
  intros r. subst r. unfold assign_instance.
  destruct (instances ws !! id) as [instance|] eqn:Hi.
  2: { split; [reflexivity|]. intros i _ H. discriminate. }
  destruct (pcmk_is_set (flags instance) pe_rsc_provisional) eqn:Hp;
    cbn [negb].
  2: { split; [reflexivity|]. intros i _ H Hpi. injection H as <-.
       congruence. }
  destruct (pcmk_is_set (flags instance) pe_rsc_allocating).
  { split; [reflexivity|]. intros i H. discriminate. }
  destruct (match prefer with Some _ => _ | None => _ end).
  { split; [reflexivity|]. intros i H. discriminate. }
  set (wsb := put_instance ws id
                (ban_unavailable_allowed_nodes ws instance max_per_node)).
  destruct prefer as [p|].
  - destruct (cmds_assign wsb id (Some p)) as [ws1 chosen] eqn:Ha.
    destruct chosen as [c|].
    + destruct (String.eqb (details c) (details p)) eqn:Heq; cbn [negb].
      * split; [rewrite count_chosen_succeeds; discriminate|].
        intros i _ Hii _. injection Hii as <-. exists ws1, c.
        split; [exact Ha|]. split.
        { intros p' Hp'. injection Hp' as <-.
          apply String.eqb_eq, Heq. }
        split; [reflexivity|].
        exact (count_chosen_counts ws wsb ws1 id (Some p) c Ha eq_refl).
      * cbn [count_chosen fst snd]. split; [|intros i H; discriminate].
        intros _ k. cbn [collective set_instances pcmk__unassign_resource].
        exact (assign_keeps_counts _ _ _ _ _ k Ha).
    + cbn [count_chosen fst snd]. split; [|intros i H; discriminate].
      intros _ k. exact (assign_keeps_counts _ _ _ _ _ k Ha).
  - destruct (cmds_assign wsb id None) as [ws1 chosen] eqn:Ha.
    destruct chosen as [c|].
    + split; [rewrite count_chosen_succeeds; discriminate|].
      intros i _ Hii _. injection Hii as <-. exists ws1, c.
      split; [exact Ha|]. split; [intros p' Hp'; discriminate|].
      split; [reflexivity|].
      exact (count_chosen_counts ws wsb ws1 id None c Ha eq_refl).
    + cbn [count_chosen fst snd]. split; [|intros i H; discriminate].
      intros _ k. exact (assign_keeps_counts _ _ _ _ _ k Ha).
Qed.

End Bounds.

(** *** Instances in total *)

Lemma assign_to_current_assigned all_coloc optimal_per_node max_total
    max_per_node iter : forall ws assigned,
  assigned <= Z.max 0 max_total ->
  (assign_to_current all_coloc optimal_per_node max_total max_per_node iter
     ws assigned).2 <= Z.max 0 max_total.
Proof.
  induction iter as [|id next IH]; intros ws assigned Hle; simpl;
    [exact Hle|].
  destruct (assigned <? max_total) eqn:Hlt; [|exact Hle].
  apply Z.ltb_lt in Hlt.
  destruct (instances ws !! id) as [instance|]; [|apply IH, Hle].
  destruct (preferred_node _ _ _) as [current|]; [|apply IH, Hle].
  destruct (assign_instance _ _ _ _ _) as [ws1 ok].
  apply IH. destruct ok; lia.
Qed.

Lemma assign_remaining_assigned all_coloc max_total max_per_node iter :
  forall ws assigned,
  assigned <= Z.max 0 max_total ->
  (assign_remaining all_coloc max_total max_per_node iter ws assigned).2
  <= Z.max 0 max_total.
Proof.
  induction iter as [|id next IH]; intros ws assigned Hle; simpl;
    [exact Hle|].
  destruct (instances ws !! id) as [instance|]; [|apply IH, Hle].
  destruct (negb _); [apply IH, Hle|].
  destruct (assigned >=? max_total) eqn:Hge; [apply IH, Hle|].
  destruct (assign_instance _ _ _ _ _) as [ws1 ok].
  apply IH. destruct ok; lia.
Qed.

(** The two loops of [pcmk__assign_instances] once more, keeping a log next
    to the local [assigned]: the ids of the instances for which
    [assign_instance] returned true, the latest first. *)
Fixpoint assign_to_current_log (all_coloc : bool)
    (optimal_per_node max_total max_per_node : Z) (iter : list string)
    (ws : pe_working_set_t) (assigned : Z) (log : list string)
  : pe_working_set_t * Z * list string :=
  match iter with
  | [] => (ws, assigned, log)
  | id :: next =>
      if assigned <? max_total then
        match instances ws !! id with
        | None =>
            assign_to_current_log all_coloc optimal_per_node max_total
              max_per_node next ws assigned log
        | Some instance =>
            let instance :=
              append_parent_colocation (collective ws) instance all_coloc in
            let ws := put_instance ws id instance in
            match preferred_node ws instance optimal_per_node with
            | Some current =>
                let '(ws, ok) :=
                  assign_instance ws id (Some current) all_coloc
                    max_per_node in
                assign_to_current_log all_coloc optimal_per_node max_total
                  max_per_node next ws
                  (if ok then assigned + 1 else assigned)
                  (if ok then id :: log else log)
            | None =>
                assign_to_current_log all_coloc optimal_per_node max_total
                  max_per_node next ws assigned log
            end
        end
      else (ws, assigned, log)
  end.

Fixpoint assign_remaining_log (all_coloc : bool)
    (max_total max_per_node : Z) (iter : list string)
    (ws : pe_working_set_t) (assigned : Z) (log : list string)
  : pe_working_set_t * Z * list string :=
  match iter with
  | [] => (ws, assigned, log)
  | id :: next =>
      match instances ws !! id with
      | None =>
          assign_remaining_log all_coloc max_total max_per_node next ws
            assigned log
      | Some instance =>
          if negb (pcmk_is_set (flags instance) pe_rsc_provisional) then
            (* Already assigned *)
            assign_remaining_log all_coloc max_total max_per_node next ws
              assigned log
          else if assigned >=? max_total then
            assign_remaining_log all_coloc max_total max_per_node next
              (resource_location ws id None (- INFINITY)
                 "collective_limit_reached")
              assigned log
          else
            let '(ws, ok) :=
              assign_instance ws id None all_coloc max_per_node in
            assign_remaining_log all_coloc max_total max_per_node next ws
              (if ok then assigned + 1 else assigned)
              (if ok then id :: log else log)
      end
  end.

Definition pcmk__assign_instances_log (ws : pe_working_set_t)
    (instances : list string) (max_total max_per_node : Z)
  : pe_working_set_t * Z * list string :=
  let '(rsc, available_nodes) := reset_allowed_node_counts (collective ws) in
  let ws := set_collective rsc ws in
  let all_coloc := to_uint max_total <? available_nodes in
  let optimal_per_node :=
    if 0 <? available_nodes
    then to_int (to_uint max_total / available_nodes)
    else 0 in
  let optimal_per_node :=
    if optimal_per_node <? 1 then 1 else optimal_per_node in
  let '(ws, assigned, log) :=
    assign_to_current_log all_coloc optimal_per_node max_total max_per_node
      instances ws 0 [] in
  assign_remaining_log all_coloc max_total max_per_node instances ws assigned
    log.

(** The log changes nothing of the run, and [assigned] grows with it. *)
Lemma assign_to_current_log_spec all_coloc optimal_per_node max_total
    max_per_node iter : forall ws assigned log,
  let r := assign_to_current_log all_coloc optimal_per_node max_total
             max_per_node iter ws assigned log in
  r.1 = assign_to_current all_coloc optimal_per_node max_total max_per_node
          iter ws assigned
  /\ exists new,
       r.2 = new ++ log
       /\ r.1.2 = assigned + Z.of_nat (length new)
       /\ forall id, In id new -> In id iter.
Proof.
  induction iter as [|id next IH]; intros ws assigned log;
    cbn [assign_to_current_log assign_to_current].
  - split; [reflexivity|]. exists []. cbn [fst snd length app].
    split; [reflexivity|]. split; [lia|]. intros id H. exact H.
  - assert (Hnext : forall ws1 log1,
              let r := assign_to_current_log all_coloc optimal_per_node
                         max_total max_per_node next ws1 assigned log1 in
              r.1 = assign_to_current all_coloc optimal_per_node max_total
                      max_per_node next ws1 assigned
              /\ exists new,
                   r.2 = new ++ log1
                   /\ r.1.2 = assigned + Z.of_nat (length new)
                   /\ forall i, In i new -> In i (id :: next)).
    { intros ws1 log1. destruct (IH ws1 assigned log1)
        as (H1 & new & H2 & H3 & H4).
      split; [exact H1|]. exists new. split; [exact H2|].
      split; [exact H3|]. intros i Hin. right. apply H4, Hin. }
    destruct (assigned <? max_total).
    2: { split; [reflexivity|]. exists []. cbn [fst snd length app].
         split; [reflexivity|]. split; [lia|]. intros i H. destruct H. }
    destruct (instances ws !! id) as [instance|]; [|apply Hnext].
    destruct (preferred_node _ _ _) as [current|]; [|apply Hnext].
    destruct (assign_instance _ _ _ _ _) as [ws1 ok].
    destruct ok; [|apply Hnext].
    destruct (IH ws1 (assigned + 1) (id :: log))
      as (H1 & new & H2 & H3 & H4).
    split; [exact H1|]. exists (new ++ [id]).
    split; [rewrite H2, <- app_assoc; reflexivity|].
    split.
    + rewrite H3, length_app. cbn [length]. lia.
    + intros i Hin. apply in_app_or in Hin.
      destruct Hin as [Hin|[<-|[]]]; [right; apply H4, Hin|left; reflexivity].
Qed.

Lemma assign_remaining_log_spec all_coloc max_total max_per_node iter :
  forall ws assigned log,
  let r := assign_remaining_log all_coloc max_total max_per_node iter ws
             assigned log in
  r.1 = assign_remaining all_coloc max_total max_per_node iter ws assigned
  /\ exists new,
       r.2 = new ++ log
       /\ r.1.2 = assigned + Z.of_nat (length new)
       /\ forall id, In id new -> In id iter.
Proof.
  induction iter as [|id next IH]; intros ws assigned log;
    cbn [assign_remaining_log assign_remaining].
  - split; [reflexivity|]. exists []. cbn [fst snd length app].
    split; [reflexivity|]. split; [lia|]. intros id H. exact H.
  - assert (Hnext : forall ws1 log1,
              let r := assign_remaining_log all_coloc max_total max_per_node
                         next ws1 assigned log1 in
              r.1 = assign_remaining all_coloc max_total max_per_node next
                      ws1 assigned
              /\ exists new,
                   r.2 = new ++ log1
                   /\ r.1.2 = assigned + Z.of_nat (length new)
                   /\ forall i, In i new -> In i (id :: next)).
    { intros ws1 log1. destruct (IH ws1 assigned log1)
        as (H1 & new & H2 & H3 & H4).
      split; [exact H1|]. exists new. split; [exact H2|].
      split; [exact H3|]. intros i Hin. right. apply H4, Hin. }
    destruct (instances ws !! id) as [instance|]; [|apply Hnext].
    destruct (negb _); [apply Hnext|].
    destruct (assigned >=? max_total); [apply Hnext|].
    destruct (assign_instance _ _ _ _ _) as [ws1 ok].
    destruct ok; [|apply Hnext].
    destruct (IH ws1 (assigned + 1) (id :: log))
      as (H1 & new & H2 & H3 & H4).
    split; [exact H1|]. exists (new ++ [id]).
    split; [rewrite H2, <- app_assoc; reflexivity|].
    split.
    + rewrite H3, length_app. cbn [length]. lia.
    + intros i Hin. apply in_app_or in Hin.
      destruct Hin as [Hin|[<-|[]]]; [right; apply H4, Hin|left; reflexivity].
Qed.

Lemma assign_instances_log_spec ws iter max_total max_per_node :
  let r := pcmk__assign_instances_log ws iter max_total max_per_node in
  r.1 = pcmk__assign_instances ws iter max_total max_per_node
  /\ r.1.2 = Z.of_nat (length r.2)
  /\ forall id, In id r.2 -> In id iter.
Proof.
  unfold pcmk__assign_instances_log, pcmk__assign_instances.
  destruct (reset_allowed_node_counts (collective ws))
    as [rsc available_nodes].
  match goal with
  | |- context [assign_to_current_log ?a ?o ?t ?m ?i ?w 0 []] =>
      destruct (assign_to_current_log_spec a o t m i w 0 [])
        as (H1 & new1 & H2 & H3 & H4);
      destruct (assign_to_current_log a o t m i w 0 [])
        as [[ws1 assigned] log1];
      cbn [fst snd] in H1, H2, H3; rewrite <- H1
  end.
  destruct (assign_remaining_log_spec (to_uint max_total <? available_nodes)
              max_total max_per_node iter ws1 assigned log1)
    as (H5 & new2 & H6 & H7 & H8).
  split; [exact H5|]. split.
  - rewrite H7, H6, H2, !length_app, H3. cbn [length]. lia.
  - intros id Hin. rewrite H6, H2 in Hin.
    apply in_app_or in Hin. destruct Hin as [Hin|Hin]; [apply H8, Hin|].
    apply in_app_or in Hin. destruct Hin as [Hin|[]]. apply H4, Hin.
Qed.

(** The instances of a list that are still provisional. *)
Definition still_provisional (ws : pe_working_set_t) (id : string) : bool :=
  match instances ws !! id with
  | Some instance => pcmk_is_set (flags instance) pe_rsc_provisional
  | None => false
  end.

Definition limit_record (id : string) : pe__location_t :=
  mk_location "collective_limit_reached" id None (- INFINITY).

Lemma assign_remaining_limit all_coloc max_total max_per_node iter :
  forall ws assigned,
  max_total <= assigned ->
  let r := assign_remaining all_coloc max_total max_per_node iter ws
             assigned in
  r.2 = assigned
  /\ instances r.1 = instances ws
  /\ collective r.1 = collective ws
  /\ placement_constraints r.1
     = rev (map limit_record (List.filter (still_provisional ws) iter))
       ++ placement_constraints ws.
Proof.
  induction iter as [|id next IH]; intros ws assigned Hle; simpl.
  - repeat split; reflexivity.
  - unfold still_provisional at 1.
    destruct (instances ws !! id) as [instance|] eqn:Hi.
    2: { exact (IH ws assigned Hle). }
    destruct (pcmk_is_set (flags instance) pe_rsc_provisional); simpl.
    2: { exact (IH ws assigned Hle). }
    destruct (assigned >=? max_total) eqn:Hge; [|lia].
    destruct (IH (resource_location ws id None (- INFINITY)
                    "collective_limit_reached") assigned Hle)
      as (H1 & H2 & H3 & H4).
    repeat split; try assumption.
    rewrite H4. simpl. rewrite <- app_assoc. reflexivity.
Qed.

(** C2. [pcmk__assign_instances] never assigns more than [max_total]
    instances: the instances for which [assign_instance] returned true, kept
    in the log of the run, are instances of the list, as many as the final
    value of [assigned], and at most [max_total] (none when [max_total] is
    not positive).  In the final pass, once the assigned count has met
    [max_total], no further instance is assigned: every still-provisional
    instance reached is left as it is and given a location record of score
    -INFINITY under the id "collective_limit_reached".  Before that, each
    successful assignment of the final pass adds one to the assigned
    count. *)
Theorem assign_instances_max_total all_coloc max_total max_per_node :
  (forall ws iter,
     let r := pcmk__assign_instances_log ws iter max_total max_per_node in
     r.1 = pcmk__assign_instances ws iter max_total max_per_node
     /\ (forall id, In id r.2 -> In id iter)
     /\ Z.of_nat (length r.2) = r.1.2
     /\ Z.of_nat (length r.2) <= Z.max 0 max_total)
  /\ (forall iter ws assigned,
        max_total <= assigned ->
        let r := assign_remaining all_coloc max_total max_per_node iter ws
                   assigned in
        r.2 = assigned
        /\ instances r.1 = instances ws
        /\ collective r.1 = collective ws
        /\ placement_constraints r.1
           = rev (map limit_record (List.filter (still_provisional ws) iter))
             ++ placement_constraints ws)
  /\ (forall id next ws ws' assigned log,
        still_provisional ws id = true ->
        assigned < max_total ->
        assign_instance ws id None all_coloc max_per_node = (ws', true) ->
        assign_remaining all_coloc max_total max_per_node (id :: next) ws
          assigned
        = assign_remaining all_coloc max_total max_per_node next ws'
            (assigned + 1)
        /\ assign_remaining_log all_coloc max_total max_per_node
             (id :: next) ws assigned log
           = assign_remaining_log all_coloc max_total max_per_node next ws'
               (assigned + 1) (id :: log)).
Proof.
  split; [|split].
  - intros ws iter r.
    destruct (assign_instances_log_spec ws iter max_total max_per_node)
      as (H1 & H2 & H3).
    fold r in H1, H2, H3.
    split; [exact H1|]. split; [exact H3|]. split; [symmetry; exact H2|].
    rewrite <- H2, H1. unfold pcmk__assign_instances.
    destruct (reset_allowed_node_counts (collective ws))
      as [rsc available_nodes].
    match goal with
    | |- context [assign_to_current ?a ?o ?t ?m ?i ?w ?n] =>
        pose proof (assign_to_current_assigned a o t m i w n
                      (Z.le_max_l 0 t)) as H4;
        destruct (assign_to_current a o t m i w n) as [ws1 assigned]
    end.
    apply assign_remaining_assigned. exact H4.
  - intros iter ws assigned. apply assign_remaining_limit.
  - intros id next ws ws' assigned log Hp Hlt Hassign.
    cbn [assign_remaining assign_remaining_log].
    unfold still_provisional in Hp.
    destruct (instances ws !! id) as [instance|]; [|discriminate].
    rewrite Hp. cbn [negb].
    destruct (assigned >=? max_total) eqn:Hge; [lia|].
    rewrite Hassign. split; reflexivity.
Qed.

(** *** Bans, counts and the edges of the assignment *)

(** X11. [ban_unavailable_allowed_nodes] changes nothing of the instance
    but the weights of its allowed nodes: the table keeps its keys, every
    node keeps its id and count, a node that can run the instance keeps its
    weight, and every other node gets the weight -INFINITY.  An orphaned
    instance is banned from all its nodes. *)
Theorem ban_unavailable_allowed_nodes_bans ws instance max_per_node :
  let banned := ban_unavailable_allowed_nodes ws instance max_per_node in
  flags banned = flags instance
  /\ running_on banned = running_on instance
  /\ allocated_to banned = allocated_to instance
  /\ (forall k,
        allowed_nodes banned !! k = None <->
        allowed_nodes instance !! k = None)
  /\ (forall k node,
        allowed_nodes instance !! k = Some node ->
        exists banned_node,
          allowed_nodes banned !! k = Some banned_node
          /\ details banned_node = details node
          /\ count banned_node = count node
          /\ weight banned_node
             = (if can_run_instance ws instance node max_per_node
                then weight node else - INFINITY))
  /\ (pcmk_is_set (flags instance) pe_rsc_orphan = true ->
      forall k banned_node,
        allowed_nodes banned !! k = Some banned_node ->
        weight banned_node = - INFINITY).
Proof.
  intros banned. subst banned. unfold ban_unavailable_allowed_nodes.
  cbn [flags running_on allocated_to allowed_nodes set_allowed_nodes].
  split; [reflexivity|]. split; [reflexivity|]. split; [reflexivity|].
  split; [|split].
  - intros k. rewrite lookup_fmap.
    destruct (allowed_nodes instance !! k); simpl; split; congruence.
  - intros k node Hk. rewrite lookup_fmap, Hk. cbn [fmap option_fmap option_map].
    eexists. split; [reflexivity|].
    destruct (can_run_instance ws instance node max_per_node).
    + repeat split; reflexivity.
    + unfold common_update_score. cbn [details count weight set_weight].
      rewrite pcmk__add_scores_ban. repeat split; reflexivity.
  - intros Horphan k banned_node. rewrite lookup_fmap.
    destruct (allowed_nodes instance !! k) as [node|]; simpl; [|discriminate].
    intros H. injection H as <-. unfold can_run_instance. rewrite Horphan.
    unfold common_update_score. cbn [weight set_weight].
    apply pcmk__add_scores_ban.
Qed.

(** X12. When the availability of a node to run resources does not depend
    on the weight of the view asked about, banning is idempotent: a second
    [ban_unavailable_allowed_nodes] in the same working set changes
    nothing. *)
Theorem ban_unavailable_allowed_nodes_idempotent ws instance max_per_node :
  (forall node w,
     pcmk__node_available (set_weight w node) false false
     = pcmk__node_available node false false) ->
  let banned := ban_unavailable_allowed_nodes ws instance max_per_node in
  ban_unavailable_allowed_nodes ws banned max_per_node = banned.
Proof.
  intros Havail banned. subst banned. unfold ban_unavailable_allowed_nodes.
  unfold set_allowed_nodes.
  cbn [flags running_on allocated_to allowed_nodes rsc_cons rsc_cons_lhs].
  f_equal. rewrite <- map_fmap_compose. apply map_fmap_ext.
  intros k node _. cbn [compose].
  assert (Hrsc : forall r n,
            can_run_instance ws
              (mk_resource (flags instance) r (running_on instance)
                 (allocated_to instance) (rsc_cons instance)
                 (rsc_cons_lhs instance)) n max_per_node
            = can_run_instance ws instance n max_per_node)
    by reflexivity.
  assert (Hweight : forall w n,
            can_run_instance ws instance (set_weight w n) max_per_node
            = can_run_instance ws instance n max_per_node).
  { intros w n. unfold can_run_instance, pcmk__top_allowed_node.
    cbn [details set_weight]. rewrite Havail. reflexivity. }
  rewrite Hrsc.
  destruct (can_run_instance ws instance node max_per_node) eqn:Hcan.
  - rewrite Hcan. reflexivity.
  - unfold common_update_score at 1. rewrite Hweight, Hcan.
    unfold common_update_score, set_weight. cbn [details weight count].
    rewrite !pcmk__add_scores_ban. reflexivity.
Qed.

(** X13. [reset_allowed_node_counts] sets every count of the table to zero
    and keeps keys, ids and weights; the number it returns lies between zero
    and the size of the table, and is zero exactly when no node of the table
    is available to run resources. *)
Theorem reset_allowed_node_counts_spec rsc :
  let r := reset_allowed_node_counts rsc in
  (forall k,
     allowed_nodes r.1 !! k
     = (fun node => mk_node (details node) (weight node) 0)
       <$> allowed_nodes rsc !! k)
  /\ 0 <= r.2 <= Z.of_nat (size (allowed_nodes rsc))
  /\ (r.2 = 0 <->
      forall k node,
        allowed_nodes rsc !! k = Some node ->
        pcmk__node_available (set_count 0 node) false false = false).
Proof.
  intros r. subst r. unfold reset_allowed_node_counts. cbn [fst snd].
  cbn [allowed_nodes set_allowed_nodes].
  split; [|split].
  - intros k. rewrite lookup_fmap. reflexivity.
  - split; [lia|]. apply inj_le.
    etransitivity; [apply List.filter_length_le|].
    rewrite length_map, length_map_to_list, map_size_fmap. reflexivity.
  - split.
    + intros Hzero k node Hk.
      destruct (pcmk__node_available (set_count 0 node) false false) eqn:Ha;
        [|reflexivity].
      exfalso.
      assert (Hin : In (set_count 0 node)
                (List.filter
                   (fun node => pcmk__node_available node false false)
                   (map snd
                      (map_to_list (set_count 0 <$> allowed_nodes rsc))))).
      { apply List.filter_In. split; [|exact Ha].
        apply in_map_iff. exists (k, set_count 0 node). split; [reflexivity|].
        apply list_elem_of_In, elem_of_map_to_list.
        rewrite lookup_fmap, Hk. reflexivity. }
      destruct (List.filter _ _); [destruct Hin|]. simpl in Hzero. lia.
    + intros Hnone.
      replace (List.filter
                 (fun node => pcmk__node_available node false false)
                 (map snd (map_to_list (set_count 0 <$> allowed_nodes rsc))))
        with (@nil pe_node_t); [reflexivity|].
      symmetry.
      destruct (List.filter _ _) as [|node rest] eqn:Hf; [reflexivity|].
      exfalso.
      assert (Hin : In node (node :: rest)) by (left; reflexivity).
      rewrite <- Hf in Hin. apply List.filter_In in Hin.
      destruct Hin as [Hin Ha]. apply in_map_iff in Hin.
      destruct Hin as ([k n] & Hn & Hin). cbn [snd] in Hn. subst n.
      apply list_elem_of_In, elem_of_map_to_list in Hin.
      rewrite lookup_fmap in Hin.
      destruct (allowed_nodes rsc !! k) as [n0|] eqn:Hk; [|discriminate].
      injection Hin as <-. rewrite (Hnone k n0 Hk) in Ha. discriminate.
Qed.

(** X14. With [max_total] zero or negative, [pcmk__assign_instances]
    assigns nothing: the assigned count stays zero, no instance changes, the
    collective only has its counts reset, and every listed instance that is
    provisional gets the location record of the reached limit. *)
Theorem assign_instances_none ws instances max_total max_per_node :
  max_total <= 0 ->
  let r := pcmk__assign_instances ws instances max_total max_per_node in
  r.2 = 0
  /\ Placement.instances r.1 = Placement.instances ws
  /\ collective r.1 = (reset_allowed_node_counts (collective ws)).1
  /\ placement_constraints r.1
     = rev (map limit_record (List.filter (still_provisional ws) instances))
       ++ placement_constraints ws.
Proof.
  intros Hmax r. subst r. unfold pcmk__assign_instances.
  destruct (reset_allowed_node_counts (collective ws))
    as [rsc available_nodes].
  cbn [fst].
  match goal with
  | |- context [assign_to_current ?a ?o ?t ?m ?i ?w 0] =>
      assert (Hfirst : assign_to_current a o t m i w 0 = (w, 0))
  end.
  { destruct instances as [|id next]; [reflexivity|].
    cbn [assign_to_current].
    replace (0 <? max_total) with false
      by (symmetry; apply Z.ltb_ge; exact Hmax).
    reflexivity. }
  rewrite Hfirst.
  match goal with
  | |- context [assign_remaining ?a ?t ?m ?i ?w 0] =>
      destruct (assign_remaining_limit a t m i w 0 Hmax)
        as (H1 & H2 & H3 & H4)
  end.
  repeat split; assumption.
Qed.

(** X15. An early assignment of a provisional instance that succeeds has
    put the instance on the preferred node: the instance allowed that node
    with a weight that is not negative, the assign method, run after the
    ban, chose it, and the working set is the one the method left with the
    node counted. *)
Theorem assign_instance_prefer_success ws id instance prefer all_coloc
    max_per_node ws' :
  instances ws !! id = Some instance ->
  pcmk_is_set (flags instance) pe_rsc_provisional = true ->
  assign_instance ws id (Some prefer) all_coloc max_per_node = (ws', true) ->
  (exists allowed,
     allowed_nodes instance !! details prefer = Some allowed
     /\ 0 <= weight allowed)
  /\ exists ws1 chosen,
       cmds_assign
         (put_instance ws id
            (ban_unavailable_allowed_nodes ws instance max_per_node))
         id (Some prefer) = (ws1, Some chosen)
       /\ details chosen = details prefer
       /\ ws' = (count_chosen ws1 (Some chosen)).1.
Proof.
  intros Hi Hp. unfold assign_instance. rewrite Hi, Hp. cbn [negb].
  destruct (pcmk_is_set (flags instance) pe_rsc_allocating);
    [discriminate|].
  destruct (allowed_nodes instance !! details prefer) as [allowed|];
    [|discriminate].
  destruct (weight allowed <? 0) eqn:Hw; [discriminate|].
  apply Z.ltb_ge in Hw.
  destruct (cmds_assign _ id (Some prefer)) as [ws1 chosen].
  destruct chosen as [c|]; [|discriminate].
  destruct (String.eqb (details c) (details prefer)) eqn:He; cbn [negb].
  2: { discriminate. }
  apply String.eqb_eq in He. intros H.
  split; [exists allowed; split; [reflexivity|exact Hw]|].
  exists ws1, c. split; [reflexivity|]. split; [exact He|].
  rewrite H. reflexivity.
Qed.

End Assign.

(** *** A sample cluster

    Sample values for what the sources leave open: flag bits, nodes "a" and
    "b" online and "c" offline, an assign method that takes the allowed node
    of best score, and colocation lists that grow at the front. *)

Definition sample_orphan : Z := 1.
Definition sample_provisional : Z := 256.
Definition sample_allocating : Z := 512.
Definition sample_failed : Z := 65536.

Definition sample_node_available (node : pe_node_t)
    (consider_score consider_guest : bool) : bool :=
  existsb (String.eqb (details node)) ["a"; "b"]%string
  && negb (consider_score && (weight node <? 0)).

Definition sample_current_node (rsc : pe_resource_t) : option pe_node_t :=
  head (running_on rsc).

Definition sample_location (ws : pe_working_set_t) (id : string)
    (current : bool) : option pe_node_t :=
  match instances ws !! id with
  | Some rsc => allocated_to rsc
  | None => None
  end.

Definition sample_better (best : option pe_node_t) (node : pe_node_t)
  : option pe_node_t :=
  if weight node <? 0 then best
  else
    match best with
    | None => Some node
    | Some b => if weight b <? weight node then Some node else Some b
    end.

Definition sample_choose (nodes : gmap string pe_node_t)
  : option pe_node_t :=
  fold_left sample_better (map snd (map_to_list nodes)) None.

Definition sample_assign (ws : pe_working_set_t) (id : string)
    (prefer : option pe_node_t) : pe_working_set_t * option pe_node_t :=
  match instances ws !! id with
  | None => (ws, None)
  | Some rsc =>
      match sample_choose (allowed_nodes rsc) with
      | None => (ws, None)
      | Some node =>
          (put_instance ws id
             (mk_resource (Z.ldiff (flags rsc) sample_provisional)
                (allowed_nodes rsc) (running_on rsc) (Some node)
                (rsc_cons rsc) (rsc_cons_lhs rsc)),
           Some node)
      end
  end.

Definition sample_add_this_with (rsc : pe_resource_t)
    (cons : pcmk__colocation_t) : pe_resource_t :=
  mk_resource (flags rsc) (allowed_nodes rsc) (running_on rsc)
    (allocated_to rsc) (cons :: rsc_cons rsc) (rsc_cons_lhs rsc).

Definition sample_add_with_this (rsc : pe_resource_t)
    (cons : pcmk__colocation_t) : pe_resource_t :=
  mk_resource (flags rsc) (allowed_nodes rsc) (running_on rsc)
    (allocated_to rsc) (rsc_cons rsc) (cons :: rsc_cons_lhs rsc).

Definition sample_has_influence (cons : pcmk__colocation_t)
    (rsc : pe_resource_t) : bool :=
  influence cons
  || match running_on rsc with [] => true | _ :: _ => false end.

Definition node_a : pe_node_t := mk_node "a" 0 0.
Definition node_b : pe_node_t := mk_node "b" 10 0.
Definition node_c : pe_node_t := mk_node "c" 0 0.

Definition sample_nodes : gmap string pe_node_t :=
  list_to_map [("a", node_a); ("b", node_b); ("c", node_c)]%string.

(** A provisional instance active on node "a". *)
Definition sample_instance : pe_resource_t :=
  mk_resource sample_provisional sample_nodes [node_a] None [] [].

(** A provisional instance that is not active. *)
Definition sample_stopped : pe_resource_t :=
  mk_resource sample_provisional sample_nodes [] None [] [].

Definition sample_mandatory : pcmk__colocation_t :=
  mk_colocation "with-db" "db" "clone" INFINITY true.

Definition sample_collective : pe_resource_t :=
  mk_resource 0 sample_nodes [] None [] [sample_mandatory].

Definition sample_ws : pe_working_set_t :=
  mk_working_set sample_collective
    (list_to_map [("i1", sample_instance); ("i2", sample_stopped);
                  ("i3", sample_stopped)]%string)
    [].

(** The same cluster when the collective is no longer allowed anywhere. *)
Definition sample_ws_disallowed : pe_working_set_t :=
  mk_working_set (mk_resource 0 ∅ [] None [] [])
    (instances sample_ws) [].

Definition sample_assign_instances (ws : pe_working_set_t)
    (iter : list string) (max_total max_per_node : Z) :=
  pcmk__assign_instances sample_orphan sample_provisional sample_allocating
    sample_failed sample_node_available sample_current_node sample_location
    sample_assign sample_add_this_with sample_add_with_this
    sample_has_influence ws iter max_total max_per_node.

Definition sample_assign_instance (ws : pe_working_set_t) (id : string)
    (prefer : option pe_node_t) (max_per_node : Z) :=
  assign_instance sample_orphan sample_provisional sample_allocating
    sample_node_available sample_location sample_assign ws id prefer false
    max_per_node.

Lemma sample_assign_keeps_counts ws id prefer ws' chosen k :
  sample_assign ws id prefer = (ws', chosen) ->
  count <$> allowed_nodes (collective ws') !! k
  = count <$> allowed_nodes (collective ws) !! k.
Proof.
  unfold sample_assign.
  destruct (instances ws !! id) as [rsc|].
  - destruct (sample_choose (allowed_nodes rsc)); intros H;
      injection H as <- _; reflexivity.
  - intros H. injection H as <- _. reflexivity.
Qed.

Lemma sample_better_fold nodes : forall best chosen,
  fold_left sample_better nodes best = Some chosen ->
  (best = Some chosen \/ In chosen nodes)
  /\ ((forall b, best = Some b -> 0 <= weight b) -> 0 <= weight chosen).
Proof.
  induction nodes as [|n nodes IH]; intros best chosen H; simpl in H.
  - split; [left; exact H|]. intros Hb. apply Hb, H.
  - destruct (IH _ _ H) as [Hin Hw]. unfold sample_better in Hin, Hw.
    destruct (weight n <? 0) eqn:Hn.
    + split; [destruct Hin; [left|right; right]; assumption|exact Hw].
    + apply Z.ltb_ge in Hn. split.
      * destruct best as [b|]; [destruct (weight b <? weight n)|];
          destruct Hin as [Heq|Hin];
          try (right; right; exact Hin);
          try (left; exact Heq);
          injection Heq as <-; right; left; reflexivity.
      * intros Hb. apply Hw. intros b' Hb'.
        destruct best as [b|]; [destruct (weight b <? weight n)|];
          injection Hb' as <-; try exact Hn. apply Hb. reflexivity.
Qed.

Lemma sample_assign_chooses_allowed ws id prefer ws' chosen instance top :
  sample_assign ws id prefer = (ws', Some chosen) ->
  instances ws !! id = Some instance ->
  pcmk__top_allowed_node ws' chosen = Some top ->
  exists k allowed,
    allowed_nodes instance !! k = Some allowed
    /\ details allowed = details chosen
    /\ - INFINITY < weight allowed.
Proof.
  unfold sample_assign. intros H Hi _. rewrite Hi in H.
  destruct (sample_choose (allowed_nodes instance)) as [n|] eqn:Hc;
    [|discriminate].
  injection H as _ <-.
  destruct (sample_better_fold _ _ _ Hc) as [[Hn|Hin] Hw]; [discriminate|].
  apply in_map_iff in Hin. destruct Hin as ([k a] & Ha & Hin).
  simpl in Ha. subst a.
  apply list_elem_of_In, elem_of_map_to_list in Hin.
  exists k, n. split; [exact Hin|]. split; [reflexivity|].
  assert (0 <= weight n) by (apply Hw; intros b Hb; discriminate).
  unfold INFINITY. lia.
Qed.

(** On the sample cluster the preferred node of the active instance is its
    current node "a", although the collective has no view of "a" at all. *)
Lemma preferred_node_without_top_view :
  preferred_node sample_provisional sample_failed sample_node_available
    sample_current_node sample_ws_disallowed sample_instance 1
  = Some node_a
  /\ pcmk__top_allowed_node sample_ws_disallowed node_a = None.
Proof. split; vm_compute; reflexivity. Qed.

(** A mandatory "with this" colocation of the parent, with influence on the
    child, is not copied when [all] is false. *)
Lemma with_this_infinite_not_copied :
  In sample_mandatory (rsc_cons_lhs sample_collective)
  /\ sample_has_influence sample_mandatory sample_instance = true
  /\ score sample_mandatory = INFINITY
  /\ rsc_cons_lhs
       (append_parent_colocation sample_add_this_with sample_add_with_this
          sample_has_influence sample_collective sample_instance false)
     = [].
Proof. repeat split; try reflexivity. left. reflexivity. Qed.

Lemma append_parent_colocation_copies_witness :
  (In sample_mandatory
     (rsc_cons
        (append_parent_colocation sample_add_this_with sample_add_with_this
           sample_has_influence sample_collective sample_instance true)) <->
   In sample_mandatory (rsc_cons sample_instance)
   \/ (In sample_mandatory (rsc_cons sample_collective)
       /\ true || (score sample_mandatory <? 0)
          || (score sample_mandatory =? INFINITY) = true))
  /\ (In sample_mandatory
        (rsc_cons_lhs
           (append_parent_colocation sample_add_this_with
              sample_add_with_this sample_has_influence sample_collective
              sample_instance true)) <->
      In sample_mandatory (rsc_cons_lhs sample_instance)
      \/ (In sample_mandatory (rsc_cons_lhs sample_collective)
          /\ sample_has_influence sample_mandatory sample_instance = true
          /\ true || (score sample_mandatory <? 0) = true)).
Proof.
  apply (append_parent_colocation_copies sample_add_this_with
           sample_add_with_this sample_has_influence).
  - intros child cons e. simpl. split; intros [H|H]; auto.
  - reflexivity.
  - intros child cons e. simpl. split; intros [H|H]; auto.
  - reflexivity.
  - reflexivity.
  - reflexivity.
Defined.

(** The early assignment of the sample instance to "a" fails because "b" is
    the better node; afterwards node "c", allowed with score 0 before the
    call, is banned in the instance's table. *)
Lemma rollback_keeps_ban :
  (sample_assign_instance sample_ws "i1" (Some node_a) 1).2 = false
  /\ weight <$> allowed_nodes sample_instance !! "c" = Some 0
  /\ (instances (sample_assign_instance sample_ws "i1" (Some node_a) 1).1
        !! "i1") ≫= (fun r => weight <$> allowed_nodes r !! "c")
     = Some (- INFINITY).
Proof. repeat split; vm_compute; reflexivity. Qed.

Lemma assign_instance_prefer_failure_witness :
  exists ws',
    sample_assign_instance sample_ws "i1" (Some node_a) 1 = (ws', false)
    /\ forall instance',
         instances ws' !! "i1" = Some instance' ->
         allowed_nodes instance'
         = allowed_nodes
             (ban_unavailable_allowed_nodes sample_orphan
                sample_node_available sample_ws sample_instance 1)
         /\ allocated_to instance' = None
         /\ pcmk_is_set (flags instance') sample_provisional = true.
Proof.
  destruct (assign_instance_prefer_failure sample_orphan sample_provisional
              sample_allocating sample_node_available sample_location
              sample_assign sample_ws "i1" sample_instance node_a false 1)
    as [_ Hrollback].
  - reflexivity.
  - reflexivity.
  - reflexivity.
  - destruct (Hrollback node_a
                (sample_assign
                   (put_instance sample_ws "i1"
                      (ban_unavailable_allowed_nodes sample_orphan
                         sample_node_available sample_ws sample_instance 1))
                   "i1" (Some node_a)).1
                node_b)
      as (ws' & Hfail & _ & _ & Hinstance).
    + reflexivity.
    + simpl. lia.
    + vm_compute. reflexivity.
    + discriminate.
    + exists ws'. split; [exact Hfail|exact Hinstance].
Defined.

(** An unmanaged instance stays where it is active: its assign method takes
    the current node, whatever the scores of the instance's table. *)
Definition sample_assign_unmanaged (ws : pe_working_set_t) (id : string)
    (prefer : option pe_node_t) : pe_working_set_t * option pe_node_t :=
  match instances ws !! id with
  | None => (ws, None)
  | Some rsc =>
      match sample_current_node rsc with
      | None => (ws, None)
      | Some node =>
          (put_instance ws id
             (mk_resource (Z.ldiff (flags rsc) sample_provisional)
                (allowed_nodes rsc) (running_on rsc) (Some node)
                (rsc_cons rsc) (rsc_cons_lhs rsc)),
           Some node)
      end
  end.

(** Two unmanaged instances, both active on node "a". *)
Definition sample_ws_unmanaged : pe_working_set_t :=
  mk_working_set sample_collective
    (list_to_map [("u1", sample_instance); ("u2", sample_instance)]%string)
    [].

Definition sample_assign_unmanaged_instances (ws : pe_working_set_t)
    (iter : list string) (max_total max_per_node : Z) :=
  pcmk__assign_instances sample_orphan sample_provisional sample_allocating
    sample_failed sample_node_available sample_current_node sample_location
    sample_assign_unmanaged sample_add_this_with sample_add_with_this
    sample_has_influence ws iter max_total max_per_node.

(** The same instances when the collective is no longer allowed anywhere. *)
Definition sample_ws_unmanaged_disallowed : pe_working_set_t :=
  mk_working_set (mk_resource 0 ∅ [] None [] [])
    (instances sample_ws_unmanaged) [].

(** With [max_per_node] 1, the second unmanaged instance is banned from
    node "a", which already counts one instance; its assign method keeps it
    on "a" all the same, and the collective's view of "a" then counts two
    instances, both assigned to "a".  When the collective has no view of "a"
    at all, the assignment of an instance to "a" succeeds and no count
    records it: both instances end on "a" again. *)
Lemma unmanaged_exceeds_max_per_node :
  (count
     <$> allowed_nodes
           (collective
              (sample_assign_unmanaged_instances sample_ws_unmanaged
                 ["u1"; "u2"] 2 1).1) !! "a"
   = Some 2
   /\ ~ 2 <= 1
   /\ (instances
         (sample_assign_unmanaged_instances sample_ws_unmanaged
            ["u1"; "u2"] 2 1).1 !! "u1") ≫= allocated_to
      = Some node_a
   /\ (instances
         (sample_assign_unmanaged_instances sample_ws_unmanaged
            ["u1"; "u2"] 2 1).1 !! "u2") ≫= allocated_to
      = Some node_a
   /\ (instances
         (sample_assign_unmanaged_instances sample_ws_unmanaged
            ["u1"; "u2"] 2 1).1 !! "u2")
      ≫= (fun r => weight <$> allowed_nodes r !! "a")
      = Some (- INFINITY))
  /\ (pcmk__top_allowed_node sample_ws_unmanaged_disallowed node_a = None
      /\ (assign_instance sample_orphan sample_provisional sample_allocating
            sample_node_available sample_location sample_assign_unmanaged
            sample_ws_unmanaged_disallowed "u1" (Some node_a) false 1).2
         = true
      /\ collective
           (assign_instance sample_orphan sample_provisional
              sample_allocating sample_node_available sample_location
              sample_assign_unmanaged sample_ws_unmanaged_disallowed "u1"
              (Some node_a) false 1).1
         = collective sample_ws_unmanaged_disallowed
      /\ (instances
            (sample_assign_unmanaged_instances
               sample_ws_unmanaged_disallowed ["u1"; "u2"] 2 1).1 !! "u1")
         ≫= allocated_to
         = Some node_a
      /\ (instances
            (sample_assign_unmanaged_instances
               sample_ws_unmanaged_disallowed ["u1"; "u2"] 2 1).1 !! "u2")
         ≫= allocated_to
         = Some node_a).
Proof.
  split.
  - split; [vm_compute; reflexivity|]. split; [lia|].
    repeat split; vm_compute; reflexivity.
  - repeat split; vm_compute; reflexivity.
Qed.

Lemma assign_instances_max_per_node_witness :
  (forall k n,
     allowed_nodes
       (collective
          (sample_assign_instances sample_ws ["i1"; "i2"; "i3"] 3 1).1)
       !! k = Some n ->
     count n <= Z.max 0 1)
  /\ weight
       <$> allowed_nodes
             (ban_unavailable_allowed_nodes sample_orphan
                sample_node_available
                (sample_assign_instance sample_ws "i2" None 1).1
                sample_stopped 1) !! "b"
     = Some (- INFINITY)
  /\ (sample_assign_instance sample_ws "i2" None 1).2 = true
  /\ count
       <$> allowed_nodes
             (collective (sample_assign_instance sample_ws "i2" None 1).1)
           !! "b"
     = Some 1
  /\ count
       <$> allowed_nodes
             (collective (sample_assign_instance sample_ws "i2" None 1).1)
           !! "a"
     = Some 0.
Proof.
  destruct (assign_instances_max_per_node sample_orphan sample_provisional
              sample_allocating sample_failed sample_node_available
              sample_current_node sample_location sample_assign
              sample_add_this_with sample_add_with_this sample_has_influence
              sample_assign_keeps_counts sample_assign_chooses_allowed
              sample_ws ["i1"; "i2"; "i3"]%string 3 1)
    as (Hbound & Hban & Hcount).
  split; [exact Hbound|]. split.
  - apply (Hban (sample_assign_instance sample_ws "i2" None 1).1
             sample_stopped "b"%string node_b (mk_node "b" 10 1)).
    + reflexivity.
    + vm_compute. reflexivity.
    + simpl. lia.
  - destruct (Hcount sample_ws "i2"%string sample_stopped None false
                (sample_assign
                   (put_instance sample_ws "i2"
                      (ban_unavailable_allowed_nodes sample_orphan
                         sample_node_available sample_ws sample_stopped 1))
                   "i2" None).1
                node_b)
      as (Hok & Hchosen & Hothers).
    + reflexivity.
    + reflexivity.
    + reflexivity.
    + intros p Hp. discriminate.
    + vm_compute. reflexivity.
    + split; [exact Hok|]. split; [exact Hchosen|].
      assert (Hne : "a"%string <> details node_b) by discriminate.
      exact (eq_trans (Hothers "a"%string Hne) eq_refl).
Defined.

(** On the sample cluster two of three instances find a node when each node
    takes one, and both online nodes then count one instance. *)
Example sample_counts :
  (sample_assign_instances sample_ws ["i1"; "i2"; "i3"] 3 1).2 = 2
  /\ map (fun kn => (kn.1, count kn.2))
       (map_to_list
          (allowed_nodes
             (collective
                (sample_assign_instances sample_ws ["i1"; "i2"; "i3"] 3
                   1).1)))
     = [("c", 0); ("a", 1); ("b", 1)]%string.
Proof. split; vm_compute; reflexivity. Qed.

(** With [max_total] 1 the two instances left over are given location
    records of score -INFINITY under the id "collective_limit_reached". *)
Example sample_limit_records :
  placement_constraints
    (sample_assign_instances sample_ws ["i1"; "i2"; "i3"] 1 1).1
  = [limit_record "i3"; limit_record "i2"]
  /\ location_id (limit_record "i3") = "collective_limit_reached"%string
  /\ location_score (limit_record "i3") = - INFINITY.
Proof. split; [vm_compute; reflexivity|]. split; reflexivity. Qed.

Definition sample_assign_instances_log (ws : pe_working_set_t)
    (iter : list string) (max_total max_per_node : Z) :=
  pcmk__assign_instances_log sample_orphan sample_provisional
    sample_allocating sample_failed sample_node_available
    sample_current_node sample_location sample_assign sample_add_this_with
    sample_add_with_this sample_has_influence ws iter max_total max_per_node.

(** The instances of a list that have a node. *)
Definition sample_assigned (ws : pe_working_set_t) (iter : list string)
  : list string :=
  List.filter
    (fun id =>
       match sample_location ws id false with
       | Some _ => true
       | None => false
       end)
    iter.

Lemma assign_instances_max_total_witness :
  ((sample_assign_instances_log sample_ws ["i1"; "i2"; "i3"] 1 1).1
   = sample_assign_instances sample_ws ["i1"; "i2"; "i3"] 1 1
   /\ (sample_assign_instances_log sample_ws ["i1"; "i2"; "i3"] 1 1).2
      = ["i1"]%string
   /\ Z.of_nat
        (length
           (sample_assign_instances_log sample_ws ["i1"; "i2"; "i3"] 1 1).2)
      <= Z.max 0 1
   /\ sample_assigned
        (sample_assign_instances sample_ws ["i1"; "i2"; "i3"] 1 1).1
        ["i1"; "i2"; "i3"]
      = ["i1"]%string)
  /\ ((sample_assign_instances_log sample_ws ["i1"; "i2"; "i3"] 3 1).2
      = ["i2"; "i1"]%string
      /\ Z.of_nat
           (length
              (sample_assign_instances_log sample_ws ["i1"; "i2"; "i3"] 3
                 1).2)
         = (sample_assign_instances sample_ws ["i1"; "i2"; "i3"] 3 1).2)
  /\ placement_constraints
       (assign_remaining sample_orphan sample_provisional sample_allocating
          sample_node_available sample_location sample_assign false 0 1
          ["i1"; "i2"] sample_ws 0).1
     = [limit_record "i2"; limit_record "i1"]
  /\ assign_remaining sample_orphan sample_provisional sample_allocating
       sample_node_available sample_location sample_assign false 3 1
       ["i2"; "i3"] sample_ws 0
     = assign_remaining sample_orphan sample_provisional sample_allocating
         sample_node_available sample_location sample_assign false 3 1
         ["i3"] (sample_assign_instance sample_ws "i2" None 1).1 (0 + 1).
Proof.
  destruct (assign_instances_max_total sample_orphan sample_provisional
              sample_allocating sample_failed sample_node_available
              sample_current_node sample_location sample_assign
              sample_add_this_with sample_add_with_this sample_has_influence
              false 1 1) as (Hone & _ & _).
  destruct (assign_instances_max_total sample_orphan sample_provisional
              sample_allocating sample_failed sample_node_available
              sample_current_node sample_location sample_assign
              sample_add_this_with sample_add_with_this sample_has_influence
              false 3 1) as (Htotal & _ & Hstep).
  destruct (assign_instances_max_total sample_orphan sample_provisional
              sample_allocating sample_failed sample_node_available
              sample_current_node sample_location sample_assign
              sample_add_this_with sample_add_with_this sample_has_influence
              false 0 1) as (_ & Hlimit & _).
  split; [|split; [|split]].
  - destruct (Hone sample_ws ["i1"; "i2"; "i3"]%string)
      as (Hrun & _ & _ & Hle).
    split; [exact Hrun|]. split; [vm_compute; reflexivity|].
    split; [exact Hle|]. vm_compute. reflexivity.
  - destruct (Htotal sample_ws ["i1"; "i2"; "i3"]%string)
      as (Hrun & _ & Hlen & _).
    split; [vm_compute; reflexivity|].
    unfold sample_assign_instances_log, sample_assign_instances.
    rewrite Hlen, Hrun. reflexivity.
  - destruct (Hlimit ["i1"; "i2"]%string sample_ws 0) as (_ & _ & _ & H);
      [lia|].
    rewrite H. reflexivity.
  - apply (Hstep "i2"%string ["i3"]%string sample_ws
             (sample_assign_instance sample_ws "i2" None 1).1 0 []).
    + reflexivity.
    + lia.
    + vm_compute. reflexivity.
Defined.

(** *** Counts and bans on the sample cluster *)

(** A provisional instance active on node "b", the node of best score. *)
Definition sample_on_b : pe_resource_t :=
  mk_resource sample_provisional sample_nodes [node_b] None [] [].

Definition sample_ws_b : pe_working_set_t :=
  mk_working_set sample_collective
    (list_to_map [("i4", sample_on_b)]%string) [].

Lemma assign_instance_counts_witness :
  ((sample_assign_instance sample_ws "i1" (Some node_a) 1).2 = false
   /\ forall k,
        count
          <$> allowed_nodes
                (collective
                   (sample_assign_instance sample_ws "i1" (Some node_a) 1).1)
              !! k
        = count <$> allowed_nodes (collective sample_ws) !! k)
  /\ ((sample_assign_instance sample_ws_b "i4" (Some node_b) 1).2 = true
      /\ exists ws1 chosen,
           sample_assign
             (put_instance sample_ws_b "i4"
                (ban_unavailable_allowed_nodes sample_orphan
                   sample_node_available sample_ws_b sample_on_b 1))
             "i4" (Some node_b) = (ws1, Some chosen)
           /\ details chosen = "b"%string
           /\ (sample_assign_instance sample_ws_b "i4" (Some node_b) 1).1
              = (count_chosen ws1 (Some chosen)).1
           /\ count
                <$> allowed_nodes
                      (collective
                         (sample_assign_instance sample_ws_b "i4"
                            (Some node_b) 1).1) !! "b"
              = Some 1).
Proof.
  split.
  - split; [vm_compute; reflexivity|].
    apply (proj1
             (assign_instance_counts sample_orphan sample_provisional
                sample_allocating sample_node_available sample_location
                sample_assign sample_assign_keeps_counts sample_ws "i1"
                (Some node_a) false 1)).
    vm_compute. reflexivity.
  - assert (Hok : (sample_assign_instance sample_ws_b "i4" (Some node_b)
                     1).2 = true) by (vm_compute; reflexivity).
    split; [exact Hok|].
    destruct (proj2
                (assign_instance_counts sample_orphan sample_provisional
                   sample_allocating sample_node_available sample_location
                   sample_assign sample_assign_keeps_counts sample_ws_b "i4"
                   (Some node_b) false 1)
                sample_on_b Hok eq_refl eq_refl)
      as (ws1 & chosen & Ha & Hd & Hr & Hc & _).
    exists ws1, chosen. split; [exact Ha|].
    pose proof (Hd node_b eq_refl) as Hb. split; [exact Hb|].
    split; [exact Hr|]. rewrite Hb in Hc. exact Hc.
Defined.

Lemma ban_unavailable_allowed_nodes_idempotent_witness :
  ban_unavailable_allowed_nodes sample_orphan sample_node_available sample_ws
    (ban_unavailable_allowed_nodes sample_orphan sample_node_available
       sample_ws sample_instance 1) 1
  = ban_unavailable_allowed_nodes sample_orphan sample_node_available
      sample_ws sample_instance 1.
Proof.
  apply (ban_unavailable_allowed_nodes_idempotent sample_orphan
           sample_node_available sample_ws sample_instance 1).
  intros node w. reflexivity.
Defined.

Lemma assign_instances_none_witness :
  (sample_assign_instances sample_ws ["i1"; "i2"] 0 1).2 = 0
  /\ instances (sample_assign_instances sample_ws ["i1"; "i2"] 0 1).1
     = instances sample_ws
  /\ placement_constraints
       (sample_assign_instances sample_ws ["i1"; "i2"] 0 1).1
     = [limit_record "i2"; limit_record "i1"].
Proof.
  destruct (assign_instances_none sample_orphan sample_provisional
              sample_allocating sample_failed sample_node_available
              sample_current_node sample_location sample_assign
              sample_add_this_with sample_add_with_this sample_has_influence
              sample_ws ["i1"; "i2"]%string 0 1) as (H1 & H2 & _ & H4).
  - lia.
  - split; [exact H1|]. split; [exact H2|].
    unfold sample_assign_instances. rewrite H4. reflexivity.
Defined.

Lemma assign_instance_prefer_success_witness :
  exists ws1 chosen,
    sample_assign
      (put_instance sample_ws_b "i4"
         (ban_unavailable_allowed_nodes sample_orphan sample_node_available
            sample_ws_b sample_on_b 1))
      "i4" (Some node_b) = (ws1, Some chosen)
    /\ details chosen = details node_b
    /\ (sample_assign_instance sample_ws_b "i4" (Some node_b) 1).1
       = (count_chosen ws1 (Some chosen)).1.
Proof.
  pose proof (surjective_pairing
                (sample_assign_instance sample_ws_b "i4" (Some node_b) 1))
    as Hpair.
  assert (Hok : (sample_assign_instance sample_ws_b "i4" (Some node_b) 1).2
                = true) by (vm_compute; reflexivity).
  rewrite Hok in Hpair.
  destruct (assign_instance_prefer_success sample_orphan sample_provisional
              sample_allocating sample_node_available sample_location
              sample_assign sample_ws_b "i4" sample_on_b node_b false 1
              (sample_assign_instance sample_ws_b "i4" (Some node_b) 1).1)
    as [_ H].
  - reflexivity.
  - reflexivity.
  - exact Hpair.
  - exact H.
Defined.

Lemma assign_instances_total_witness :
  total_count
    (allowed_nodes
       (collective
          (sample_assign_instances sample_ws ["i1"; "i2"; "i3"] 3 1).1))
  <= (sample_assign_instances sample_ws ["i1"; "i2"; "i3"] 3 1).2.
Proof.
  apply (assign_instances_total sample_orphan sample_provisional
           sample_allocating sample_failed sample_node_available
           sample_current_node sample_location sample_assign
           sample_add_this_with sample_add_with_this sample_has_influence
           sample_assign_keeps_counts sample_ws ["i1"; "i2"; "i3"]%string
           3 1).
Defined.

End Placement.

(** ** Instance state, summary flags and interleaved orderings *)

Module Orchestration.

(** [enum pe_obj_types] is declared outside these sources; its values are
    ordered, a primitive being [pe_native] and every collective above it. *)
Inductive pe_obj_types :=
| pe_unknown
| pe_native
| pe_group
| pe_clone
| pe_container.

Definition variant_value (v : pe_obj_types) : Z :=
  match v with
  | pe_unknown => -1
  | pe_native => 0
  | pe_group => 1
  | pe_clone => 2
  | pe_container => 3
  end.

(** [enum rsc_role_e] is declared outside these sources. *)
Inductive rsc_role_e :=
| RSC_ROLE_UNKNOWN
| RSC_ROLE_STOPPED
| RSC_ROLE_STARTED
| RSC_ROLE_UNPROMOTED
| RSC_ROLE_PROMOTED.

(** [enum action_tasks] of crm/common/actions.h. *)
Inductive action_tasks :=
| pcmk_action_unspecified
| pcmk_action_monitor
| pcmk_action_stop
| pcmk_action_stopped
| pcmk_action_start
| pcmk_action_started
| pcmk_action_notify
| pcmk_action_notified
| pcmk_action_promote
| pcmk_action_promoted
| pcmk_action_demote
| pcmk_action_demoted
| pcmk_action_shutdown
| pcmk_action_fence.

Definition no_action : action_tasks := pcmk_action_unspecified.

(** Action names of crm/common/actions.h. *)
Definition PCMK_ACTION_START : string := "start".
Definition PCMK_ACTION_STOP : string := "stop".
Definition PCMK_ACTION_STOPPED : string := "stopped".
Definition PCMK_ACTION_PROMOTE : string := "promote".
Definition PCMK_ACTION_PROMOTED : string := "promoted".
Definition PCMK_ACTION_DEMOTE : string := "demote".
Definition PCMK_ACTION_DEMOTED : string := "demoted".
Definition PCMK_ACTION_NOTIFY : string := "notify".
Definition PCMK_ACTION_NOTIFIED : string := "notified".

(** A node as a resource sees it; [details] stands for the shared
    [node->details]. *)
Record pe_node_t := mk_node {
  details : string;
  weight : Z;
  count : Z
}.

Record pe_action_t := mk_action {
  uuid : string;
  task : string;
  flags : Z;
  node : option pe_node_t
}.

(** The members of [pe_resource_t] read below. *)
#[warnings="-register-all"]
Inductive pe_resource_t := mk_resource {
  id : string;
  variant : pe_obj_types;
  children : list pe_resource_t;
  actions : list pe_action_t;
  running_on : list pe_node_t;
  allowed_nodes : gmap string pe_node_t;
  meta : gmap string string
}.

(** Induction over a resource and all the resources below it. *)
Section ResourceInduction.

Variable P : pe_resource_t -> Prop.
Hypothesis step : forall i v ch ac ro an me,
  Forall P ch -> P (mk_resource i v ch ac ro an me).

Fixpoint pe_resource_ind_children (rsc : pe_resource_t) : P rsc :=
  match rsc with
  | mk_resource i v ch ac ro an me =>
      step i v ch ac ro an me
        ((fix below (l : list pe_resource_t) : Forall P l :=
            match l with
            | [] => @List.Forall_nil _ P
            | c :: l' =>
                @List.Forall_cons _ P c l' (pe_resource_ind_children c)
                  (below l')
            end) ch)
  end.

End ResourceInduction.

(** *** The state of an instance *)

Definition instance_starting : Z := Z.shiftl 1 0.
Definition instance_stopping : Z := Z.shiftl 1 1.
Definition instance_restarting : Z := Z.shiftl 1 2.
Definition instance_active : Z := Z.shiftl 1 3.
Definition instance_all : Z :=
  Z.lor (Z.lor (Z.lor instance_starting instance_stopping)
           instance_restarting) instance_active.

Section InstanceState.

(** The bits of [enum pe_action_flags] are declared outside these
    sources. *)
Variable pe_action_pseudo : Z.
Variable pe_action_runnable : Z.
Variable pe_action_optional : Z.

(** The loop of [check_instance_state] over the actions of a primitive;
    [RSC_START] and [RSC_STOP] are the names of the start and stop
    actions. *)
Fixpoint check_actions (iter : list pe_action_t) (instance_state : Z) : Z :=
  match iter with
  | [] => instance_state
  | action :: next =>
      if pcmk_all_flags_set instance_state
           (Z.lor instance_starting instance_stopping)
      then instance_state
      else
        let optional := pcmk_is_set (flags action) pe_action_optional in
        if String.eqb PCMK_ACTION_START (task action) then
          if negb optional && pcmk_is_set (flags action) pe_action_runnable
          then check_actions next (Z.lor instance_state instance_starting)
          else check_actions next instance_state
        else if String.eqb PCMK_ACTION_STOP (task action) then
          if negb optional
             && pcmk_any_flags_set (flags action)
                  (Z.lor pe_action_pseudo pe_action_runnable)
          then check_actions next (Z.lor instance_state instance_stopping)
          else check_actions next instance_state
        else check_actions next instance_state
  end.

Fixpoint check_instance_state (instance : pe_resource_t) (state : Z) : Z :=
  (* No need to check further if all conditions have been detected *)
  if pcmk_all_flags_set state instance_all then state
  else
    match instance with
    | mk_resource _ variant children actions running_on _ _ =>
        if variant_value variant >? variant_value pe_native then
          (* A collective (a cloned group): check its children instead *)
          (fix check_children (iter : list pe_resource_t) (state : Z) : Z :=
             match iter with
             | [] => state
             | child :: next =>
                 if pcmk_all_flags_set state instance_all then state
                 else check_children next (check_instance_state child state)
             end) children state
        else
          (* If we get here, instance is a primitive *)
          let instance_state :=
            match running_on with
            | [] => 0
            | _ :: _ => Z.lor 0 instance_active
            end in
          let instance_state := check_actions actions instance_state in
          let instance_state :=
            if pcmk_all_flags_set instance_state
                 (Z.lor instance_starting instance_stopping)
            then Z.lor instance_state instance_restarting
            else instance_state in
          Z.lor state instance_state
    end.

(** *** What the summary is about *)

(** A primitive is starting if it has a runnable start action that is not
    optional, and stopping if it has a stop action that is not optional and
    is runnable or a pseudo-action. *)
Definition starts (action : pe_action_t) : bool :=
  String.eqb PCMK_ACTION_START (task action)
  && negb (pcmk_is_set (flags action) pe_action_optional)
  && pcmk_is_set (flags action) pe_action_runnable.

Definition stops (action : pe_action_t) : bool :=
  String.eqb PCMK_ACTION_STOP (task action)
  && negb (pcmk_is_set (flags action) pe_action_optional)
  && pcmk_any_flags_set (flags action)
       (Z.lor pe_action_pseudo pe_action_runnable).

Definition is_starting (primitive : pe_resource_t) : bool :=
  existsb starts (actions primitive).

Definition is_stopping (primitive : pe_resource_t) : bool :=
  existsb stops (actions primitive).

(** The primitives of a subtree, in the order in which they are visited. *)
Fixpoint primitives (instance : pe_resource_t) : list pe_resource_t :=
  match instance with
  | mk_resource _ variant children _ _ _ _ =>
      if variant_value variant >? variant_value pe_native
      then flat_map primitives children
      else [instance]
  end.

(** *** Bits of a flag group *)

#[local] Arguments Z.testbit : simpl never.
#[local] Arguments Z.lor : simpl never.
#[local] Arguments Z.shiftl : simpl never.
#[local] Arguments String.eqb : simpl never.

Lemma pcmk_all_flags_set_spec s m :
  pcmk_all_flags_set s m = true <->
  forall n, Z.testbit m n = true -> Z.testbit s n = true.
Proof using Type.
  unfold pcmk_all_flags_set. rewrite Z.eqb_eq. split.
  - intros H n Hm. rewrite <- H in Hm. rewrite Z.land_spec in Hm.
    apply andb_true_iff in Hm. tauto.
  - intros H. apply Z.bits_inj'. intros n _. rewrite Z.land_spec.
    destruct (Z.testbit m n) eqn:Hm; [|apply andb_false_r].
    rewrite (H n Hm). reflexivity.
Qed.

Lemma pcmk_is_set_bit s k :
  0 <= k -> pcmk_is_set s (Z.shiftl 1 k) = Z.testbit s k.
Proof using Type.
  intros Hk. unfold pcmk_is_set. apply eq_true_iff_eq.
  rewrite pcmk_all_flags_set_spec. rewrite Z.shiftl_1_l. split.
  - intros H. apply H. apply Z.pow2_bits_true. exact Hk.
  - intros H n Hn. rewrite Z.pow2_bits_eqb in Hn by exact Hk.
    apply Z.eqb_eq in Hn. subst n. exact H.
Qed.

Lemma pcmk_all_flags_set_lor s a b :
  pcmk_all_flags_set s (Z.lor a b)
  = pcmk_all_flags_set s a && pcmk_all_flags_set s b.
Proof using Type.
  apply eq_true_iff_eq.
  rewrite andb_true_iff, !pcmk_all_flags_set_spec. split.
  - intros H. split; intros n Hn; apply H; rewrite Z.lor_spec, Hn;
      [reflexivity|apply orb_true_r].
  - intros [Ha Hb] n Hn. rewrite Z.lor_spec in Hn.
    apply orb_true_iff in Hn. destruct Hn; [apply Ha|apply Hb]; assumption.
Qed.

Lemma starting_and_stopping s :
  pcmk_all_flags_set s (Z.lor instance_starting instance_stopping)
  = Z.testbit s 0 && Z.testbit s 1.
Proof using Type.
  rewrite pcmk_all_flags_set_lor. unfold instance_starting, instance_stopping.
  fold (pcmk_is_set s (Z.shiftl 1 0)). fold (pcmk_is_set s (Z.shiftl 1 1)).
  rewrite !pcmk_is_set_bit by lia. reflexivity.
Qed.

Lemma instance_all_restarting s :
  pcmk_all_flags_set s instance_all = true -> Z.testbit s 2 = true.
Proof using Type.
  unfold instance_all. rewrite !pcmk_all_flags_set_lor.
  rewrite !andb_true_iff. intros [[_ H] _].
  unfold instance_restarting in H. fold (pcmk_is_set s (Z.shiftl 1 2)) in H.
  rewrite pcmk_is_set_bit in H by lia. exact H.
Qed.

Lemma testbit_lor_bit s j k :
  0 <= j -> 0 <= k ->
  Z.testbit (Z.lor s (Z.shiftl 1 j)) k = Z.testbit s k || (k =? j).
Proof using Type.
  intros Hj Hk. rewrite Z.lor_spec, Z.shiftl_1_l.
  rewrite Z.pow2_bits_eqb by exact Hj. rewrite (Z.eqb_sym j k). reflexivity.
Qed.

(** *** The restarting bit *)

Lemma stops_not_start action :
  String.eqb PCMK_ACTION_START (task action) = true -> stops action = false.
Proof using Type.
  intros H. apply String.eqb_eq in H. unfold stops. rewrite <- H.
  reflexivity.
Qed.

Lemma check_actions_bits iter : forall s,
  Z.testbit (check_actions iter s) 0 = Z.testbit s 0 || existsb starts iter
  /\ Z.testbit (check_actions iter s) 1
     = Z.testbit s 1 || existsb stops iter
  /\ Z.testbit (check_actions iter s) 2 = Z.testbit s 2.
Proof using Type.
  induction iter as [|action next IH]; intros s; simpl.
  - rewrite !orb_false_r. repeat split.
  - rewrite starting_and_stopping.
    destruct (Z.testbit s 0 && Z.testbit s 1) eqn:Hboth.
    { apply andb_true_iff in Hboth. destruct Hboth as [H0 H1].
      rewrite H0, H1. repeat split. }
    unfold starts at 1, stops at 1.
    destruct (String.eqb PCMK_ACTION_START (task action)) eqn:Hstart.
    + assert (Hstop : String.eqb PCMK_ACTION_STOP (task action) = false).
      { apply String.eqb_eq in Hstart. rewrite <- Hstart. reflexivity. }
      rewrite Hstop. simpl.
      destruct (negb (pcmk_is_set (flags action) pe_action_optional)
                && pcmk_is_set (flags action) pe_action_runnable) eqn:Hc.
      * destruct (IH (Z.lor s instance_starting)) as (I0 & I1 & I2).
        rewrite I0, I1, I2. unfold instance_starting.
        rewrite !testbit_lor_bit by lia. simpl.
        rewrite ?orb_false_r, ?orb_true_r. repeat split.
      * destruct (IH s) as (I0 & I1 & I2). rewrite I0, I1, I2.
        repeat split.
    + simpl.
      destruct (String.eqb PCMK_ACTION_STOP (task action)) eqn:Hstop; simpl.
      * destruct (negb (pcmk_is_set (flags action) pe_action_optional)
                  && pcmk_any_flags_set (flags action)
                       (Z.lor pe_action_pseudo pe_action_runnable)) eqn:Hc.
        -- destruct (IH (Z.lor s instance_stopping)) as (I0 & I1 & I2).
           rewrite I0, I1, I2. unfold instance_stopping.
           rewrite !testbit_lor_bit by lia. simpl.
           rewrite ?orb_false_r, ?orb_true_r. repeat split.
        -- destruct (IH s) as (I0 & I1 & I2). rewrite I0, I1, I2.
           repeat split.
      * destruct (IH s) as (I0 & I1 & I2). rewrite I0, I1, I2.
        repeat split.
Qed.

Definition restarts (primitive : pe_resource_t) : bool :=
  is_starting primitive && is_stopping primitive.

Lemma check_instance_state_bit instance : forall state,
  Z.testbit (check_instance_state instance state) 2
  = Z.testbit state 2 || existsb restarts (primitives instance).
Proof using Type.
  induction instance as [i v ch ac ro an me IH]
    using pe_resource_ind_children.
  intros state. simpl.
  destruct (pcmk_all_flags_set state instance_all) eqn:Hall.
  { rewrite (instance_all_restarting _ Hall). reflexivity. }
  destruct (variant_value v >? 0).
  - clear Hall. revert state.
    induction IH as [|child next Hchild _ IHnext]; intros state; simpl.
    + rewrite orb_false_r. reflexivity.
    + destruct (pcmk_all_flags_set state instance_all) eqn:Hall.
      { rewrite (instance_all_restarting _ Hall). reflexivity. }
      rewrite IHnext, Hchild, existsb_app, orb_assoc. reflexivity.
  - simpl. rewrite orb_false_r.
    destruct (check_actions_bits ac
                (match ro with [] => 0 | _ :: _ => Z.lor 0 instance_active
                 end)) as (I0 & I1 & I2).
    assert (Hclear : forall k, 0 <= k < 3 ->
      Z.testbit (match ro with [] => 0 | _ :: _ => Z.lor 0 instance_active
                 end) k = false).
    { intros k Hk. destruct ro; [apply Z.testbit_0_l|].
      unfold instance_active. rewrite testbit_lor_bit by lia.
      rewrite Z.testbit_0_l. simpl. apply Z.eqb_neq. lia. }
    rewrite (Hclear 0) in I0 by lia. rewrite (Hclear 1) in I1 by lia.
    rewrite (Hclear 2) in I2 by lia. simpl in I0, I1.
    rewrite starting_and_stopping, I0, I1. unfold restarts.
    change (existsb starts ac) with
      (is_starting (mk_resource i v ch ac ro an me)).
    change (existsb stops ac) with
      (is_stopping (mk_resource i v ch ac ro an me)).
    destruct (is_starting _ && is_stopping _).
    + rewrite Z.lor_spec. unfold instance_restarting.
      rewrite testbit_lor_bit by lia. simpl. rewrite !orb_true_r.
      reflexivity.
    + rewrite Z.lor_spec, I2. reflexivity.
Qed.

(** C7. [check_instance_state] sets the restarting bit if and only if a
    single primitive has both a runnable start action that is not optional
    and a stop action that is not optional and is runnable or a
    pseudo-action; a start on one primitive and a stop on another do not
    set it. *)
Theorem check_instance_state_restarting instance state :
  pcmk_is_set (check_instance_state instance state) instance_restarting
  = true <->
  pcmk_is_set state instance_restarting = true
  \/ exists primitive,
       In primitive (primitives instance)
       /\ is_starting primitive = true
       /\ is_stopping primitive = true.
Proof using Type.
  unfold instance_restarting. rewrite !pcmk_is_set_bit by lia.
  rewrite check_instance_state_bit, orb_true_iff, existsb_exists.
  unfold restarts. split.
  - intros [H|(p & Hp & Hb)]; [left; exact H|right].
    apply andb_true_iff in Hb. exists p. tauto.
  - intros [H|(p & Hp & H1 & H2)]; [left; exact H|right].
    exists p. rewrite H1, H2. tauto.
Qed.

(** *** The other bits of the state *)

Definition is_active (primitive : pe_resource_t) : bool :=
  match running_on primitive with
  | [] => false
  | _ :: _ => true
  end.

(** What a primitive adds to bit [k] of the state. *)
Definition contributes (k : Z) (primitive : pe_resource_t) : bool :=
  if k =? 0 then is_starting primitive
  else if k =? 1 then is_stopping primitive
  else if k =? 2 then restarts primitive
  else if k =? 3 then is_active primitive
  else false.

Lemma check_actions_other iter : forall s k,
  0 <= k -> k <> 0 -> k <> 1 ->
  Z.testbit (check_actions iter s) k = Z.testbit s k.
Proof using Type.
  induction iter as [|action next IH]; intros s k Hk H0 H1; simpl;
    [reflexivity|].
  destruct (pcmk_all_flags_set s _); [reflexivity|].
  destruct (String.eqb PCMK_ACTION_START (task action)).
  - destruct (negb _ && _); [|apply IH; assumption].
    rewrite IH by assumption. unfold instance_starting.
    rewrite testbit_lor_bit by lia.
    replace (k =? 0) with false by (symmetry; apply Z.eqb_neq; exact H0).
    apply orb_false_r.
  - destruct (String.eqb PCMK_ACTION_STOP (task action));
      [|apply IH; assumption].
    destruct (negb _ && _); [|apply IH; assumption].
    rewrite IH by assumption. unfold instance_stopping.
    rewrite testbit_lor_bit by lia.
    replace (k =? 1) with false by (symmetry; apply Z.eqb_neq; exact H1).
    apply orb_false_r.
Qed.

Lemma instance_all_bits s k :
  pcmk_all_flags_set s instance_all = true -> 0 <= k < 4 ->
  Z.testbit s k = true.
Proof using Type.
  intros Hall Hk. rewrite pcmk_all_flags_set_spec in Hall. apply Hall.
  assert (Hcases : k = 0 \/ k = 1 \/ k = 2 \/ k = 3) by lia.
  destruct Hcases as [-> | [-> | [-> | ->]]]; reflexivity.
Qed.

Lemma contributes_high k l :
  4 <= k -> existsb (contributes k) l = false.
Proof using Type.
  intros Hk. induction l as [|p l IH]; [reflexivity|]. simpl. rewrite IH.
  unfold contributes.
  replace (k =? 0) with false by (symmetry; apply Z.eqb_neq; lia).
  replace (k =? 1) with false by (symmetry; apply Z.eqb_neq; lia).
  replace (k =? 2) with false by (symmetry; apply Z.eqb_neq; lia).
  replace (k =? 3) with false by (symmetry; apply Z.eqb_neq; lia).
  reflexivity.
Qed.

(** Bit [k] of the result is bit [k] of the incoming state or what some
    primitive of the subtree adds to it. *)
Lemma check_instance_state_bits instance : forall state k,
  0 <= k ->
  Z.testbit (check_instance_state instance state) k
  = Z.testbit state k || existsb (contributes k) (primitives instance).
Proof using Type.
  induction instance as [i v ch ac ro an me IH]
    using pe_resource_ind_children.
  intros state k Hk.
  assert (Hshort : forall s l,
    pcmk_all_flags_set s instance_all = true ->
    Z.testbit s k = Z.testbit s k || existsb (contributes k) l).
  { intros s l Hall. destruct (Z.lt_ge_cases k 4) as [Hlt|Hge].
    - rewrite (instance_all_bits s k Hall) by lia. reflexivity.
    - rewrite contributes_high by exact Hge. rewrite orb_false_r.
      reflexivity. }
  simpl.
  destruct (pcmk_all_flags_set state instance_all) eqn:Hall.
  { apply Hshort, Hall. }
  destruct (variant_value v >? 0).
  - clear Hall. revert state.
    induction IH as [|child next Hchild _ IHnext]; intros state; simpl.
    + rewrite orb_false_r. reflexivity.
    + destruct (pcmk_all_flags_set state instance_all) eqn:Hall.
      { apply Hshort, Hall. }
      rewrite IHnext, Hchild, existsb_app, orb_assoc by exact Hk.
      reflexivity.
  - simpl. rewrite orb_false_r, Z.lor_spec. f_equal.
    set (s0 := match ro with [] => 0 | _ :: _ => Z.lor 0 instance_active
               end).
    destruct (check_actions_bits ac s0) as (I0 & I1 & _).
    assert (Hs0 : forall j, 0 <= j ->
      Z.testbit s0 j = (j =? 3) && is_active (mk_resource i v ch ac ro an me)).
    { intros j Hj. unfold s0, is_active. simpl. destruct ro.
      - rewrite Z.testbit_0_l, andb_false_r. reflexivity.
      - unfold instance_active. rewrite testbit_lor_bit by lia.
        rewrite Z.testbit_0_l, andb_true_r. reflexivity. }
    rewrite (Hs0 0) in I0 by lia. rewrite (Hs0 1) in I1 by lia.
    simpl in I0, I1.
    change (existsb starts ac) with
      (is_starting (mk_resource i v ch ac ro an me)) in I0.
    change (existsb stops ac) with
      (is_stopping (mk_resource i v ch ac ro an me)) in I1.
    rewrite starting_and_stopping, I0, I1.
    unfold contributes, restarts.
    assert (Hraw : Z.testbit (check_actions ac s0) k =
      if k =? 0 then is_starting (mk_resource i v ch ac ro an me)
      else if k =? 1 then is_stopping (mk_resource i v ch ac ro an me)
      else (k =? 3) && is_active (mk_resource i v ch ac ro an me)).
    { destruct (k =? 0) eqn:E0; [apply Z.eqb_eq in E0; subst k; exact I0|].
      destruct (k =? 1) eqn:E1; [apply Z.eqb_eq in E1; subst k; exact I1|].
      apply Z.eqb_neq in E0, E1.
      rewrite check_actions_other by assumption. apply Hs0, Hk. }
    destruct (is_starting _ && is_stopping _) eqn:Hboth.
    + unfold instance_restarting. rewrite testbit_lor_bit by lia.
      rewrite Hraw.
      destruct (k =? 0) eqn:E0; [apply Z.eqb_eq in E0; subst k; simpl;
                                 apply orb_false_r|].
      destruct (k =? 1) eqn:E1; [apply Z.eqb_eq in E1; subst k; simpl;
                                 apply orb_false_r|].
      destruct (k =? 2) eqn:E2; [apply Z.eqb_eq in E2; subst k; reflexivity|].
      destruct (k =? 3); simpl; rewrite ?orb_false_r; reflexivity.
    + rewrite Hraw.
      destruct (k =? 0); [reflexivity|]. destruct (k =? 1); [reflexivity|].
      destruct (k =? 2) eqn:E2; [apply Z.eqb_eq in E2; subst k; reflexivity|].
      destruct (k =? 3); reflexivity.
Qed.

(** X16. The starting, stopping and active bits of the result are those of
    the incoming state, or set because some primitive of the subtree has a
    mandatory runnable start, has a mandatory stop that is runnable or a
    pseudo-action, or is active somewhere. *)
Theorem check_instance_state_summary instance state :
  (pcmk_is_set (check_instance_state instance state) instance_starting
   = true <->
   pcmk_is_set state instance_starting = true
   \/ exists primitive,
        In primitive (primitives instance) /\ is_starting primitive = true)
  /\ (pcmk_is_set (check_instance_state instance state) instance_stopping
      = true <->
      pcmk_is_set state instance_stopping = true
      \/ exists primitive,
           In primitive (primitives instance)
           /\ is_stopping primitive = true)
  /\ (pcmk_is_set (check_instance_state instance state) instance_active
      = true <->
      pcmk_is_set state instance_active = true
      \/ exists primitive,
           In primitive (primitives instance)
           /\ running_on primitive <> []).
Proof using Type.
  unfold instance_starting, instance_stopping, instance_active.
  rewrite !pcmk_is_set_bit by lia.
  rewrite !check_instance_state_bits by lia.
  rewrite !orb_true_iff, !existsb_exists.
  split; [|split]; split.
  all: intros [H|(p & Hp & Hc)];
    [left; exact H|right; exists p; split; [exact Hp|]].
  - exact Hc.
  - exact Hc.
  - exact Hc.
  - exact Hc.
  - unfold contributes, is_active in Hc. simpl in Hc.
    destruct (running_on p); [discriminate|discriminate].
  - unfold contributes, is_active. simpl.
    destruct (running_on p); [contradiction|reflexivity].
Qed.

(** X17. [check_instance_state] never clears a bit of the incoming state, and
    changes no bit other than the four state bits. *)
Theorem check_instance_state_grows instance state :
  Z.lor state (check_instance_state instance state)
  = check_instance_state instance state
  /\ Z.ldiff (check_instance_state instance state) instance_all
     = Z.ldiff state instance_all.
Proof using Type.
  split; apply Z.bits_inj'; intros k Hk.
  - rewrite Z.lor_spec, check_instance_state_bits by exact Hk.
    destruct (Z.testbit state k); reflexivity.
  - rewrite !Z.ldiff_spec, check_instance_state_bits by exact Hk.
    destruct (Z.lt_ge_cases k 4) as [Hlt|Hge].
    + assert (Hcases : k = 0 \/ k = 1 \/ k = 2 \/ k = 3) by lia.
      replace (Z.testbit instance_all k) with true
        by (destruct Hcases as [-> | [-> | [-> | ->]]]; reflexivity).
      rewrite !andb_false_r. reflexivity.
    + rewrite contributes_high by exact Hge. rewrite orb_false_r.
      reflexivity.
Qed.

End InstanceState.

(** *** Summary flags of a collective's action *)

(** Case-insensitive comparison, as [pcmk__strcase_any_of] does it. *)
Definition to_lower (c : ascii) : ascii :=
  let n := nat_of_ascii c in
  if ((65 <=? n) && (n <=? 90))%nat then ascii_of_nat (n + 32) else c.

Fixpoint lower_case (s : string) : string :=
  match s with
  | EmptyString => EmptyString
  | String c rest => String (to_lower c) (lower_case rest)
  end.

Definition pcmk__strcase_any_of (s : string) (choices : list string) : bool :=
  existsb (fun choice => String.eqb (lower_case s) (lower_case choice))
    choices.

(** The loop of [clone_child_action] over a notify action's key, from its
    end: [stop] is the index of the last underscore, and the task named is
    what stands between the underscore before it and [stop]. *)
Fixpoint notified_task (key : string) (lpc stop : nat) : option string :=
  match lpc with
  | O => None
  | S prev =>
      match String.get lpc key with
      | Some c =>
          if Ascii.eqb c "_" then
            if (stop =? 0)%nat then notified_task key prev lpc
            else Some (substring (lpc + 1) (stop - (lpc + 1)) key)
          else notified_task key prev stop
      | None => notified_task key prev stop
      end
  end.

(** Whether a string is free of underscores, and whether a key has one at
    an index. *)
Fixpoint no_underscore (s : string) : bool :=
  match s with
  | EmptyString => true
  | String c rest => negb (Ascii.eqb c "_") && no_underscore rest
  end.

Definition underscore_at (key : string) (i : nat) : bool :=
  match String.get i key with
  | Some c => Ascii.eqb c "_"
  | None => false
  end.

Lemma get_append a : forall b i,
  String.get i (a ++ b)
  = if (i <? String.length a)%nat then String.get i a
    else String.get (i - String.length a) b.
Proof.
  induction a as [|c a IH]; intros b i.
  - simpl. rewrite Nat.sub_0_r. reflexivity.
  - destruct i as [|i]; [reflexivity|]. simpl String.get.
    rewrite IH. reflexivity.
Qed.

Lemma underscore_at_append a b i :
  underscore_at (a ++ b) i
  = if (i <? String.length a)%nat then underscore_at a i
    else underscore_at b (i - String.length a).
Proof.
  unfold underscore_at. rewrite get_append.
  destruct (i <? String.length a)%nat; reflexivity.
Qed.

Lemma underscore_at_end key i :
  (String.length key <= i)%nat -> underscore_at key i = false.
Proof.
  unfold underscore_at. revert i.
  induction key as [|c key IH]; intros i Hi.
  - destruct i; reflexivity.
  - destruct i as [|i]; simpl in Hi; [lia|]. simpl. apply IH. lia.
Qed.

Lemma no_underscore_at s : no_underscore s = true ->
  forall i, underscore_at s i = false.
Proof.
  unfold underscore_at.
  induction s as [|c s IH]; intros Hs i.
  - destruct i; reflexivity.
  - simpl in Hs. apply andb_true_iff in Hs. destruct Hs as [Hc Hs].
    destruct i as [|i]; simpl.
    + apply negb_true_iff. exact Hc.
    + apply IH. exact Hs.
Qed.

Lemma substring_append_skip a : forall b k m,
  substring (String.length a + k) m (a ++ b) = substring k m b.
Proof.
  induction a as [|c a IH]; intros b k m; [reflexivity|].
  simpl. apply IH.
Qed.

Lemma substring_append_prefix t : forall r,
  substring 0 (String.length t) (t ++ r) = t.
Proof.
  induction t as [|c t IH]; intros r; simpl.
  - destruct r; reflexivity.
  - rewrite IH. reflexivity.
Qed.

Lemma notified_task_step key prev stop :
  notified_task key (S prev) stop
  = if underscore_at key (S prev) then
      if (stop =? 0)%nat then notified_task key prev (S prev)
      else Some (substring (S prev + 1) (stop - (S prev + 1)) key)
    else notified_task key prev stop.
Proof.
  unfold underscore_at. cbn [notified_task].
  destruct (String.get (S prev) key) as [c|]; reflexivity.
Qed.

(** The scan passes over a stretch without underscores. *)
Lemma notified_task_skip key m : forall lo stop,
  (forall i, (lo < i <= m + lo)%nat -> underscore_at key i = false) ->
  notified_task key (m + lo) stop = notified_task key lo stop.
Proof.
  induction m as [|m IH]; intros lo stop Hfree; [reflexivity|].
  change (S m + lo)%nat with (S (m + lo)).
  rewrite notified_task_step, Hfree by lia.
  apply IH. intros i Hi. apply Hfree. lia.
Qed.

(** The key [prefix_t_n] of a notification, where neither [t] nor [n] has
    an underscore, names [t], unless the prefix is empty: the first
    character of a key is never looked at. *)
Lemma notified_task_parse prefix t n :
  no_underscore t = true -> no_underscore n = true ->
  let key := (prefix ++ "_" ++ t ++ "_" ++ n)%string in
  notified_task key (String.length key) 0
  = if (String.length prefix =? 0)%nat then None else Some t.
Proof.
  intros Ht Hn key.
  set (P := String.length prefix). set (T := String.length t).
  set (N := String.length n).
  assert (Hlen : String.length key = (S N + S (T + P))%nat).
  { unfold key. rewrite !string_length_append. cbn [String.length]. lia. }
  assert (Hat : forall i,
            underscore_at key i
            = if (i <? P)%nat then underscore_at prefix i
              else if (i =? P)%nat then true
              else if (i <=? T + P)%nat then false
              else if (i =? S (T + P))%nat then true
              else false).
  { intros i. unfold key. rewrite underscore_at_append. fold P.
    destruct (i <? P)%nat eqn:H1; [reflexivity|].
    apply Nat.ltb_ge in H1.
    destruct (i =? P)%nat eqn:H2.
    { apply Nat.eqb_eq in H2. subst i. rewrite Nat.sub_diag. reflexivity. }
    apply Nat.eqb_neq in H2.
    replace (i - P)%nat with (S (i - P - 1)) by lia.
    change (underscore_at ("_" ++ t ++ "_" ++ n) (S (i - P - 1)))
      with (underscore_at (t ++ "_" ++ n) (i - P - 1)).
    rewrite underscore_at_append. fold T.
    destruct (i <=? T + P)%nat eqn:H3.
    { apply Nat.leb_le in H3.
      replace (i - P - 1 <? T)%nat with true
        by (symmetry; apply Nat.ltb_lt; lia).
      apply no_underscore_at. exact Ht. }
    apply Nat.leb_gt in H3.
    replace (i - P - 1 <? T)%nat with false
      by (symmetry; apply Nat.ltb_ge; lia).
    destruct (i =? S (T + P))%nat eqn:H4.
    { apply Nat.eqb_eq in H4. subst i.
      replace (S (T + P) - P - 1 - T)%nat with 0%nat by lia. reflexivity. }
    apply Nat.eqb_neq in H4.
    replace (i - P - 1 - T)%nat with (S (i - P - 1 - T - 1)) by lia.
    change (underscore_at ("_" ++ n) (S (i - P - 1 - T - 1)))
      with (underscore_at n (i - P - 1 - T - 1)).
    apply no_underscore_at. exact Hn. }
  rewrite Hlen, notified_task_skip.
  2: { intros i Hi. rewrite Hat.
       replace (i <? P)%nat with false by (symmetry; apply Nat.ltb_ge; lia).
       replace (i =? P)%nat with false by (symmetry; apply Nat.eqb_neq; lia).
       replace (i <=? T + P)%nat with false
         by (symmetry; apply Nat.leb_gt; lia).
       replace (i =? S (T + P))%nat with false
         by (symmetry; apply Nat.eqb_neq; lia).
       reflexivity. }
  rewrite notified_task_step, Hat.
  replace (S (T + P) <? P)%nat with false by (symmetry; apply Nat.ltb_ge; lia).
  replace (S (T + P) =? P)%nat with false
    by (symmetry; apply Nat.eqb_neq; lia).
  replace (S (T + P) <=? T + P)%nat with false
    by (symmetry; apply Nat.leb_gt; lia).
  rewrite Nat.eqb_refl. cbn [Nat.eqb].
  rewrite notified_task_skip.
  2: { intros i Hi. rewrite Hat.
       replace (i <? P)%nat with false by (symmetry; apply Nat.ltb_ge; lia).
       replace (i =? P)%nat with false by (symmetry; apply Nat.eqb_neq; lia).
       replace (i <=? T + P)%nat with true
         by (symmetry; apply Nat.leb_le; lia).
       reflexivity. }
  destruct P as [|P'] eqn:HP; [reflexivity|].
  cbn [Nat.eqb]. rewrite notified_task_step, Hat.
  rewrite Nat.ltb_irrefl, Nat.eqb_refl. cbn [Nat.eqb].
  f_equal. unfold key.
  replace (S P' + 1)%nat with (String.length prefix + 1)%nat
    by (fold P; lia).
  rewrite substring_append_skip. cbn [append substring].
  replace (S (T + S P') - (String.length prefix + 1))%nat with T
    by (fold P; lia).
  apply substring_append_prefix.
Qed.

Section SummaryFlags.

Variable pe_action_pseudo : Z.
Variable pe_action_runnable : Z.
Variable pe_action_optional : Z.

(** Declared outside these sources: the first child of an action's resource
    ([action->rsc->children->data]), the task a name stands for in a
    resource, the name of a task, the search of an action list by task and
    node, and the [cmds->action_flags] method of a child's variant. *)
Variable action_first_child : pe_action_t -> pe_resource_t.
Variable get_complex_task : pe_resource_t -> string -> bool -> action_tasks.
Variable task2text : action_tasks -> string.
Variable find_first_action :
  list pe_action_t -> option string -> string -> option pe_node_t ->
  option pe_action_t.
Variable cmds_action_flags :
  pe_resource_t -> pe_action_t -> option pe_node_t -> Z.

Definition clone_child_action (action : pe_action_t) : action_tasks :=
  let child := action_first_child action in
  if pcmk__strcase_any_of (task action)
       [PCMK_ACTION_NOTIFY; PCMK_ACTION_NOTIFIED]
  then
    (* Find the action we're notifying about instead *)
    match notified_task (uuid action) (String.length (uuid action)) 0 with
    | Some task_mutable => get_complex_task child task_mutable true
    | None => no_action
    end
  else get_complex_task child (task action) true.

Definition pe__clear_action_flags (action : pe_action_t) (flag : Z)
  : pe_action_t :=
  mk_action (uuid action) (task action) (Z.ldiff (flags action) flag)
    (node action).

(** The loop of [summary_action_flags] over the children. *)
Fixpoint summary_children (task_s : string) (node : option pe_node_t)
    (iter : list pe_resource_t) (flags : Z) (action : pe_action_t)
    (any_runnable : bool) : Z * pe_action_t * bool :=
  match iter with
  | [] => (flags, action, any_runnable)
  | child :: next =>
      match
        find_first_action (actions child) None task_s
          (match children child with
           | [] => node
           | _ :: _ => None
           end)
      with
      | Some child_action =>
          let child_flags := cmds_action_flags child child_action node in
          let '(flags, action) :=
            if pcmk_is_set flags pe_action_optional
               && negb (pcmk_is_set child_flags pe_action_optional)
            then (Z.ldiff flags pe_action_optional,
                  pe__clear_action_flags action pe_action_optional)
            else (flags, action) in
          summary_children task_s node next flags action
            (if pcmk_is_set child_flags pe_action_runnable then true
             else any_runnable)
      | None => summary_children task_s node next flags action any_runnable
      end
  end.

(** [summary_action_flags]: the flags returned, and the action as the call
    leaves it. *)
Definition summary_action_flags (action : pe_action_t)
    (children : list pe_resource_t) (node : option pe_node_t)
  : Z * pe_action_t :=
  let check_runnable := true in
  let task := clone_child_action action in
  let flags :=
    Z.lor (Z.lor pe_action_optional pe_action_runnable) pe_action_pseudo in
  let task_s := task2text task in
  let '(flags, action, any_runnable) :=
    summary_children task_s node children flags action false in
  if check_runnable && negb any_runnable then
    (Z.ldiff flags pe_action_runnable,
     match node with
     | None => pe__clear_action_flags action pe_action_runnable
     | Some _ => action
     end)
  else (flags, action).

(** A child makes the summary mandatory if it has an action of the task
    whose flags lack [pe_action_optional]. *)
Definition child_is_mandatory (task_s : string) (node : option pe_node_t)
    (child : pe_resource_t) : bool :=
  match
    find_first_action (actions child) None task_s
      (match children child with
       | [] => node
       | _ :: _ => None
       end)
  with
  | Some child_action =>
      negb (pcmk_is_set (cmds_action_flags child child_action node)
              pe_action_optional)
  | None => false
  end.

(** The flag bits are those of distinct flags. *)
Hypothesis optional_is_a_flag : pe_action_optional <> 0.
Hypothesis optional_not_runnable :
  Z.land pe_action_optional pe_action_runnable = 0.

Lemma pcmk_is_set_ldiff_same f : pcmk_is_set (Z.ldiff f pe_action_optional)
                                   pe_action_optional = false.
Proof using optional_is_a_flag.
  unfold pcmk_is_set, pcmk_all_flags_set. apply Z.eqb_neq. intros H.
  apply optional_is_a_flag. rewrite <- H. apply Z.bits_inj'. intros n _.
  rewrite Z.land_spec, Z.ldiff_spec, Z.bits_0.
  destruct (Z.testbit f n), (Z.testbit pe_action_optional n); reflexivity.
Qed.

Lemma pcmk_is_set_ldiff_runnable f :
  pcmk_is_set (Z.ldiff f pe_action_runnable) pe_action_optional
  = pcmk_is_set f pe_action_optional.
Proof using optional_not_runnable.
  unfold pcmk_is_set, pcmk_all_flags_set. f_equal.
  apply Z.bits_inj'. intros n _.
  rewrite !Z.land_spec, Z.ldiff_spec.
  pose proof (f_equal (fun z => Z.testbit z n) optional_not_runnable) as H.
  simpl in H. rewrite Z.land_spec, Z.bits_0 in H.
  destruct (Z.testbit f n), (Z.testbit pe_action_optional n),
    (Z.testbit pe_action_runnable n); try reflexivity; discriminate.
Qed.

Lemma pcmk_is_set_initial :
  pcmk_is_set
    (Z.lor (Z.lor pe_action_optional pe_action_runnable) pe_action_pseudo)
    pe_action_optional = true.
Proof using Type.
  unfold pcmk_is_set, pcmk_all_flags_set. apply Z.eqb_eq.
  apply Z.bits_inj'. intros n _. rewrite Z.land_spec, !Z.lor_spec.
  destruct (Z.testbit pe_action_optional n);
    [reflexivity|apply andb_false_r].
Qed.

Lemma summary_children_optional task_s node iter :
  forall fl action any_runnable,
  (pcmk_is_set fl pe_action_optional = false ->
   pcmk_is_set (flags action) pe_action_optional = false) ->
  let r := summary_children task_s node iter fl action any_runnable in
  pcmk_is_set r.1.1 pe_action_optional
  = pcmk_is_set fl pe_action_optional
    && negb (existsb (child_is_mandatory task_s node) iter)
  /\ (pcmk_is_set r.1.1 pe_action_optional = false ->
      pcmk_is_set (flags r.1.2) pe_action_optional = false).
Proof using optional_is_a_flag.
  induction iter as [|child next IH]; intros fl action any_runnable Hinv;
    simpl.
  - rewrite andb_true_r. split; [reflexivity|exact Hinv].
  - unfold child_is_mandatory at 1.
    destruct (find_first_action _ _ _ _) as [child_action|].
    2: { exact (IH fl action any_runnable Hinv). }
    destruct (pcmk_is_set (cmds_action_flags child child_action node)
                pe_action_optional) eqn:Hc; simpl.
    + rewrite andb_false_r. apply IH. exact Hinv.
    + rewrite andb_true_r, andb_false_r.
      destruct (pcmk_is_set fl pe_action_optional) eqn:Hf in |- *.
      * match goal with
        | |- context [summary_children _ _ _ ?f ?a ?b] =>
            pose proof (IH f a b) as IH'
        end.
        simpl in IH'. rewrite pcmk_is_set_ldiff_same in IH'.
        apply IH'. intros _. apply pcmk_is_set_ldiff_same.
      * match goal with
        | |- context [summary_children _ _ _ ?f ?a ?b] =>
            pose proof (IH f a b Hinv) as IH'
        end.
        simpl in IH'. rewrite Hf in IH'. exact IH'.
Qed.

(** C8. [summary_action_flags] returns flags in which optional is cleared
    if and only if at least one child has an action of the task whose flags
    lack optional; when optional is cleared in the summary it is also
    cleared on the action itself. *)
Theorem summary_action_flags_optional action children node :
  let task_s := task2text (clone_child_action action) in
  let r := summary_action_flags action children node in
  (pcmk_is_set r.1 pe_action_optional = false <->
   exists child,
     In child children /\ child_is_mandatory task_s node child = true)
  /\ (pcmk_is_set r.1 pe_action_optional = false ->
      pcmk_is_set (flags r.2) pe_action_optional = false).
Proof using optional_is_a_flag optional_not_runnable.
  intros task_s r. subst r. unfold summary_action_flags. fold task_s.
  destruct (summary_children_optional task_s node children
              (Z.lor (Z.lor pe_action_optional pe_action_runnable)
                 pe_action_pseudo) action false) as [Hsum Hact].
  { rewrite pcmk_is_set_initial. discriminate. }
  rewrite pcmk_is_set_initial in Hsum. simpl in Hsum, Hact.
  destruct (summary_children _ _ _ _ _ _) as [[flags' action'] any_runnable].
  simpl in Hsum, Hact.
  assert (Hiff : pcmk_is_set flags' pe_action_optional = false <->
                 exists child, In child children
                   /\ child_is_mandatory task_s node child = true).
  { rewrite Hsum, negb_false_iff, existsb_exists. reflexivity. }
  destruct (true && negb any_runnable); simpl.
  - rewrite pcmk_is_set_ldiff_runnable. split; [exact Hiff|].
    intros H. destruct node; [exact (Hact H)|]. simpl.
    fold (pcmk_is_set (Z.ldiff (flags action') pe_action_runnable)
            pe_action_optional).
    rewrite pcmk_is_set_ldiff_runnable. exact (Hact H).
  - split; [exact Hiff|exact Hact].
Qed.

(** X18. For a notify or notified action whose key is [prefix_t_n], where
    neither [t] nor [n] has an underscore, [clone_child_action] gives the
    task that [t] names in the first child; with an empty prefix it gives
    [no_action], as the first character of the key is never looked at. *)
Theorem clone_child_action_notify action prefix t n :
  pcmk__strcase_any_of (task action)
    [PCMK_ACTION_NOTIFY; PCMK_ACTION_NOTIFIED] = true ->
  uuid action = (prefix ++ "_" ++ t ++ "_" ++ n)%string ->
  no_underscore t = true ->
  no_underscore n = true ->
  clone_child_action action
  = if (String.length prefix =? 0)%nat then no_action
    else get_complex_task (action_first_child action) t true.
Proof using Type.
  intros Htask Hkey Ht Hn. unfold clone_child_action.
  rewrite Htask, Hkey, (notified_task_parse prefix t n Ht Hn).
  destruct (String.length prefix =? 0)%nat; reflexivity.
Qed.

(** *** The runnable and pseudo flags of the summary, and the action *)

(** A child is runnable for the summary if it has an action of the task
    whose flags have [pe_action_runnable]. *)
Definition child_is_runnable (task_s : string) (node : option pe_node_t)
    (child : pe_resource_t) : bool :=
  match
    find_first_action (actions child) None task_s
      (match children child with
       | [] => node
       | _ :: _ => None
       end)
  with
  | Some child_action =>
      pcmk_is_set (cmds_action_flags child child_action node)
        pe_action_runnable
  | None => false
  end.

Hypothesis runnable_is_a_flag : pe_action_runnable <> 0.
Hypothesis pseudo_not_optional :
  Z.land pe_action_pseudo pe_action_optional = 0.
Hypothesis pseudo_not_runnable :
  Z.land pe_action_pseudo pe_action_runnable = 0.

Lemma pcmk_is_set_ldiff_disjoint f a b :
  Z.land a b = 0 -> pcmk_is_set (Z.ldiff f b) a = pcmk_is_set f a.
Proof using Type.
  intros Hab. unfold pcmk_is_set, pcmk_all_flags_set. f_equal.
  apply Z.bits_inj'. intros n _. rewrite !Z.land_spec, Z.ldiff_spec.
  pose proof (f_equal (fun z => Z.testbit z n) Hab) as H.
  simpl in H. rewrite Z.land_spec, Z.bits_0 in H.
  destruct (Z.testbit f n), (Z.testbit a n), (Z.testbit b n);
    try reflexivity; discriminate.
Qed.

Lemma pcmk_is_set_ldiff_cleared f a :
  a <> 0 -> pcmk_is_set (Z.ldiff f a) a = false.
Proof using Type.
  intros Ha. unfold pcmk_is_set, pcmk_all_flags_set. apply Z.eqb_neq.
  intros H. apply Ha. rewrite <- H. apply Z.bits_inj'. intros n _.
  rewrite Z.land_spec, Z.ldiff_spec, Z.bits_0.
  destruct (Z.testbit f n), (Z.testbit a n); reflexivity.
Qed.

Lemma pcmk_is_set_lor_r f a : pcmk_is_set (Z.lor f a) a = true.
Proof using Type.
  unfold pcmk_is_set, pcmk_all_flags_set. apply Z.eqb_eq.
  apply Z.bits_inj'. intros n _. rewrite Z.land_spec, Z.lor_spec.
  destruct (Z.testbit f n), (Z.testbit a n); reflexivity.
Qed.

Lemma pcmk_is_set_lor_l f g a :
  pcmk_is_set f a = true -> pcmk_is_set (Z.lor f g) a = true.
Proof using Type.
  unfold pcmk_is_set, pcmk_all_flags_set. rewrite !Z.eqb_eq. intros H.
  apply Z.bits_inj'. intros n _. rewrite Z.land_spec, Z.lor_spec.
  pose proof (f_equal (fun z => Z.testbit z n) H) as Hn. simpl in Hn.
  rewrite Z.land_spec in Hn.
  destruct (Z.testbit f n), (Z.testbit g n), (Z.testbit a n);
    try reflexivity; discriminate.
Qed.

(** What the loop over the children leaves: the summary keeps every flag but
    perhaps optional, the action is the one given with perhaps optional
    cleared, and a runnable child is remembered. *)
Lemma summary_children_frame task_s on_node iter :
  forall fl action any_runnable,
  let r := summary_children task_s on_node iter fl action any_runnable in
  (r.1.1 = fl \/ r.1.1 = Z.ldiff fl pe_action_optional)
  /\ (r.1.2 = action
      \/ r.1.2 = pe__clear_action_flags action pe_action_optional)
  /\ r.2 = any_runnable || existsb (child_is_runnable task_s on_node) iter.
Proof using Type.
  assert (Htwice : forall f,
            Z.ldiff (Z.ldiff f pe_action_optional) pe_action_optional
            = Z.ldiff f pe_action_optional).
  { intros f. apply Z.bits_inj'. intros n _. rewrite !Z.ldiff_spec.
    destruct (Z.testbit f n), (Z.testbit pe_action_optional n);
      reflexivity. }
  induction iter as [|child next IH]; intros fl action any_runnable;
    cbn [summary_children existsb].
  - cbn [fst snd]. rewrite orb_false_r. auto.
  - unfold child_is_runnable at 1.
    destruct (find_first_action _ _ _ _) as [child_action|].
    2: { exact (IH fl action any_runnable). }
    destruct (pcmk_is_set fl pe_action_optional
              && negb (pcmk_is_set
                         (cmds_action_flags child child_action on_node)
                         pe_action_optional)).
    + match goal with
      | |- context [summary_children _ _ _ ?f ?a ?b] =>
          destruct (IH f a b) as (Hf & Ha & Hr)
      end.
      split; [|split].
      * right. destruct Hf as [->| ->]; [reflexivity|apply Htwice].
      * right. destruct Ha as [->| ->]; [reflexivity|].
        unfold pe__clear_action_flags. cbn [uuid task flags node].
        rewrite Htwice. reflexivity.
      * rewrite Hr.
        destruct (pcmk_is_set
                    (cmds_action_flags child child_action on_node)
                    pe_action_runnable), any_runnable; reflexivity.
    + match goal with
      | |- context [summary_children _ _ _ ?f ?a ?b] =>
          destruct (IH f a b) as (Hf & Ha & Hr)
      end.
      split; [exact Hf|split; [exact Ha|]].
      rewrite Hr.
      destruct (pcmk_is_set
                  (cmds_action_flags child child_action on_node)
                  pe_action_runnable), any_runnable; reflexivity.
Qed.

(** X19. The summary has [pe_action_runnable] if and only if some child has
    an action of the task whose flags have it, and it always has
    [pe_action_pseudo]: with no children the summary is pseudo, optional and
    not runnable. *)
Theorem summary_action_flags_runnable action children on_node :
  let task_s := task2text (clone_child_action action) in
  let r := summary_action_flags action children on_node in
  (pcmk_is_set r.1 pe_action_runnable = true <->
   exists child,
     In child children /\ child_is_runnable task_s on_node child = true)
  /\ pcmk_is_set r.1 pe_action_pseudo = true.
Proof using optional_not_runnable runnable_is_a_flag pseudo_not_optional
  pseudo_not_runnable.
  intros task_s r. subst r. unfold summary_action_flags. fold task_s.
  destruct (summary_children_frame task_s on_node children
              (Z.lor (Z.lor pe_action_optional pe_action_runnable)
                 pe_action_pseudo) action false) as (Hf & _ & Hr).
  destruct (summary_children _ _ _ _ _ _) as [[flags' action'] any_runnable].
  cbn [fst snd] in Hf, Hr. rewrite orb_false_l in Hr.
  assert (Hinit_r : pcmk_is_set
                      (Z.lor (Z.lor pe_action_optional pe_action_runnable)
                         pe_action_pseudo) pe_action_runnable = true).
  { apply pcmk_is_set_lor_l, pcmk_is_set_lor_r. }
  assert (Hrun : pcmk_is_set flags' pe_action_runnable = true).
  { destruct Hf as [->| ->]; [exact Hinit_r|].
    rewrite pcmk_is_set_ldiff_disjoint; [exact Hinit_r|].
    rewrite Z.land_comm. exact optional_not_runnable. }
  assert (Hpseudo : pcmk_is_set flags' pe_action_pseudo = true).
  { destruct Hf as [->| ->]; [apply pcmk_is_set_lor_r|].
    rewrite pcmk_is_set_ldiff_disjoint;
      [apply pcmk_is_set_lor_r|exact pseudo_not_optional]. }
  rewrite <- existsb_exists, <- Hr.
  destruct any_runnable; cbn [andb negb fst].
  - split; [|exact Hpseudo]. split; intros _; [reflexivity|exact Hrun].
  - split.
    + rewrite pcmk_is_set_ldiff_cleared by exact runnable_is_a_flag.
      split; discriminate.
    + rewrite pcmk_is_set_ldiff_disjoint;
        [exact Hpseudo|exact pseudo_not_runnable].
Qed.

(** X20. [summary_action_flags] changes nothing of the action but its flags,
    sets no flag on it, and clears none but optional and runnable; given a
    node it leaves the action's runnable flag as it was, and given none it
    clears that flag whenever the summary is not runnable. *)
Theorem summary_action_flags_action action children on_node :
  let r := summary_action_flags action children on_node in
  uuid r.2 = uuid action
  /\ task r.2 = task action
  /\ node r.2 = node action
  /\ Z.land (flags r.2) (flags action) = flags r.2
  /\ Z.ldiff (flags r.2) (Z.lor pe_action_optional pe_action_runnable)
     = Z.ldiff (flags action) (Z.lor pe_action_optional pe_action_runnable)
  /\ (on_node <> None ->
      pcmk_is_set (flags r.2) pe_action_runnable
      = pcmk_is_set (flags action) pe_action_runnable)
  /\ (on_node = None ->
      pcmk_is_set r.1 pe_action_runnable = false ->
      pcmk_is_set (flags r.2) pe_action_runnable = false).
Proof using optional_not_runnable runnable_is_a_flag.
  intros r. subst r. unfold summary_action_flags.
  set (task_s := task2text (clone_child_action action)).
  destruct (summary_children_frame task_s on_node children
              (Z.lor (Z.lor pe_action_optional pe_action_runnable)
                 pe_action_pseudo) action false) as (Hf & Ha & _).
  destruct (summary_children _ _ _ _ _ _) as [[flags' action'] any_runnable].
  cbn [fst snd] in Hf, Ha.
  assert (Hrun : pcmk_is_set flags' pe_action_runnable = true).
  { destruct Hf as [->| ->].
    - apply pcmk_is_set_lor_l, pcmk_is_set_lor_r.
    - rewrite pcmk_is_set_ldiff_disjoint.
      + apply pcmk_is_set_lor_l, pcmk_is_set_lor_r.
      + rewrite Z.land_comm. exact optional_not_runnable. }
  assert (Hbits : forall f,
    Z.land (Z.ldiff f pe_action_optional) f = Z.ldiff f pe_action_optional
    /\ Z.land (Z.ldiff f pe_action_runnable) f
       = Z.ldiff f pe_action_runnable
    /\ Z.land (Z.ldiff (Z.ldiff f pe_action_optional) pe_action_runnable) f
       = Z.ldiff (Z.ldiff f pe_action_optional) pe_action_runnable
    /\ Z.ldiff (Z.ldiff f pe_action_optional)
         (Z.lor pe_action_optional pe_action_runnable)
       = Z.ldiff f (Z.lor pe_action_optional pe_action_runnable)
    /\ Z.ldiff (Z.ldiff f pe_action_runnable)
         (Z.lor pe_action_optional pe_action_runnable)
       = Z.ldiff f (Z.lor pe_action_optional pe_action_runnable)
    /\ Z.ldiff (Z.ldiff (Z.ldiff f pe_action_optional) pe_action_runnable)
         (Z.lor pe_action_optional pe_action_runnable)
       = Z.ldiff f (Z.lor pe_action_optional pe_action_runnable)).
  { intros f. repeat split; apply Z.bits_inj'; intros n _;
      rewrite ?Z.land_spec, ?Z.ldiff_spec, ?Z.lor_spec;
      destruct (Z.testbit f n), (Z.testbit pe_action_optional n),
        (Z.testbit pe_action_runnable n); reflexivity. }
  destruct (Hbits (flags action)) as (B1 & B2 & B3 & B4 & B5 & B6).
  assert (Hopt : forall f,
            pcmk_is_set (Z.ldiff f pe_action_optional) pe_action_runnable
            = pcmk_is_set f pe_action_runnable).
  { intros f. apply pcmk_is_set_ldiff_disjoint. rewrite Z.land_comm.
    exact optional_not_runnable. }
  destruct any_runnable; cbn [andb negb fst snd].
  - destruct Ha as [->| ->]; unfold pe__clear_action_flags;
      cbn [uuid task flags node].
    + repeat split; try reflexivity.
      * apply Z.land_diag.
      * intros _. rewrite Hrun. discriminate.
    + repeat split; try assumption; try reflexivity.
      * intros _. apply Hopt.
      * intros _. rewrite Hrun. discriminate.
  - destruct on_node as [n|].
    + destruct Ha as [->| ->]; unfold pe__clear_action_flags;
        cbn [uuid task flags node].
      * repeat split; try reflexivity.
        -- apply Z.land_diag.
        -- intros H. discriminate.
      * repeat split; try assumption; try reflexivity.
        -- intros _. apply Hopt.
        -- intros H. discriminate.
    + destruct Ha as [->| ->]; unfold pe__clear_action_flags;
        cbn [uuid task flags node].
      * repeat split; try assumption; try reflexivity.
        -- intros H. contradiction.
        -- intros _ _. apply pcmk_is_set_ldiff_cleared.
           exact runnable_is_a_flag.
      * repeat split; try assumption; try reflexivity.
        -- intros H. contradiction.
        -- intros _ _. apply pcmk_is_set_ldiff_cleared.
           exact runnable_is_a_flag.
Qed.

End SummaryFlags.

(** *** Interleaved orderings *)

(** [pcmk__ends_with] is defined outside these sources: whether a string
    ends with another. *)
Definition pcmk__ends_with (s suffix : string) : bool :=
  let ls := String.length s in
  let lm := String.length suffix in
  (lm <=? ls)%nat && String.eqb (substring (ls - lm) lm s) suffix.

Definition pcmk__str_any_of (s : string) (choices : list string) : bool :=
  existsb (String.eqb s) choices.

Definition XML_RSC_ATTR_INTERLEAVE : string := "interleave".

Definition role_eqb (a b : rsc_role_e) : bool :=
  match a, b with
  | RSC_ROLE_UNKNOWN, RSC_ROLE_UNKNOWN
  | RSC_ROLE_STOPPED, RSC_ROLE_STOPPED
  | RSC_ROLE_STARTED, RSC_ROLE_STARTED
  | RSC_ROLE_UNPROMOTED, RSC_ROLE_UNPROMOTED
  | RSC_ROLE_PROMOTED, RSC_ROLE_PROMOTED => true
  | _, _ => false
  end.

Definition pcmk__updated_none : Z := 0.

Section Interleave.

(** The working set that the calls below read and rewrite.  What these
    sources do not define works on it: the [fns] and [cmds] methods of a
    resource's variant, the recursive flag test, the containers of a bundle,
    the node sort, forced assignment, the resource inside a container, the
    search of an action list, the ordering of two actions and its
    propagation, and the resource and outgoing orderings of an action. *)
Variable W : Type.
Variable fns_location : W -> pe_resource_t -> bool -> option pe_node_t.
Variable fns_state : W -> pe_resource_t -> bool -> rsc_role_e.
Variable is_set_recursive : W -> pe_resource_t -> Z -> bool -> bool.
Variable pe_rsc_block : Z.
Variable pcmk__bundle_containers : pe_resource_t -> list pe_resource_t.
Variable pcmk__sort_nodes : list pe_node_t -> list pe_node_t.
Variable pcmk__assign_resource :
  W -> pe_resource_t -> option pe_node_t -> bool -> W * bool.
Variable pcmk__get_rsc_in_container :
  pe_resource_t -> option pe_node_t -> option pe_resource_t.
Variable find_first_action :
  list pe_action_t -> option string -> string -> option pe_node_t ->
  option pe_action_t.
Variable order_actions : W -> pe_action_t -> pe_action_t -> Z -> W * bool.
Variable cmds_action_flags :
  W -> pe_resource_t -> pe_action_t -> option pe_node_t -> Z.
Variable cmds_update_ordered_actions :
  W -> pe_resource_t -> pe_action_t -> pe_action_t -> option pe_node_t ->
  Z -> Z -> Z -> W * Z.
Variable pcmk__update_ordered_actions :
  W -> pe_action_t -> pe_action_t -> option pe_node_t -> Z -> Z -> Z ->
  W * Z.
Variable pcmk__update_action_for_orderings : W -> pe_action_t -> W.
Variable actions_after : W -> pe_action_t -> list pe_action_t.
Variable action_rsc : pe_action_t -> option pe_resource_t.
Variable action_first_child : pe_action_t -> pe_resource_t.
Variable get_complex_task : pe_resource_t -> string -> bool -> action_tasks.
Variable task2text : action_tasks -> string.
Variable crm_is_true : option string -> bool.

(** Bits of [enum pe_ordering], [enum pcmk__updated] and
    [enum pe_action_flags], declared outside these sources. *)
Variable pe_order_runnable_left : Z.
Variable pe_order_implies_then : Z.
Variable pcmk__updated_first : Z.
Variable pcmk__updated_then : Z.
Variable pe_action_runnable : Z.

Definition get_containers_or_children (rsc : pe_resource_t)
  : list pe_resource_t :=
  match variant rsc with
  | pe_container => pcmk__bundle_containers rsc
  | _ => children rsc
  end.

Definition is_child_compatible (st : W) (child_rsc : pe_resource_t)
    (local_node : pe_node_t) (filter : rsc_role_e) (current : bool) : bool :=
  let next_role := fns_state st child_rsc current in
  let node :=
    if negb (is_set_recursive st child_rsc pe_rsc_block true)
    then (* We only want instances that haven't failed *)
      fns_location st child_rsc current
    else None in
  if negb (role_eqb filter RSC_ROLE_UNKNOWN)
     && negb (role_eqb next_role filter)
  then false (* Filtered *)
  else
    match node with
    | Some node => String.eqb (details node) (details local_node)
    | None => false
    end.

Definition find_compatible_child_by_node (st : W)
    (local_child : pe_resource_t) (local_node : option pe_node_t)
    (rsc : pe_resource_t) (filter : rsc_role_e) (current : bool)
  : option pe_resource_t :=
  match local_node with
  | None => None (* Can't colocate unrunnable child *)
  | Some local_node =>
      List.find
        (fun child_rsc =>
           is_child_compatible st child_rsc local_node filter current)
        (get_containers_or_children rsc)
  end.

(** The loop of [find_compatible_child] over the sorted allowed nodes. *)
Fixpoint find_compatible_child_scratch (st : W)
    (local_child : pe_resource_t) (scratch : list pe_node_t)
    (rsc : pe_resource_t) (filter : rsc_role_e) (current : bool)
  : option pe_resource_t :=
  match scratch with
  | [] => None
  | node :: next =>
      match find_compatible_child_by_node st local_child (Some node) rsc
              filter current with
      | Some found => Some found
      | None =>
          find_compatible_child_scratch st local_child next rsc filter
            current
      end
  end.

Definition find_compatible_child (st : W) (local_child rsc : pe_resource_t)
    (filter : rsc_role_e) (current : bool) : option pe_resource_t :=
  match fns_location st local_child current with
  | Some local_node =>
      find_compatible_child_by_node st local_child (Some local_node) rsc
        filter current
  | None =>
      find_compatible_child_scratch st local_child
        (pcmk__sort_nodes
           (map snd (map_to_list (allowed_nodes local_child))))
        rsc filter current
  end.

(** One turn of the loop of [multi_update_interleave_actions], for
    [then_child]; [first_rsc] is [first->rsc]. *)
Definition interleave_child (first then_ : pe_action_t)
    (first_rsc : pe_resource_t) (node : option pe_node_t) (filter type : Z)
    (current : bool) (acc : W * Z) (then_child : pe_resource_t) : W * Z :=
  let '(st, changed) := acc in
  match find_compatible_child st then_child first_rsc RSC_ROLE_UNKNOWN
          current with
  | None =>
      if current then (st, changed) (* Ignore *)
      else if pcmk_any_flags_set type
                (Z.lor pe_order_runnable_left pe_order_implies_then)
      then
        (* Inhibiting then_child from being active *)
        let '(st, updated) :=
          pcmk__assign_resource st then_child None true in
        (st, if updated then Z.lor changed pcmk__updated_then else changed)
      else (st, changed)
  | Some first_child =>
      let first_task :=
        task2text
          (clone_child_action action_first_child get_complex_task first) in
      let first_action :=
        match pcmk__get_rsc_in_container first_child node with
        | Some first_rsc =>
            if pcmk__str_any_of (task first)
                 [PCMK_ACTION_STOP; PCMK_ACTION_STOPPED]
            then find_first_action (actions first_rsc) None first_task node
            else find_first_action (actions first_child) None first_task
                   node
        | None =>
            find_first_action (actions first_child) None first_task node
        end in
      let then_action :=
        match pcmk__get_rsc_in_container then_child node with
        | Some then_rsc =>
            if pcmk__str_any_of (task then_)
                 [PCMK_ACTION_PROMOTE; PCMK_ACTION_PROMOTED;
                  PCMK_ACTION_DEMOTE; PCMK_ACTION_DEMOTED]
            then find_first_action (actions then_rsc) None
                   (task then_) node
            else find_first_action (actions then_child) None
                   (task then_) node
        | None =>
            find_first_action (actions then_child) None
              (task then_) node
        end in
      match first_action, then_action with
      | None, _ => (st, changed) (* No action found (first) *)
      | Some _, None => (st, changed) (* No action found (then) *)
      | Some first_action, Some then_action =>
          let '(st, ordered) :=
            order_actions st first_action then_action type in
          let changed :=
            if ordered
            then Z.lor changed (Z.lor pcmk__updated_first pcmk__updated_then)
            else changed in
          let '(st, updated) :=
            cmds_update_ordered_actions st then_child first_action
              then_action node
              (cmds_action_flags st first_child first_action node)
              filter type in
          (st, Z.lor changed updated)
      end
  end.

(** [multi_update_interleave_actions]; both actions belong to resources
    when it is called. *)
Definition multi_update_interleave_actions (st : W)
    (first then_ : pe_action_t) (node : option pe_node_t) (filter type : Z)
  : W * Z :=
  match action_rsc first, action_rsc then_ with
  | Some first_rsc, Some then_rsc =>
      let current :=
        pcmk__ends_with (uuid first) "_stopped_0"
        || pcmk__ends_with (uuid first) "_demoted_0" in
      fold_left
        (interleave_child first then_ first_rsc node filter type current)
        (get_containers_or_children then_rsc) (st, pcmk__updated_none)
  | _, _ => (st, pcmk__updated_none)
  end.

Definition can_interleave_actions (first then_ : pe_action_t) : bool :=
  match action_rsc first, action_rsc then_ with
  | Some first_rsc, Some then_rsc =>
      if String.eqb (id first_rsc) (id then_rsc) then false
      else if (variant_value (variant first_rsc) <? variant_value pe_clone)
              || (variant_value (variant then_rsc) <? variant_value pe_clone)
      then false
      else
        let rsc :=
          if pcmk__ends_with (uuid then_) "_stop_0"
             || pcmk__ends_with (uuid then_) "_demote_0"
          then first_rsc else then_rsc in
        crm_is_true (meta rsc !! XML_RSC_ATTR_INTERLEAVE)
  | _, _ => false (* both must be resources *)
  end.

(** One turn of the loop of [pcmk__multi_update_actions] over the children
    of an ordering that is not interleaved. *)
Definition update_child (first then_ : pe_action_t)
    (node : option pe_node_t) (flags filter type : Z) (acc : W * Z)
    (then_child : pe_resource_t) : W * Z :=
  let '(st, changed) := acc in
  match find_first_action (actions then_child) None (task then_) node with
  | None => (st, changed)
  | Some then_child_action =>
      let then_child_flags :=
        cmds_action_flags st then_child then_child_action node in
      let '(st, then_child_changed) :=
        if pcmk_is_set then_child_flags pe_action_runnable
        then
          let '(st, updated) :=
            cmds_update_ordered_actions st then_child first
              then_child_action node flags filter type in
          (st, Z.lor pcmk__updated_none updated)
        else (st, pcmk__updated_none) in
      let changed := Z.lor changed then_child_changed in
      if pcmk_is_set then_child_changed pcmk__updated_then
      then
        (fold_left pcmk__update_action_for_orderings
           (actions_after st then_child_action) st, changed)
      else (st, changed)
  end.

Definition pcmk__multi_update_actions (st : W) (first then_ : pe_action_t)
    (node : option pe_node_t) (flags filter type : Z) : W * Z :=
  if can_interleave_actions first then_ then
    multi_update_interleave_actions st first then_ node filter type
  else
    match action_rsc then_ with
    | Some then_rsc =>
        (* Handle the 'primitive' ordering case *)
        let '(st, updated) :=
          pcmk__update_ordered_actions st first then_ node flags filter
            type in
        (* Now any children (or containers in the case of a bundle) *)
        fold_left (update_child first then_ node flags filter type)
          (get_containers_or_children then_rsc)
          (st, Z.lor pcmk__updated_none updated)
    | None => (st, pcmk__updated_none)
    end.

(** A type that includes runnable_left passes the test that guards the
    inhibition. *)
Lemma runnable_left_is_mandatory type :
  pe_order_runnable_left <> 0 ->
  pcmk_is_set type pe_order_runnable_left = true ->
  pcmk_any_flags_set type
    (Z.lor pe_order_runnable_left pe_order_implies_then) = true.
Proof using Type.
  unfold pcmk_is_set, pcmk_all_flags_set, pcmk_any_flags_set.
  intros Hflag Hset. apply Z.eqb_eq in Hset.
  apply negb_true_iff, Z.eqb_neq. intros Hzero.
  rewrite Z.land_lor_distr_r, Hset in Hzero.
  apply Z.lor_eq_0_iff in Hzero. tauto.
Qed.

(** *** The search for a compatible child *)

Lemma role_eqb_eq a b : role_eqb a b = true <-> a = b.
Proof using Type.
  destruct a, b; simpl; split; intros H; congruence.
Qed.

(** The nodes on which a partner of [local_child] is looked for: its
    location if it has one, else its allowed nodes as sorted. *)
Definition candidate_nodes (st : W) (local_child : pe_resource_t)
    (current : bool) : list pe_node_t :=
  match fns_location st local_child current with
  | Some local_node => [local_node]
  | None =>
      pcmk__sort_nodes (map snd (map_to_list (allowed_nodes local_child)))
  end.

Lemma is_child_compatible_spec st child_rsc local_node filter current :
  is_child_compatible st child_rsc local_node filter current = true <->
  is_set_recursive st child_rsc pe_rsc_block true = false
  /\ (filter = RSC_ROLE_UNKNOWN \/ fns_state st child_rsc current = filter)
  /\ exists node,
       fns_location st child_rsc current = Some node
       /\ details node = details local_node.
Proof using Type.
  unfold is_child_compatible.
  destruct (is_set_recursive st child_rsc pe_rsc_block true); simpl.
  - split.
    + destruct (_ && _); discriminate.
    + intros [H _]. discriminate.
  - destruct (role_eqb filter RSC_ROLE_UNKNOWN) eqn:Hu; simpl.
    + apply role_eqb_eq in Hu.
      destruct (fns_location st child_rsc current) as [node|].
      * rewrite String.eqb_eq. split.
        -- intros H. split; [reflexivity|]. split; [left; exact Hu|].
           exists node. split; [reflexivity|exact H].
        -- intros (_ & _ & n & Hn & Hd). injection Hn as <-. exact Hd.
      * split; [discriminate|]. intros (_ & _ & n & Hn & _). discriminate.
    + destruct (role_eqb (fns_state st child_rsc current) filter) eqn:Hr;
        simpl.
      * apply role_eqb_eq in Hr.
        destruct (fns_location st child_rsc current) as [node|].
        -- rewrite String.eqb_eq. split.
           ++ intros H. split; [reflexivity|]. split; [right; exact Hr|].
              exists node. split; [reflexivity|exact H].
           ++ intros (_ & _ & n & Hn & Hd). injection Hn as <-. exact Hd.
        -- split; [discriminate|]. intros (_ & _ & n & Hn & _).
           discriminate.
      * split; [discriminate|]. intros (_ & [Hf|Hf] & _).
        -- apply role_eqb_eq in Hf. congruence.
        -- apply role_eqb_eq in Hf. congruence.
Qed.

Lemma find_first_match {A : Type} (f : A -> bool) (l : list A) (x : A) :
  List.find f l = Some x ->
  exists earlier later,
    l = earlier ++ x :: later
    /\ f x = true
    /\ forall y, In y earlier -> f y = false.
Proof using Type.
  induction l as [|a l IH]; simpl; [discriminate|].
  destruct (f a) eqn:Ha.
  - intros H. injection H as <-. exists [], l. split; [reflexivity|].
    split; [exact Ha|]. intros y Hin. destruct Hin.
  - intros H. destruct (IH H) as (earlier & later & -> & Hx & Hy).
    exists (a :: earlier), later. split; [reflexivity|].
    split; [exact Hx|].
    intros y [<-|Hin]; [exact Ha|exact (Hy y Hin)].
Qed.

Lemma find_compatible_child_scratch_spec st local_child scratch rsc filter
    current :
  match find_compatible_child_scratch st local_child scratch rsc filter
          current with
  | Some found =>
      exists tried node untried,
        scratch = tried ++ node :: untried
        /\ find_compatible_child_by_node st local_child (Some node) rsc
             filter current = Some found
        /\ forall n, In n tried ->
             find_compatible_child_by_node st local_child (Some n) rsc
               filter current = None
  | None =>
      forall n, In n scratch ->
        find_compatible_child_by_node st local_child (Some n) rsc filter
          current = None
  end.
Proof using Type.
  induction scratch as [|node next IH]; cbn [find_compatible_child_scratch].
  - intros n Hin. destruct Hin.
  - destruct (find_compatible_child_by_node st local_child (Some node) rsc
                filter current) as [found|] eqn:Hnode.
    + cbv beta iota.
      exists [], node, next. split; [reflexivity|]. split; [exact Hnode|].
      intros n Hin. destruct Hin.
    + cbv beta iota.
      destruct (find_compatible_child_scratch st local_child next rsc filter
                  current) as [found|].
      * destruct IH as (tried & n & untried & -> & Hfound & Hnone).
        exists (node :: tried), n, untried. split; [reflexivity|].
        split; [exact Hfound|].
        intros m [<-|Hin]; [exact Hnode|exact (Hnone m Hin)].
      * intros n [<-|Hin]; [exact Hnode|exact (IH n Hin)].
Qed.

(** X21. A child found by [find_compatible_child] is one of the peer's
    children (its containers for a bundle), is not blocked, passes the role
    filter, and is located on the node of the local child, or, if the local
    child has no location, on one of its allowed nodes. *)
Theorem find_compatible_child_sound st local_child rsc filter current found :
  find_compatible_child st local_child rsc filter current = Some found ->
  In found (get_containers_or_children rsc)
  /\ is_set_recursive st found pe_rsc_block true = false
  /\ (filter = RSC_ROLE_UNKNOWN \/ fns_state st found current = filter)
  /\ exists node local_node,
       fns_location st found current = Some node
       /\ In local_node (candidate_nodes st local_child current)
       /\ details node = details local_node.
Proof using Type.
  unfold find_compatible_child, candidate_nodes.
  assert (Hby : forall n,
    find_compatible_child_by_node st local_child (Some n) rsc filter current
    = Some found ->
    In found (get_containers_or_children rsc)
    /\ is_child_compatible st found n filter current = true).
  { intros n H. unfold find_compatible_child_by_node in H.
    apply List.find_some in H. exact H. }
  destruct (fns_location st local_child current) as [local_node|].
  - intros H. destruct (Hby _ H) as [Hin Hc].
    apply is_child_compatible_spec in Hc.
    destruct Hc as (Hb & Hf & node & Hn & Hd).
    repeat split; try assumption.
    exists node, local_node. repeat split; try assumption. left. reflexivity.
  - intros H.
    pose proof (find_compatible_child_scratch_spec st local_child
                  (pcmk__sort_nodes
                     (map snd (map_to_list (allowed_nodes local_child))))
                  rsc filter current) as Hs.
    rewrite H in Hs. destruct Hs as (tried & n & untried & Heq & Hn & _).
    destruct (Hby _ Hn) as [Hin Hc].
    apply is_child_compatible_spec in Hc.
    destruct Hc as (Hb & Hf & node & Hnode & Hd).
    repeat split; try assumption.
    exists node, n. repeat split; try assumption.
    rewrite Heq. apply in_or_app. right. left. reflexivity.
Qed.

(** X22. [find_compatible_child] finds nothing exactly when no child of the
    peer is compatible on any candidate node; and when the local child has a
    location, the child found is the first compatible one in the peer's
    order. *)
Theorem find_compatible_child_complete st local_child rsc filter current :
  (find_compatible_child st local_child rsc filter current = None <->
   forall local_node child,
     In local_node (candidate_nodes st local_child current) ->
     In child (get_containers_or_children rsc) ->
     is_child_compatible st child local_node filter current = false)
  /\ (forall local_node found,
        fns_location st local_child current = Some local_node ->
        find_compatible_child st local_child rsc filter current
        = Some found ->
        exists earlier later,
          get_containers_or_children rsc = earlier ++ found :: later
          /\ forall child, In child earlier ->
               is_child_compatible st child local_node filter current
               = false).
Proof using Type.
  assert (Hnone : forall n,
    find_compatible_child_by_node st local_child (Some n) rsc filter current
    = None <->
    forall child, In child (get_containers_or_children rsc) ->
      is_child_compatible st child n filter current = false).
  { intros n. unfold find_compatible_child_by_node. split.
    - intros H child Hin. exact (List.find_none _ _ H child Hin).
    - intros H.
      destruct (List.find _ _) as [x|] eqn:Hx; [|reflexivity].
      apply List.find_some in Hx. destruct Hx as [Hin Hc].
      rewrite (H x Hin) in Hc. discriminate. }
  split.
  - unfold find_compatible_child, candidate_nodes.
    destruct (fns_location st local_child current) as [local_node|].
    + rewrite Hnone. split.
      * intros H n child [<-|[]] Hin. exact (H child Hin).
      * intros H child Hin. apply (H local_node child); [left|]; auto.
    + pose proof (find_compatible_child_scratch_spec st local_child
                    (pcmk__sort_nodes
                       (map snd (map_to_list (allowed_nodes local_child))))
                    rsc filter current) as Hs.
      destruct (find_compatible_child_scratch _ _ _ _ _ _) as [found|].
      * split; [discriminate|]. intros H.
        destruct Hs as (tried & n & untried & Heq & Hn & _).
        unfold find_compatible_child_by_node in Hn.
        apply List.find_some in Hn. destruct Hn as [Hin Hc].
        rewrite (H n found) in Hc; [discriminate| |exact Hin].
        rewrite Heq. apply in_or_app. right. left. reflexivity.
      * split; [|reflexivity]. intros _ n child Hn Hin.
        apply (proj1 (Hnone n) (Hs n Hn) child Hin).
  - intros local_node found Hloc. unfold find_compatible_child.
    rewrite Hloc. unfold find_compatible_child_by_node. intros H.
    destruct (find_first_match _ _ _ H) as (earlier & later & Heq & _ & He).
    exists earlier, later. split; assumption.
Qed.

(** X23. An ordering whose 'then' action belongs to no resource changes
    nothing and reports no update; neither does an interleaved ordering
    whose 'then' collective has no instances. *)
Theorem multi_update_nothing_to_do st first then_ node flags filter type :
  (action_rsc then_ = None ->
   pcmk__multi_update_actions st first then_ node flags filter type
   = (st, pcmk__updated_none))
  /\ (forall then_rsc,
        can_interleave_actions first then_ = true ->
        action_rsc then_ = Some then_rsc ->
        get_containers_or_children then_rsc = [] ->
        pcmk__multi_update_actions st first then_ node flags filter type
        = (st, pcmk__updated_none)).
Proof using Type.
  unfold pcmk__multi_update_actions. split.
  - intros Hnone. unfold can_interleave_actions. rewrite Hnone.
    destruct (action_rsc first); reflexivity.
  - intros then_rsc Hcan Hthen Hempty. rewrite Hcan.
    unfold multi_update_interleave_actions. rewrite Hthen, Hempty.
    destruct (action_rsc first); reflexivity.
Qed.

(** X24. Two actions can be interleaved exactly when both belong to
    resources, the resources differ, both are clones or bundles, and the
    meta-attribute "interleave" is true for the governing resource: the
    first action's resource when the 'then' action is a stop or demote (its
    key ends in _stop_0 or _demote_0), else the 'then' action's. *)
Theorem can_interleave_actions_iff first then_ :
  can_interleave_actions first then_ = true <->
  exists first_rsc then_rsc,
    action_rsc first = Some first_rsc
    /\ action_rsc then_ = Some then_rsc
    /\ id first_rsc <> id then_rsc
    /\ (variant first_rsc = pe_clone \/ variant first_rsc = pe_container)
    /\ (variant then_rsc = pe_clone \/ variant then_rsc = pe_container)
    /\ crm_is_true
         (meta (if pcmk__ends_with (uuid then_) "_stop_0"
                   || pcmk__ends_with (uuid then_) "_demote_0"
                then first_rsc else then_rsc)
            !! XML_RSC_ATTR_INTERLEAVE) = true.
Proof using Type.
  unfold can_interleave_actions.
  destruct (action_rsc first) as [first_rsc|].
  2: { split; [discriminate|]. intros (f & t & H & _). discriminate. }
  destruct (action_rsc then_) as [then_rsc|].
  2: { split; [discriminate|]. intros (f & t & _ & H & _). discriminate. }
  destruct (String.eqb (id first_rsc) (id then_rsc)) eqn:Hid.
  { apply String.eqb_eq in Hid. split; [discriminate|].
    intros (f & t & Hf & Ht & Hne & _).
    injection Hf as <-. injection Ht as <-. contradiction. }
  apply String.eqb_neq in Hid.
  destruct ((variant_value (variant first_rsc) <? variant_value pe_clone)
            || (variant_value (variant then_rsc) <? variant_value pe_clone))
    eqn:Hv.
  - split; [discriminate|].
    intros (f & t & Hf & Ht & _ & Hvf & Hvt & _).
    injection Hf as <-. injection Ht as <-.
    destruct Hvf as [Hvf|Hvf], Hvt as [Hvt|Hvt]; rewrite Hvf, Hvt in Hv;
      discriminate.
  - apply orb_false_iff in Hv. destruct Hv as [Hvf Hvt]. split.
    + intros H. exists first_rsc, then_rsc. repeat split; try assumption.
      * destruct (variant first_rsc); try discriminate; auto.
      * destruct (variant then_rsc); try discriminate; auto.
    + intros (f & t & Hf & Ht & _ & _ & _ & H).
      injection Hf as <-. injection Ht as <-. exact H.
Qed.

End Interleave.

(** *** Inhibiting the instances without a partner *)

(** A location constraint: the score of a resource on a node, or on every
    node when no node is given. *)
Record pe__location_t := mk_location {
  location_rsc : string;
  location_node : option pe_node_t;
  location_score : Z
}.

(** The working set of an ordering update: its location constraints, and
    what it keeps of actions and orderings, which these sources leave to
    their callees. *)
Record pe_working_set_t (R : Type) := mk_working_set {
  placement_constraints : list pe__location_t;
  ordering_data : R
}.

Arguments mk_working_set {R} _ _.
Arguments placement_constraints {R} _.
Arguments ordering_data {R} _.

(** A resource is pinned to the score -INFINITY when a location constraint
    gives it that score on every node. *)
Definition pinned {R : Type} (st : pe_working_set_t R) (rsc : pe_resource_t)
  : Prop :=
  In (mk_location (id rsc) None (- INFINITY)) (placement_constraints st).

Section Inhibit.

Variable R : Type.

Local Abbreviation W := (pe_working_set_t R).

(** Declared outside these sources, as in the section above; each reads the
    whole working set. *)
Variable fns_location : W -> pe_resource_t -> bool -> option pe_node_t.
Variable fns_state : W -> pe_resource_t -> bool -> rsc_role_e.
Variable is_set_recursive : W -> pe_resource_t -> Z -> bool -> bool.
Variable pe_rsc_block : Z.
Variable pcmk__bundle_containers : pe_resource_t -> list pe_resource_t.
Variable pcmk__sort_nodes : list pe_node_t -> list pe_node_t.
Variable pcmk__get_rsc_in_container :
  pe_resource_t -> option pe_node_t -> option pe_resource_t.
Variable find_first_action :
  list pe_action_t -> option string -> string -> option pe_node_t ->
  option pe_action_t.
Variable cmds_action_flags :
  W -> pe_resource_t -> pe_action_t -> option pe_node_t -> Z.
Variable pcmk__update_ordered_actions :
  W -> pe_action_t -> pe_action_t -> option pe_node_t -> Z -> Z -> Z ->
  W * Z.
Variable pcmk__update_action_for_orderings : W -> pe_action_t -> W.
Variable actions_after : W -> pe_action_t -> list pe_action_t.
Variable action_rsc : pe_action_t -> option pe_resource_t.
Variable action_first_child : pe_action_t -> pe_resource_t.
Variable get_complex_task : pe_resource_t -> string -> bool -> action_tasks.
Variable task2text : action_tasks -> string.
Variable crm_is_true : option string -> bool.
Variable pe_order_runnable_left : Z.
Variable pe_order_implies_then : Z.
Variable pcmk__updated_first : Z.
Variable pcmk__updated_then : Z.
Variable pe_action_runnable : Z.

(** What a forced assignment does to the actions and orderings of the
    working set, and whether it reports a change. *)
Variable assign_resource_rest :
  W -> pe_resource_t -> option pe_node_t -> bool -> R * bool.

(** What the ordering of two actions and the [update_ordered_actions]
    method of a resource's variant make of the actions and orderings of the
    working set, and their results. *)
Variable order_actions_rest :
  W -> pe_action_t -> pe_action_t -> Z -> R * bool.
Variable update_ordered_actions_rest :
  W -> pe_resource_t -> pe_action_t -> pe_action_t -> option pe_node_t ->
  Z -> Z -> Z -> R * Z.

(** Modelled from the spec: [pcmk__assign_resource] is defined outside these
    sources.  Called for [then_child] with no node it is to "force
    then_child to score -INFINITY (inhibit activation)": a resource that is
    not assigned is left with "an explicit -INFINITY location record". *)
Definition pcmk__assign_resource (st : W) (rsc : pe_resource_t)
    (node : option pe_node_t) (force : bool) : W * bool :=
  let '(rest, changed) := assign_resource_rest st rsc node force in
  (mk_working_set
     match node with
     | None =>
         mk_location (id rsc) None (- INFINITY) :: placement_constraints st
     | Some _ => placement_constraints st
     end
     rest,
   changed).

(** Modelled from the spec: [order_actions] is defined outside these
    sources; it is a "graph-add with dedup" of an ordering between two
    actions, and leaves the location constraints alone. *)
Definition order_actions (st : W) (first then_ : pe_action_t) (type : Z)
  : W * bool :=
  let '(rest, ordered) := order_actions_rest st first then_ type in
  (mk_working_set (placement_constraints st) rest, ordered).

(** Modelled from the spec: the [update_ordered_actions] method of a variant
    is defined outside these sources; it "handles primitive-level
    propagation" between the two actions of an ordering, and leaves the
    location constraints alone. *)
Definition cmds_update_ordered_actions (st : W) (rsc : pe_resource_t)
    (first then_ : pe_action_t) (node : option pe_node_t)
    (flags filter type : Z) : W * Z :=
  let '(rest, changed) :=
    update_ordered_actions_rest st rsc first then_ node flags filter type in
  (mk_working_set (placement_constraints st) rest, changed).

Local Abbreviation compatible_child :=
  (find_compatible_child W fns_location fns_state is_set_recursive
     pe_rsc_block pcmk__bundle_containers pcmk__sort_nodes).

Local Abbreviation turn :=
  (interleave_child W fns_location fns_state is_set_recursive pe_rsc_block
     pcmk__bundle_containers pcmk__sort_nodes pcmk__assign_resource
     pcmk__get_rsc_in_container find_first_action order_actions
     cmds_action_flags cmds_update_ordered_actions action_first_child
     get_complex_task task2text pe_order_runnable_left pe_order_implies_then
     pcmk__updated_first pcmk__updated_then).

Local Abbreviation multi_update :=
  (pcmk__multi_update_actions W fns_location fns_state is_set_recursive
     pe_rsc_block pcmk__bundle_containers pcmk__sort_nodes
     pcmk__assign_resource pcmk__get_rsc_in_container find_first_action
     order_actions cmds_action_flags cmds_update_ordered_actions
     pcmk__update_ordered_actions pcmk__update_action_for_orderings
     actions_after action_rsc action_first_child get_complex_task task2text
     crm_is_true pe_order_runnable_left pe_order_implies_then
     pcmk__updated_first pcmk__updated_then pe_action_runnable).

(** The location constraints after one turn of the loop: one more, for
    [then_child], when it has no partner, the first action is not completed
    and the ordering is mandatory; the same otherwise. *)
Lemma interleave_child_constraints first then_ first_rsc node filter type
    current st changed then_child :
  placement_constraints
    (turn first then_ first_rsc node filter type current (st, changed)
       then_child).1
  = match compatible_child st then_child first_rsc RSC_ROLE_UNKNOWN
            current with
    | None =>
        if negb current
           && pcmk_any_flags_set type
                (Z.lor pe_order_runnable_left pe_order_implies_then)
        then
          mk_location (id then_child) None (- INFINITY)
            :: placement_constraints st
        else placement_constraints st
    | Some _ => placement_constraints st
    end.
Proof using Type.
  unfold interleave_child.
  destruct (compatible_child st then_child first_rsc RSC_ROLE_UNKNOWN
              current) as [first_child|].
  - cbv zeta.
    match goal with
    | |- context [match ?fa with Some _ => _ | None => (st, changed) end] =>
        destruct fa as [first_action|]; [|reflexivity]
    end.
    match goal with
    | |- context [match ?ta with Some _ => _ | None => (st, changed) end] =>
        destruct ta as [then_action|]; [|reflexivity]
    end.
    unfold order_actions at 1.
    destruct (order_actions_rest st first_action then_action type)
      as [rest ordered].
    unfold cmds_update_ordered_actions at 1.
    match goal with
    | |- context [update_ordered_actions_rest ?a ?b ?c ?d ?e ?f ?g ?h] =>
        destruct (update_ordered_actions_rest a b c d e f g h)
          as [rest' updated]
    end.
    reflexivity.
  - destruct current; cbn [negb andb]; [reflexivity|].
    destruct (pcmk_any_flags_set type _); [|reflexivity].
    unfold pcmk__assign_resource.
    destruct (assign_resource_rest st then_child None true)
      as [rest updated].
    reflexivity.
Qed.

Lemma interleave_child_keeps first then_ first_rsc node filter type current
    acc then_child c :
  In c (placement_constraints acc.1) ->
  In c
    (placement_constraints
       (turn first then_ first_rsc node filter type current acc
          then_child).1).
Proof using Type.
  destruct acc as [st changed]. cbn [fst]. intros Hin.
  rewrite interleave_child_constraints.
  destruct (compatible_child _ _ _ _ _); [exact Hin|].
  destruct (negb current && _); [right|]; exact Hin.
Qed.

Lemma interleave_children_keep first then_ first_rsc node filter type
    current iter c : forall acc,
  In c (placement_constraints acc.1) ->
  In c
    (placement_constraints
       (fold_left (turn first then_ first_rsc node filter type current)
          iter acc).1).
Proof using Type.
  induction iter as [|child next IH]; intros acc Hin; cbn [fold_left];
    [exact Hin|].
  apply IH, interleave_child_keeps, Hin.
Qed.

Lemma interleave_children_ignore first then_ first_rsc node filter type
    iter : forall acc,
  placement_constraints
    (fold_left (turn first then_ first_rsc node filter type true) iter
       acc).1
  = placement_constraints acc.1.
Proof using Type.
  induction iter as [|child next IH]; intros acc; cbn [fold_left];
    [reflexivity|].
  rewrite IH. destruct acc as [st changed].
  rewrite interleave_child_constraints.
  destruct (compatible_child _ _ _ _ _); reflexivity.
Qed.

(** C3 (as amended). In an interleaved ordering whose type includes
    runnable_left (or implies_then) and whose first action is not a
    "stopped" or "demoted" action (its key ends neither in _stopped_0 nor in
    _demoted_0), every child of the 'then' collective for which no
    compatible child of the 'first' collective exists when its turn comes
    is pinned to the score -INFINITY once [multi_update_interleave_actions]
    has run, and the pins made before are kept.  When the key of the first
    action ends in _stopped_0 or _demoted_0, an unmatched child is ignored:
    the location constraints are left as they were. *)
Theorem interleave_pins_unmatched_child st first then_ node flags filter
    type first_rsc then_rsc :
  can_interleave_actions action_rsc crm_is_true first then_ = true ->
  action_rsc first = Some first_rsc ->
  action_rsc then_ = Some then_rsc ->
  let current :=
    pcmk__ends_with (uuid first) "_stopped_0"
    || pcmk__ends_with (uuid first) "_demoted_0" in
  let final := (multi_update st first then_ node flags filter type).1 in
  (current = false ->
   pcmk_any_flags_set type
     (Z.lor pe_order_runnable_left pe_order_implies_then) = true ->
   (forall pre then_child post,
      get_containers_or_children pcmk__bundle_containers then_rsc
      = pre ++ then_child :: post ->
      compatible_child
        (fold_left (turn first then_ first_rsc node filter type current) pre
           (st, pcmk__updated_none)).1
        then_child first_rsc RSC_ROLE_UNKNOWN current = None ->
      pinned final then_child)
   /\ (forall rsc, pinned st rsc -> pinned final rsc))
  /\ (current = true ->
      placement_constraints final = placement_constraints st).
Proof using Type.
  intros Hcan Hfirst Hthen current final.
  assert (Hfinal :
    final
    = (fold_left (turn first then_ first_rsc node filter type current)
         (get_containers_or_children pcmk__bundle_containers then_rsc)
         (st, pcmk__updated_none)).1).
  { subst final.
    unfold pcmk__multi_update_actions, multi_update_interleave_actions.
    rewrite Hcan, Hfirst, Hthen. reflexivity. }
  split.
  - intros Hcur Htype. split.
    + intros pre then_child post Hchildren Hnone.
      unfold pinned. rewrite Hfinal, Hchildren, fold_left_app.
      cbn [fold_left]. apply interleave_children_keep.
      destruct (fold_left _ pre (st, pcmk__updated_none))
        as [before changed] eqn:Hbefore.
      cbn [fst] in Hnone.
      rewrite interleave_child_constraints, Hnone, Hcur, Htype.
      left. reflexivity.
    + intros rsc Hpin. unfold pinned. rewrite Hfinal.
      apply interleave_children_keep. exact Hpin.
  - intros Hcur. rewrite Hfinal, Hcur.
    apply interleave_children_ignore.
Qed.

End Inhibit.

(** *** Actions of a collective's instances *)

(** [RSC_START], [RSC_STARTED], [RSC_STOP] and [RSC_STOPPED] name the
    actions "start", "running", "stop" and "stopped". *)
Definition PCMK_ACTION_RUNNING : string := "running".
Definition RSC_START : string := PCMK_ACTION_START.
Definition RSC_STARTED : string := PCMK_ACTION_RUNNING.
Definition RSC_STOP : string := PCMK_ACTION_STOP.
Definition RSC_STOPPED : string := PCMK_ACTION_STOPPED.

(** The members of the notification data that are used here. *)
Record notify_data_t := mk_notify_data {
  pre : pe_action_t;
  post_done : pe_action_t
}.

(** What [pcmk__create_instance_actions] leaves behind: the instances with
    their actions, the four pseudo-actions of the collective with the
    priorities given to two of them, and the notification data.  A
    notification argument is [None] for a null pointer and [Some None] for a
    pointer to a null pointer. *)
Record collective_actions := mk_collective_actions {
  created_instances : list pe_resource_t;
  new_start : pe_action_t;
  new_started : pe_action_t;
  started_priority : Z;
  new_stop : pe_action_t;
  new_stopped : pe_action_t;
  stopped_priority : Z;
  start_notify_out : option (option notify_data_t);
  stop_notify_out : option (option notify_data_t)
}.

Definition pe__set_action_flags (action : pe_action_t) (flag : Z)
  : pe_action_t :=
  mk_action (uuid action) (task action) (Z.lor (flags action) flag)
    (node action).

Section CreateActions.

(** Declared outside these sources: the [cmds->create_actions] method of an
    instance's variant, the creation of a pseudo-action of a resource (task,
    optional, runnable), the creation of the notification pseudo-actions
    around two actions, and the ordering of two actions. *)
Variable W : Type.
Variable pe_action_pseudo : Z.
Variable pe_action_runnable : Z.
Variable pe_action_optional : Z.
Variable pe_action_migrate_runnable : Z.
Variable pe_order_optional : Z.
Variable cmds_create_actions : W -> pe_resource_t -> W * pe_resource_t.
Variable pe__new_rsc_pseudo_action :
  W -> pe_resource_t -> string -> bool -> bool -> W * pe_action_t.
Variable pe__clone_notif_pseudo_ops :
  W -> pe_resource_t -> string -> pe_action_t -> pe_action_t ->
  W * option notify_data_t.
Variable order_actions : W -> pe_action_t -> pe_action_t -> Z -> W * bool.

(** The loop of [pcmk__create_instance_actions] over the instances. *)
Fixpoint create_instances (st : W) (iter : list pe_resource_t) (state : Z)
  : W * list pe_resource_t * Z :=
  match iter with
  | [] => (st, [], state)
  | instance :: next =>
      let '(st, instance) := cmds_create_actions st instance in
      let state :=
        check_instance_state pe_action_pseudo pe_action_runnable
          pe_action_optional instance state in
      let '(st, rest, state) := create_instances st next state in
      (st, instance :: rest, state)
  end.

Definition pcmk__create_instance_actions (st : W)
    (collective : pe_resource_t) (instances : list pe_resource_t)
    (start_notify stop_notify : option (option notify_data_t))
  : W * collective_actions :=
  (* Create actions for each instance appropriate to its variant *)
  let '(st, instances, state) := create_instances st instances 0 in
  (* Create pseudo-actions for rsc start and started *)
  let '(st, start) :=
    pe__new_rsc_pseudo_action st collective RSC_START
      (negb (pcmk_is_set state instance_starting)) true in
  let '(st, started) :=
    pe__new_rsc_pseudo_action st collective RSC_STARTED
      (negb (pcmk_is_set state instance_starting)) false in
  let started :=
    if pcmk_any_flags_set state (Z.lor instance_active instance_starting)
    then pe__set_action_flags started pe_action_runnable
    else started in
  let '(st, start_notify) :=
    match start_notify with
    | Some None =>
        let '(st, data) :=
          pe__clone_notif_pseudo_ops st collective RSC_START start started in
        (st, Some data)
    | _ => (st, start_notify)
    end in
  (* Create pseudo-actions for rsc stop and stopped *)
  let '(st, stop) :=
    pe__new_rsc_pseudo_action st collective RSC_STOP
      (negb (pcmk_is_set state instance_stopping)) true in
  let '(st, stopped) :=
    pe__new_rsc_pseudo_action st collective RSC_STOPPED
      (negb (pcmk_is_set state instance_stopping)) true in
  let stop :=
    if negb (pcmk_is_set state instance_restarting)
    then pe__set_action_flags stop pe_action_migrate_runnable
    else stop in
  let '(st, stop_notify) :=
    match stop_notify with
    | Some None =>
        let '(st, data) :=
          pe__clone_notif_pseudo_ops st collective RSC_STOP stop stopped in
        let st :=
          match start_notify, data with
          | Some (Some start_data), Some stop_data =>
              (order_actions st (post_done stop_data) (pre start_data)
                 pe_order_optional).1
          | _, _ => st
          end in
        (st, Some data)
    | _ => (st, stop_notify)
    end in
  (st,
   mk_collective_actions instances start started INFINITY stop stopped
     INFINITY start_notify stop_notify).

Lemma pcmk_any_flags_set_bits s j k :
  0 <= j -> 0 <= k ->
  pcmk_any_flags_set s (Z.lor (Z.shiftl 1 j) (Z.shiftl 1 k))
  = Z.testbit s j || Z.testbit s k.
Proof using Type.
  intros Hj Hk. unfold pcmk_any_flags_set. apply eq_true_iff_eq.
  rewrite negb_true_iff, Z.eqb_neq, orb_true_iff.
  assert (Hbit : forall n, 0 <= n ->
            Z.testbit (Z.land s (Z.lor (Z.shiftl 1 j) (Z.shiftl 1 k))) n
            = Z.testbit s n && ((j =? n) || (k =? n))).
  { intros n Hn. rewrite Z.land_spec, Z.lor_spec, !Z.shiftl_1_l.
    rewrite !Z.pow2_bits_eqb by assumption. reflexivity. }
  split.
  - intros H. destruct (Z.testbit s j) eqn:Hsj; [left; reflexivity|].
    destruct (Z.testbit s k) eqn:Hsk; [right; reflexivity|].
    exfalso. apply H. apply Z.bits_inj'. intros n Hn.
    rewrite Hbit, Z.bits_0 by exact Hn.
    destruct (j =? n) eqn:Ej.
    { apply Z.eqb_eq in Ej. subst n. rewrite Hsj. reflexivity. }
    destruct (k =? n) eqn:Ek.
    { apply Z.eqb_eq in Ek. subst n. rewrite Hsk. reflexivity. }
    apply andb_false_r.
  - intros H Hz.
    assert (Hj' := f_equal (fun z => Z.testbit z j) Hz).
    assert (Hk' := f_equal (fun z => Z.testbit z k) Hz).
    cbv beta in Hj', Hk'. rewrite Hbit, Z.bits_0 in Hj', Hk' by assumption.
    rewrite Z.eqb_refl in Hj', Hk'. rewrite orb_true_r in Hk'.
    rewrite orb_true_l in Hj'. rewrite andb_true_r in Hj', Hk'.
    destruct H; congruence.
Qed.

(** Bit [k] of the state after the loop is bit [k] of the state before it
    or what some primitive of the instances, as their actions were created,
    adds to it. *)
Lemma create_instances_bits iter : forall st state k,
  0 <= k ->
  let made := create_instances st iter state in
  Z.testbit made.2 k
  = Z.testbit state k
    || existsb
         (contributes pe_action_pseudo pe_action_runnable pe_action_optional
            k)
         (flat_map primitives made.1.2).
Proof using Type.
  induction iter as [|instance next IH]; intros st state k Hk;
    cbn [create_instances].
  - cbn [fst snd flat_map existsb]. rewrite orb_false_r. reflexivity.
  - destruct (cmds_create_actions st instance) as [st1 instance1].
    specialize (IH st1
                  (check_instance_state pe_action_pseudo pe_action_runnable
                     pe_action_optional instance1 state) k Hk).
    cbv zeta in IH.
    destruct (create_instances st1 next _) as [[st2 rest] state2].
    cbn [fst snd] in IH |- *. cbn [flat_map].
    rewrite IH, check_instance_state_bits by exact Hk.
    rewrite existsb_app, orb_assoc. reflexivity.
Qed.

(** X25. [pcmk__create_instance_actions] creates the collective's start
    and started pseudo-actions as optional exactly when no primitive of the
    instances is starting, and its stop and stopped pseudo-actions as
    optional exactly when none is stopping.  The started action is made
    runnable when some primitive is active or starting, the stop action
    migrate-runnable when no primitive restarts, and the started and stopped
    actions get the priority [INFINITY]. *)
Theorem create_instance_actions_pseudo st collective instances start_notify
    stop_notify :
  let made := create_instances st instances 0 in
  let prims := flat_map primitives made.1.2 in
  let starting :=
    existsb (is_starting pe_action_runnable pe_action_optional) prims in
  let stopping :=
    existsb
      (is_stopping pe_action_pseudo pe_action_runnable pe_action_optional)
      prims in
  let restarting :=
    existsb (restarts pe_action_pseudo pe_action_runnable pe_action_optional)
      prims in
  let active := existsb is_active prims in
  let r :=
    (pcmk__create_instance_actions st collective instances start_notify
       stop_notify).2 in
  created_instances r = made.1.2
  /\ (exists st1 st2 st3 st4 st5 started stop,
        pe__new_rsc_pseudo_action made.1.1 collective RSC_START
          (negb starting) true = (st1, new_start r)
        /\ pe__new_rsc_pseudo_action st1 collective RSC_STARTED
             (negb starting) false = (st2, started)
        /\ new_started r
           = (if active || starting
              then pe__set_action_flags started pe_action_runnable
              else started)
        /\ pe__new_rsc_pseudo_action st3 collective RSC_STOP
             (negb stopping) true = (st4, stop)
        /\ new_stop r
           = (if negb restarting
              then pe__set_action_flags stop pe_action_migrate_runnable
              else stop)
        /\ pe__new_rsc_pseudo_action st4 collective RSC_STOPPED
             (negb stopping) true = (st5, new_stopped r))
  /\ started_priority r = INFINITY
  /\ stopped_priority r = INFINITY.
Proof using Type.
  intros made prims starting stopping restarting active r.
  assert (Hbits : forall k, 0 <= k ->
            Z.testbit made.2 k
            = existsb
                (contributes pe_action_pseudo pe_action_runnable
                   pe_action_optional k) prims).
  { intros k Hk. unfold made, prims.
    rewrite (create_instances_bits instances st 0 k Hk).
    rewrite Z.bits_0. reflexivity. }
  assert (Hstarting : pcmk_is_set made.2 instance_starting = starting).
  { unfold instance_starting. rewrite pcmk_is_set_bit, Hbits by lia.
    reflexivity. }
  assert (Hstopping : pcmk_is_set made.2 instance_stopping = stopping).
  { unfold instance_stopping. rewrite pcmk_is_set_bit, Hbits by lia.
    reflexivity. }
  assert (Hrestarting : pcmk_is_set made.2 instance_restarting = restarting).
  { unfold instance_restarting. rewrite pcmk_is_set_bit, Hbits by lia.
    reflexivity. }
  assert (Hany : pcmk_any_flags_set made.2
                   (Z.lor instance_active instance_starting)
                 = active || starting).
  { unfold instance_active, instance_starting.
    rewrite pcmk_any_flags_set_bits, !Hbits by lia. reflexivity. }
  subst r. unfold pcmk__create_instance_actions. fold made.
  destruct made as [[st0 instances'] state].
  cbn [fst snd] in Hstarting, Hstopping, Hrestarting, Hany |- *.
  rewrite Hstarting, Hstopping, Hrestarting, Hany.
  destruct (pe__new_rsc_pseudo_action st0 collective RSC_START
              (negb starting) true) as [st1 start] eqn:Hstart.
  destruct (pe__new_rsc_pseudo_action st1 collective RSC_STARTED
              (negb starting) false) as [st2 started] eqn:Hstarted.
  set (started' := if active || starting
                   then pe__set_action_flags started pe_action_runnable
                   else started).
  set (notified :=
         match start_notify with
         | Some None =>
             let '(st, data) :=
               pe__clone_notif_pseudo_ops st2 collective RSC_START start
                 started' in
             (st, Some data)
         | _ => (st2, start_notify)
         end).
  destruct notified as [st3 start_notify'].
  destruct (pe__new_rsc_pseudo_action st3 collective RSC_STOP
              (negb stopping) true) as [st4 stop] eqn:Hstop.
  destruct (pe__new_rsc_pseudo_action st4 collective RSC_STOPPED
              (negb stopping) true) as [st5 stopped] eqn:Hstopped.
  set (stop' := if negb restarting
                then pe__set_action_flags stop pe_action_migrate_runnable
                else stop).
  match goal with
  | |- context [let '(_, _) := ?e in _] => destruct e as [st6 stop_notify']
  end.
  cbn [snd created_instances new_start new_started new_stop new_stopped
         started_priority stopped_priority].
  split; [reflexivity|]. split; [|split; reflexivity].
  exists st1, st2, st3, st4, st5, started, stop.
  repeat (split; [first [reflexivity|assumption]|]).
  exact Hstopped.
Qed.

End CreateActions.

(** *** Two sample clones

    Sample values for what the sources leave open.  Clone "c1" has one
    instance, on node "a"; clone "c2" has one on "a" and one on "b"; both
    clones interleave.  The working set of the sample is the list of the
    resources that were forced to stay inactive. *)

Definition sample_pseudo : Z := 1.
Definition sample_runnable : Z := 2.
Definition sample_optional : Z := 4.
Definition sample_implies_then : Z := 16.
Definition sample_runnable_left : Z := 256.
Definition sample_updated_first : Z := 1.
Definition sample_updated_then : Z := 2.
Definition sample_block : Z := 4.

Definition node_a : pe_node_t := mk_node "a" 0 0.
Definition node_b : pe_node_t := mk_node "b" 0 0.

Definition sample_primitive (name : string) (on : pe_node_t)
    (start_flags stop_flags : Z) : pe_resource_t :=
  mk_resource name pe_native []
    [mk_action (name +:+ "_start_0") "start" start_flags (Some on);
     mk_action (name +:+ "_stop_0") "stop" stop_flags (Some on)]
    [on] {[ details on := on ]} ∅.

Definition c1_0 : pe_resource_t := sample_primitive "c1:0" node_a 2 6.
Definition c2_0 : pe_resource_t := sample_primitive "c2:0" node_a 2 6.
Definition c2_1 : pe_resource_t := sample_primitive "c2:1" node_b 6 2.

Definition sample_clone (name : string) (instances : list pe_resource_t)
  : pe_resource_t :=
  mk_resource name pe_clone instances [] [] ∅ {[ "interleave" := "true" ]}.

Definition c1 : pe_resource_t := sample_clone "c1" [c1_0].
Definition c2 : pe_resource_t := sample_clone "c2" [c2_0; c2_1].

Definition sample_action_rsc (action : pe_action_t) : option pe_resource_t :=
  if String.prefix "c1_" (uuid action) then Some c1
  else if String.prefix "c2_" (uuid action) then Some c2
  else None.

Definition sample_first_child (action : pe_action_t) : pe_resource_t :=
  match sample_action_rsc action with
  | Some rsc => List.hd c1_0 (children rsc)
  | None => c1_0
  end.

Definition sample_text2task (name : string) : action_tasks :=
  if String.eqb name "stop" then pcmk_action_stop
  else if String.eqb name "stopped" then pcmk_action_stopped
  else if String.eqb name "start" then pcmk_action_start
  else if String.eqb name "started" then pcmk_action_started
  else pcmk_action_unspecified.

(** A completed action of a primitive folds back into the action itself. *)
Definition sample_get_complex_task (rsc : pe_resource_t) (name : string)
    (allow_non_atomic : bool) : action_tasks :=
  match sample_text2task name with
  | pcmk_action_stopped =>
      if variant_value (variant rsc) <? variant_value pe_group
      then pcmk_action_stop else pcmk_action_stopped
  | pcmk_action_started =>
      if variant_value (variant rsc) <? variant_value pe_group
      then pcmk_action_start else pcmk_action_started
  | t => t
  end.

Definition sample_task2text (t : action_tasks) : string :=
  match t with
  | pcmk_action_stop => "stop"
  | pcmk_action_stopped => "stopped"
  | pcmk_action_start => "start"
  | pcmk_action_started => "started"
  | _ => "no_action"
  end.

(** The first action of a list with the given task, on the given node if
    one is given. *)
Definition sample_find_first_action (input : list pe_action_t)
    (key : option string) (task_s : string) (on_node : option pe_node_t)
  : option pe_action_t :=
  List.find
    (fun action =>
       String.eqb (lower_case task_s) (lower_case (task action))
       && match on_node, node action with
          | None, _ => true
          | Some _, None => false
          | Some n, Some m => String.eqb (details n) (details m)
          end)
    input.

Definition sample_flags (rsc : pe_resource_t) (action : pe_action_t)
    (on_node : option pe_node_t) : Z :=
  flags action.

Definition sample_location (st : list string) (rsc : pe_resource_t)
    (current : bool) : option pe_node_t :=
  if existsb (String.eqb (id rsc)) st then None
  else List.head (running_on rsc).

Definition sample_assign_resource (st : list string) (rsc : pe_resource_t)
    (on_node : option pe_node_t) (force : bool) : list string * bool :=
  (st ++ [id rsc], true).

Definition sample_multi_update (first then_ : pe_action_t) (type : Z)
  : list string * Z :=
  pcmk__multi_update_actions (list string) sample_location
    (fun _ _ _ => RSC_ROLE_STARTED) (fun _ _ _ _ => false) sample_block
    children (fun nodes => nodes) sample_assign_resource (fun _ _ => None)
    sample_find_first_action (fun st _ _ _ => (st, true))
    (fun _ => sample_flags) (fun st _ _ _ _ _ _ _ => (st, 0))
    (fun st _ _ _ _ _ _ => (st, 0)) (fun st _ => st) (fun _ _ => [])
    sample_action_rsc sample_first_child sample_get_complex_task
    sample_task2text
    (fun v => match v with Some "true"%string => true | _ => false end)
    sample_runnable_left sample_implies_then sample_updated_first
    sample_updated_then sample_runnable [] first then_ None 0 0 type.

Definition c1_start : pe_action_t := mk_action "c1_start_0" "start" 3 None.
Definition c2_start : pe_action_t := mk_action "c2_start_0" "start" 3 None.
Definition c1_stopped : pe_action_t :=
  mk_action "c1_stopped_0" "stopped" 3 None.
Definition c2_stop : pe_action_t := mk_action "c2_stop_0" "stop" 3 None.

(** A start on one primitive and a stop on another leave the restarting bit
    clear; both on one primitive set it. *)
Example sample_instance_states :
  check_instance_state sample_pseudo sample_runnable sample_optional
    (sample_clone "c2" [c2_0; c2_1]) 0
  = Z.lor (Z.lor instance_starting instance_stopping) instance_active
  /\ check_instance_state sample_pseudo sample_runnable sample_optional
       (sample_primitive "p" node_a 2 2) 0
     = instance_all.
Proof. split; vm_compute; reflexivity. Qed.

(** The key of a notification names the task it is about. *)
Example sample_notified_task :
  clone_child_action sample_first_child sample_get_complex_task
    (mk_action "c1_confirmed-post_notify_stopped_0" "notified" 3 None)
  = pcmk_action_stop.
Proof. vm_compute. reflexivity. Qed.

Lemma summary_action_flags_optional_witness :
  let r := summary_action_flags sample_pseudo sample_runnable
             sample_optional sample_first_child sample_get_complex_task
             sample_task2text sample_find_first_action sample_flags
             c2_start [c2_0; c2_1] None in
  (pcmk_is_set r.1 sample_optional = false <->
   exists child,
     In child [c2_0; c2_1]
     /\ child_is_mandatory sample_optional sample_find_first_action
          sample_flags
          (sample_task2text
             (clone_child_action sample_first_child sample_get_complex_task
                c2_start))
          None child = true)
  /\ (pcmk_is_set r.1 sample_optional = false ->
      pcmk_is_set (flags r.2) sample_optional = false).
Proof.
  apply (summary_action_flags_optional sample_pseudo sample_runnable
           sample_optional sample_first_child sample_get_complex_task
           sample_task2text sample_find_first_action sample_flags).
  - discriminate.
  - reflexivity.
Defined.

(** On the sample the start of "c2:0" is mandatory, so the summary of
    "c2_start_0" is mandatory and runnable, and so is the action. *)
Example sample_summary :
  summary_action_flags sample_pseudo sample_runnable sample_optional
    sample_first_child sample_get_complex_task sample_task2text
    sample_find_first_action sample_flags
    (mk_action "c2_start_0" "start" 7 None) [c2_0; c2_1] None
  = (3, mk_action "c2_start_0" "start" 3 None).
Proof. vm_compute. reflexivity. Qed.

(** The sample clones over a working set that holds location constraints
    and nothing else; a resource with a location constraint has no
    location. *)
Definition sample_constrained_location (st : pe_working_set_t unit)
    (rsc : pe_resource_t) (current : bool) : option pe_node_t :=
  if existsb (fun c => String.eqb (location_rsc c) (id rsc))
       (placement_constraints st)
  then None
  else List.head (running_on rsc).

Definition sample_update (first then_ : pe_action_t) (type : Z)
  : pe_working_set_t unit * Z :=
  pcmk__multi_update_actions (pe_working_set_t unit)
    sample_constrained_location (fun _ _ _ => RSC_ROLE_STARTED)
    (fun _ _ _ _ => false) sample_block children (fun nodes => nodes)
    (pcmk__assign_resource unit (fun _ _ _ _ => (tt, true)))
    (fun _ _ => None) sample_find_first_action
    (order_actions unit (fun _ _ _ _ => (tt, true))) (fun _ => sample_flags)
    (cmds_update_ordered_actions unit (fun _ _ _ _ _ _ _ _ => (tt, 0)))
    (fun st _ _ _ _ _ _ => (st, 0)) (fun st _ => st) (fun _ _ => [])
    sample_action_rsc sample_first_child sample_get_complex_task
    sample_task2text
    (fun v => match v with Some "true"%string => true | _ => false end)
    sample_runnable_left sample_implies_then sample_updated_first
    sample_updated_then sample_runnable (mk_working_set [] tt) first then_
    None 0 0 type.

(** Ordered after the stop of "c1" has completed, the instance "c2:1", which
    has no instance of "c1" on its node, is left alone although the ordering
    has runnable_left: it is not forced to stay inactive, and no location
    constraint pins it. *)
Lemma stopped_ordering_ignores_unmatched_child :
  can_interleave_actions sample_action_rsc
    (fun v => match v with Some "true"%string => true | _ => false end)
    c1_stopped c2_stop = true
  /\ pcmk_is_set sample_runnable_left sample_runnable_left = true
  /\ find_compatible_child (list string) sample_location
       (fun _ _ _ => RSC_ROLE_STARTED) (fun _ _ _ _ => false) sample_block
       children (fun nodes => nodes) [] c2_1 c1 RSC_ROLE_UNKNOWN true
     = None
  /\ (sample_multi_update c1_stopped c2_stop sample_runnable_left).1 = []
  /\ find_compatible_child (pe_working_set_t unit)
       sample_constrained_location (fun _ _ _ => RSC_ROLE_STARTED)
       (fun _ _ _ _ => false) sample_block children (fun nodes => nodes)
       (mk_working_set [] tt) c2_1 c1 RSC_ROLE_UNKNOWN true
     = None
  /\ ~ pinned (sample_update c1_stopped c2_stop sample_runnable_left).1 c2_1.
Proof.
  split; [vm_compute; reflexivity|]. split; [vm_compute; reflexivity|].
  split; [vm_compute; reflexivity|]. split; [vm_compute; reflexivity|].
  split; [vm_compute; reflexivity|].
  unfold pinned. vm_compute. intros H. exact H.
Qed.

Lemma interleave_pins_unmatched_child_witness :
  pinned (sample_update c1_start c2_start sample_runnable_left).1 c2_1
  /\ placement_constraints
       (sample_update c1_start c2_start sample_runnable_left).1
     = [mk_location "c2:1" None (- INFINITY)]
  /\ placement_constraints
       (sample_update c1_stopped c2_stop sample_runnable_left).1
     = [].
Proof.
  split; [|split; [vm_compute; reflexivity|]].
  - destruct (interleave_pins_unmatched_child unit
                sample_constrained_location (fun _ _ _ => RSC_ROLE_STARTED)
                (fun _ _ _ _ => false) sample_block children
                (fun nodes => nodes) (fun _ _ => None)
                sample_find_first_action (fun _ => sample_flags)
                (fun st _ _ _ _ _ _ => (st, 0)) (fun st _ => st)
                (fun _ _ => []) sample_action_rsc sample_first_child
                sample_get_complex_task sample_task2text
                (fun v =>
                   match v with Some "true"%string => true | _ => false end)
                sample_runnable_left sample_implies_then
                sample_updated_first sample_updated_then sample_runnable
                (fun _ _ _ _ => (tt, true)) (fun _ _ _ _ => (tt, true))
                (fun _ _ _ _ _ _ _ _ => (tt, 0)) (mk_working_set [] tt)
                c1_start c2_start None 0 0 sample_runnable_left c1 c2)
      as [Hinhibit _].
    + reflexivity.
    + reflexivity.
    + reflexivity.
    + destruct Hinhibit as [Hpin _].
      * reflexivity.
      * reflexivity.
      * apply (Hpin [c2_0] c2_1 []).
        -- reflexivity.
        -- vm_compute. reflexivity.
  - destruct (interleave_pins_unmatched_child unit
                sample_constrained_location (fun _ _ _ => RSC_ROLE_STARTED)
                (fun _ _ _ _ => false) sample_block children
                (fun nodes => nodes) (fun _ _ => None)
                sample_find_first_action (fun _ => sample_flags)
                (fun st _ _ _ _ _ _ => (st, 0)) (fun st _ => st)
                (fun _ _ => []) sample_action_rsc sample_first_child
                sample_get_complex_task sample_task2text
                (fun v =>
                   match v with Some "true"%string => true | _ => false end)
                sample_runnable_left sample_implies_then
                sample_updated_first sample_updated_then sample_runnable
                (fun _ _ _ _ => (tt, true)) (fun _ _ _ _ => (tt, true))
                (fun _ _ _ _ _ _ _ _ => (tt, 0)) (mk_working_set [] tt)
                c1_stopped c2_stop None 0 0 sample_runnable_left c1 c2)
      as [_ Hignore].
    + reflexivity.
    + reflexivity.
    + reflexivity.
    + apply Hignore. reflexivity.
Defined.

(** *** The sample clones: partners, summaries and notifications *)

Lemma find_compatible_child_sound_witness :
  In c1_0 (get_containers_or_children children c1)
  /\ (fun (_ : list string) (_ : pe_resource_t) (_ : Z) (_ : bool) => false)
       [] c1_0 sample_block true = false
  /\ (RSC_ROLE_UNKNOWN = RSC_ROLE_UNKNOWN
      \/ (fun (_ : list string) (_ : pe_resource_t) (_ : bool) =>
            RSC_ROLE_STARTED) [] c1_0 true = RSC_ROLE_UNKNOWN)
  /\ exists node local_node,
       sample_location [] c1_0 true = Some node
       /\ In local_node
            (candidate_nodes (list string) sample_location
               (fun nodes => nodes) [] c2_0 true)
       /\ details node = details local_node.
Proof.
  apply (find_compatible_child_sound (list string) sample_location
           (fun _ _ _ => RSC_ROLE_STARTED) (fun _ _ _ _ => false)
           sample_block children (fun nodes => nodes) [] c2_0 c1
           RSC_ROLE_UNKNOWN true c1_0).
  vm_compute. reflexivity.
Defined.

Lemma summary_action_flags_runnable_witness :
  (pcmk_is_set
     (summary_action_flags sample_pseudo sample_runnable sample_optional
        sample_first_child sample_get_complex_task sample_task2text
        sample_find_first_action sample_flags c2_start [c2_0; c2_1] None).1
     sample_runnable = true <->
   exists child,
     In child [c2_0; c2_1]
     /\ child_is_runnable sample_runnable sample_find_first_action
          sample_flags
          (sample_task2text
             (clone_child_action sample_first_child sample_get_complex_task
                c2_start))
          None child = true)
  /\ pcmk_is_set
       (summary_action_flags sample_pseudo sample_runnable sample_optional
          sample_first_child sample_get_complex_task sample_task2text
          sample_find_first_action sample_flags c2_start [c2_0; c2_1] None).1
       sample_pseudo = true.
Proof.
  apply (summary_action_flags_runnable sample_pseudo sample_runnable
           sample_optional sample_first_child sample_get_complex_task
           sample_task2text sample_find_first_action sample_flags).
  - reflexivity.
  - discriminate.
  - reflexivity.
  - reflexivity.
Defined.

Lemma summary_action_flags_action_witness :
  Z.land
    (flags
       (summary_action_flags sample_pseudo sample_runnable sample_optional
          sample_first_child sample_get_complex_task sample_task2text
          sample_find_first_action sample_flags
          (mk_action "c2_start_0" "start" 7 None) [c2_0; c2_1] None).2)
    7
  = flags
      (summary_action_flags sample_pseudo sample_runnable sample_optional
         sample_first_child sample_get_complex_task sample_task2text
         sample_find_first_action sample_flags
         (mk_action "c2_start_0" "start" 7 None) [c2_0; c2_1] None).2.
Proof.
  destruct (summary_action_flags_action sample_pseudo sample_runnable
              sample_optional sample_first_child sample_get_complex_task
              sample_task2text sample_find_first_action sample_flags)
    with (action := mk_action "c2_start_0" "start" 7 None)
         (children := [c2_0; c2_1]) (on_node := @None pe_node_t)
    as (_ & _ & _ & Hsubset & _).
  - reflexivity.
  - discriminate.
  - exact Hsubset.
Defined.

Lemma clone_child_action_notify_witness :
  clone_child_action sample_first_child sample_get_complex_task
    (mk_action "c1_confirmed-post_notify_stopped_0" "notified" 3 None)
  = sample_get_complex_task
      (sample_first_child
         (mk_action "c1_confirmed-post_notify_stopped_0" "notified" 3 None))
      "stopped" true.
Proof.
  exact (clone_child_action_notify sample_first_child
           sample_get_complex_task
           (mk_action "c1_confirmed-post_notify_stopped_0" "notified" 3 None)
           "c1_confirmed-post_notify" "stopped" "0" eq_refl eq_refl eq_refl
           eq_refl).
Defined.

End Orchestration.
